(** * ChpSimulator: a shallow embedding of [chp_sim/chp_simulator.py]

    The simulator object is a record holding the qubit count [_n] and the
    [(2n+1) x (2n+1)] boolean matrix [_table].  The numpy views [_x], [_z]
    and [_r] alias [_table]; they are modelled as accessors into the one
    table (column offset [0], [_n] and [2 * _n]).  Methods mutate the object
    in place and may raise, so they live in a state-and-exception monad in
    which the state survives an exception.  Integer indices are Python
    integers ([Z]) and go through numpy's index normalisation (negative
    indices wrap once; any other index outside the axis is rejected, with
    an [IndexError] or, for a number too large for numpy's index type, an
    [OverflowError]). *)

From Stdlib Require Import ZArith QArith Bool Lia String Ascii.
From stdpp Require Import base tactics option list.

Local Open Scope nat_scope.

(** ** Exceptions and the method monad *)

Inductive exn : Set := IndexError | AssertionError | OverflowError.

Inductive result (A : Type) : Type :=
| Ok (a : A)
| Raise (e : exn).
Arguments Ok {A} a.
Arguments Raise {A} e.

Record ChpSimulator : Type := mkSim {
  _n : nat;
  _table : list (list bool)
}.

Record MeasureResult : Type := mkResult {
  value : bool;
  determined : bool
}.

Definition M (A : Type) : Type := ChpSimulator -> result A * ChpSimulator.

Definition ret {A} (a : A) : M A := fun s => (Ok a, s).

Definition raise {A} (e : exn) : M A := fun s => (Raise e, s).

Definition bind {A B} (m : M A) (f : A -> M B) : M B :=
  fun s => match m s with
           | (Ok a, s') => f a s'
           | (Raise e, s') => (Raise e, s')
           end.

Notation "x <- m ;; k" := (bind m (fun x => k))
  (at level 100, m at next level, right associativity).
Notation "m ;; k" := (bind m (fun _ => k))
  (at level 100, right associativity).

Definition get_n : M nat := fun s => (Ok (_n s), s).

Definition modify_table (f : list (list bool) -> list (list bool)) : M unit :=
  fun s => (Ok tt, mkSim (_n s) (f (_table s))).

Definition lift {A} (r : result A) : M A := fun s => (r, s).

Definition assert (b : bool) : M unit :=
  if b then ret tt else raise AssertionError.

(** [for x in xs: body(x)] *)
Fixpoint for_ {A} (xs : list A) (body : A -> M unit) : M unit :=
  match xs with
  | [] => ret tt
  | x :: xs' => body x ;; for_ xs' body
  end.

(** [range(m)] and [range(a, b)] *)
Definition range (m : nat) : list Z := map Z.of_nat (seq 0 m).
Definition range2 (a b : nat) : list Z := map Z.of_nat (seq a (b - a)).

(** ** numpy indexing *)

(** The exception for an integer that is no index of the axis.  numpy
    converts the Python integer to its index type, a signed 64-bit word.
    An integer in [[2^63, 2^64)] is read as an unsigned word and fails in
    that conversion with [OverflowError]; an integer that fits the word is
    out of bounds, and one of more than 64 bits is not a valid index at
    all: both are an [IndexError]. *)
Definition index_exn (i : Z) : exn :=
  if ((2 ^ 63 <=? i) && (i <? 2 ^ 64))%Z then OverflowError else IndexError.

(** An integer index on an axis of length [len]: an index in [[-len, len)]
    is accepted, a negative one counting from the end. *)
Definition np_index (len : nat) (i : Z) : result nat :=
  if ((0 <=? i) && (i <? Z.of_nat len))%Z then Ok (Z.to_nat i)
  else if ((- Z.of_nat len <=? i) && (i <? 0))%Z
       then Ok (Z.to_nat (i + Z.of_nat len))
       else Raise (index_exn i).

(** An integer index into a Python list of length [len]: the same
    normalisation, and every other index is an [IndexError]. *)
Definition list_index (len : nat) (i : Z) : result nat :=
  if ((0 <=? i) && (i <? Z.of_nat len))%Z then Ok (Z.to_nat i)
  else if ((- Z.of_nat len <=? i) && (i <? 0))%Z
       then Ok (Z.to_nat (i + Z.of_nat len))
       else Raise IndexError.

Definition nrows (s : ChpSimulator) : nat := 2 * _n s + 1.
Definition ncols (s : ChpSimulator) : nat := 2 * _n s + 1.

(** Column offsets of the three views:
    [_x = _table[:, :n]], [_z = _table[:, n:-1]], [_r = _table[:, -1]]. *)
Definition x_off (n : nat) : nat := 0.
Definition z_off (n : nat) : nat := n.
Definition r_col (n : nat) : nat := 2 * n.

Definition cell (t : list (list bool)) (i j : nat) : bool := (t !!! i) !!! j.

(** [view[i, j]] for a two-dimensional view of [_n] columns at [off]. *)
Definition view_get (off : nat -> nat) (i j : Z) : M bool :=
  fun s =>
    (i' <- lift (np_index (nrows s) i) ;;
     j' <- lift (np_index (_n s) j) ;;
     ret (cell (_table s) i' (off (_n s) + j'))) s.

(** [view[i, j] = b] *)
Definition view_set (off : nat -> nat) (i j : Z) (b : bool) : M unit :=
  fun s =>
    (i' <- lift (np_index (nrows s) i) ;;
     j' <- lift (np_index (_n s) j) ;;
     modify_table (alter (fun row => <[off (_n s) + j' := b]> row) i')) s.

(** [view[:, j]], read as a column vector *)
Definition view_col (off : nat -> nat) (j : Z) : M (list bool) :=
  fun s =>
    (j' <- lift (np_index (_n s) j) ;;
     ret (map (fun row => row !!! (off (_n s) + j')) (_table s))) s.

(** [view[:, j] ^= v] *)
Definition view_col_ixor (off : nat -> nat) (j : Z) (v : list bool) : M unit :=
  fun s =>
    (j' <- lift (np_index (_n s) j) ;;
     modify_table (fun t =>
       zip_with (fun row b =>
                   <[off (_n s) + j' := xorb (row !!! (off (_n s) + j')) b]> row)
                t v)) s.

(** [view[i, :n]], read as a row vector *)
Definition view_row (off : nat -> nat) (i : Z) : M (list bool) :=
  fun s =>
    (i' <- lift (np_index (nrows s) i) ;;
     ret (take (_n s) (drop (off (_n s)) (_table s !!! i')))) s.

Definition row_slice_ixor (o w : nat) (v row : list bool) : list bool :=
  take o row ++ zip_with xorb (take w (drop o row)) v ++ drop (o + w) row.

(** [view[i, :n] ^= v] *)
Definition view_row_ixor (off : nat -> nat) (i : Z) (v : list bool) : M unit :=
  fun s =>
    (i' <- lift (np_index (nrows s) i) ;;
     modify_table (alter (row_slice_ixor (off (_n s)) (_n s) v) i')) s.

(** [_r[i]] *)
Definition r_get (i : Z) : M bool :=
  fun s =>
    (i' <- lift (np_index (nrows s) i) ;;
     ret (cell (_table s) i' (r_col (_n s)))) s.

(** [_r[i] = b] *)
Definition r_set (i : Z) (b : bool) : M unit :=
  fun s =>
    (i' <- lift (np_index (nrows s) i) ;;
     modify_table (alter (fun row => <[r_col (_n s) := b]> row) i')) s.

(** [_r[:] ^= v] *)
Definition r_ixor (v : list bool) : M unit :=
  fun s =>
    modify_table (fun t =>
      zip_with (fun row b =>
                  <[r_col (_n s) := xorb (row !!! r_col (_n s)) b]> row)
               t v) s.

(** [_table[i, :]] *)
Definition table_row (i : Z) : M (list bool) :=
  fun s =>
    (i' <- lift (np_index (nrows s) i) ;;
     ret (_table s !!! i')) s.

(** [_table[i, :] = row] *)
Definition table_row_set (i : Z) (row : list bool) : M unit :=
  fun s =>
    (i' <- lift (np_index (nrows s) i) ;;
     modify_table (fun t => <[i' := row]> t)) s.

(** [_table[i, :] = 0] *)
Definition table_row_zero (i : Z) : M unit :=
  fun s => table_row_set i (replicate (ncols s) false) s.

Definition x_get := view_get x_off.
Definition z_get := view_get z_off.
Definition x_set := view_set x_off.
Definition z_set := view_set z_off.
Definition x_col := view_col x_off.
Definition z_col := view_col z_off.
Definition x_col_ixor := view_col_ixor x_off.
Definition z_col_ixor := view_col_ixor z_off.
Definition x_row := view_row x_off.
Definition z_row := view_row z_off.
Definition x_row_ixor := view_row_ixor x_off.
Definition z_row_ixor := view_row_ixor z_off.

(** Elementwise [&] and [^] on column vectors; [v ^ True] broadcasts. *)
Definition vand (u v : list bool) : list bool := zip_with andb u v.
Definition vxor (u v : list bool) : list bool := zip_with xorb u v.
Definition vxor_true (u : list bool) : list bool := map (fun b => xorb b true) u.

(** ** The simulator *)

(** [np.eye(m, dtype=np.bool)] *)
Definition eye (m : nat) : list (list bool) :=
  map (fun i => map (fun j => bool_decide (i = j)) (seq 0 m)) (seq 0 m).

Definition __init__ (num_qubits : nat) : ChpSimulator :=
  mkSim num_qubits (eye (2 * num_qubits + 1)).

Definition pauli_product_phase (x1 z1 x2 z2 : bool) : Z :=
  if x1 && z1 then (Z.b2z z2 - Z.b2z x2)%Z
  else if x1 then (if z2 then 2 * Z.b2z x2 - 1 else Z.b2z z2)%Z
  else if z1 then (if x2 then 1 - 2 * Z.b2z z2 else Z.b2z x2)%Z
  else 0%Z.

Definition cnot (control target : Z) : M unit :=
  xc <- x_col control ;;
  zt <- z_col target ;;
  xt <- x_col target ;;
  zc <- z_col control ;;
  r_ixor (vand (vand xc zt) (vxor_true (vxor xt zc))) ;;
  xc' <- x_col control ;;
  x_col_ixor target xc' ;;
  zt' <- z_col target ;;
  z_col_ixor control zt'.

Definition hadamard (qubit : Z) : M unit :=
  xq <- x_col qubit ;;
  zq <- z_col qubit ;;
  r_ixor (vand xq zq) ;;
  zq1 <- z_col qubit ;;
  x_col_ixor qubit zq1 ;;
  xq2 <- x_col qubit ;;
  z_col_ixor qubit xq2 ;;
  zq3 <- z_col qubit ;;
  x_col_ixor qubit zq3.

Definition phase (qubit : Z) : M unit :=
  xq <- x_col qubit ;;
  zq <- z_col qubit ;;
  r_ixor (vand xq zq) ;;
  xq' <- x_col qubit ;;
  z_col_ixor qubit xq'.

(** [sum(pauli_product_phase(...) for j in range(n))], accumulated from 0 *)
Fixpoint sum_phases (js : list Z) (acc : Z) (i k : Z) : M Z :=
  match js with
  | [] => ret acc
  | j :: js' =>
      x1 <- x_get i j ;;
      z1 <- z_get i j ;;
      x2 <- x_get k j ;;
      z2 <- z_get k j ;;
      sum_phases js' (acc + pauli_product_phase x1 z1 x2 z2)%Z i k
  end.

Definition _row_product_sign (i k : Z) : M bool :=
  n <- get_n ;;
  pauli_phases <- sum_phases (range n) 0%Z i k ;;
  assert (Z.land pauli_phases 1 =? 0)%Z ;;
  let p := Z.land (Z.shiftr pauli_phases 1) 1 in
  ri <- r_get i ;;
  rk <- r_get k ;;
  ret (negb (Z.lxor (Z.b2z (xorb ri rk)) p =? 0)%Z).

Definition _row_mult (i k : Z) : M unit :=
  sgn <- _row_product_sign i k ;;
  r_set i sgn ;;
  xk <- x_row k ;;
  x_row_ixor i xk ;;
  zk <- z_row k ;;
  z_row_ixor i zk.

(** [random.random() < bias]; [u] is the value drawn by [random.random()]. *)
Definition draw_lt (u bias : Q) : bool := negb (Qle_bool bias u).

Definition _measure_random (a p : Z) (bias u : Q) : M MeasureResult :=
  n <- get_n ;;
  b <- x_get (p + Z.of_nat n) a ;;
  assert b ;;
  row <- table_row (p + Z.of_nat n) ;;
  table_row_set p row ;;
  table_row_zero (p + Z.of_nat n) ;;
  z_set (p + Z.of_nat n) a true ;;
  r_set (p + Z.of_nat n) (draw_lt u bias) ;;
  for_ (range (2 * n))
       (fun i =>
          xi <- x_get i a ;;
          if xi && negb (i =? p)%Z && negb (i =? p + Z.of_nat n)%Z
          then _row_mult i p
          else ret tt) ;;
  v <- r_get (p + Z.of_nat n) ;;
  ret (mkResult v false).

(** The update loop of [_measure_random] once more, also returning the
    arguments [(i, k)] of every [_row_mult(i, k)] call it makes, in order. *)
Fixpoint update_loop_calls (rows : list Z) (a p : Z) (n : nat)
  : M (list (Z * Z)) :=
  match rows with
  | [] => ret []
  | i :: rows' =>
      xi <- x_get i a ;;
      if xi && negb (i =? p)%Z && negb (i =? p + Z.of_nat n)%Z
      then _row_mult i p ;;
           calls <- update_loop_calls rows' a p n ;;
           ret ((i, p) :: calls)
      else update_loop_calls rows' a p n
  end.

(** [_measure_random] up to the end of its loop, returning the calls. *)
Definition _measure_random_calls (a p : Z) (bias u : Q) : M (list (Z * Z)) :=
  n <- get_n ;;
  b <- x_get (p + Z.of_nat n) a ;;
  assert b ;;
  row <- table_row (p + Z.of_nat n) ;;
  table_row_set p row ;;
  table_row_zero (p + Z.of_nat n) ;;
  z_set (p + Z.of_nat n) a true ;;
  r_set (p + Z.of_nat n) (draw_lt u bias) ;;
  update_loop_calls (range (2 * n)) a p n.

Definition _measure_determined (a : Z) : M MeasureResult :=
  n <- get_n ;;
  table_row_zero (-1) ;;
  for_ (range n)
       (fun i =>
          xi <- x_get i a ;;
          if xi then _row_mult (-1) (i + Z.of_nat n) else ret tt) ;;
  v <- r_get (-1) ;;
  ret (mkResult v true).

(** The search loop of [measure]: the first [p] in [ps] whose stabilizer
    row has an X component on [qubit] takes the random branch. *)
Fixpoint measure_loop (ps : list Z) (qubit : Z) (bias u : Q) : M MeasureResult :=
  match ps with
  | [] => _measure_determined qubit
  | p :: ps' =>
      n <- get_n ;;
      b <- x_get (p + Z.of_nat n) qubit ;;
      if b then _measure_random qubit p bias u
      else measure_loop ps' qubit bias u
  end.

Definition measure (qubit : Z) (bias u : Q) : M MeasureResult :=
  n <- get_n ;;
  measure_loop (range n) qubit bias u.

(** ** Pretty-printer *)

Local Open Scope string_scope.

Definition newline : string := String (ascii_of_nat 10) EmptyString.

(** [c * m] for a one-character string [c] *)
Fixpoint str_repeat (c : string) (m : nat) : string :=
  match m with
  | O => EmptyString
  | S m' => c ++ str_repeat c m'
  end.

(** [[f(x) for x in xs]] *)
Fixpoint list_comp {A B} (f : A -> M B) (xs : list A) : M (list B) :=
  match xs with
  | [] => ret []
  | x :: xs' => y <- f x ;; ys <- list_comp f xs' ;; ret (y :: ys)
  end.

Definition _cell (row col : Z) : M string :=
  x <- x_get row col ;;
  z <- z_get row col ;;
  let k := (Z.b2z x + 2 * Z.b2z z)%Z in
  k' <- lift (list_index 4 k) ;;
  ret (nth k' ["."; "X"; "Z"; "Y"] "").

Fixpoint _row_loop (cols : list Z) (row : Z) (result : string) : M string :=
  match cols with
  | [] => ret result
  | col :: cols' => c <- _cell row col ;; _row_loop cols' row (result ++ c)
  end.

Definition _row (row : Z) : M string :=
  rr <- r_get row ;;
  n <- get_n ;;
  _row_loop (range n) row (if rr then "-" else "+").

Definition __str__ : M string :=
  n <- get_n ;;
  z_obs <- list_comp _row (range n) ;;
  let sep := [str_repeat "-" (n + 1)] in
  x_obs <- list_comp _row (range2 n (2 * n)) ;;
  ret (String.concat newline (z_obs ++ sep ++ x_obs)).

Local Close Scope string_scope.

(** ** Well-formed and reachable simulators *)

Definition wf_table (n : nat) (t : list (list bool)) : Prop :=
  length t = 2 * n + 1 /\ Forall (fun row => length row = 2 * n + 1) t.

Definition wf (s : ChpSimulator) : Prop := wf_table (_n s) (_table s).

Definition valid_qubit (s : ChpSimulator) (q : Z) : Prop :=
  (0 <= q < Z.of_nat (_n s))%Z.

(** States produced by the constructor followed by calls that respect the
    documented contract of each public method. *)
Inductive reachable : ChpSimulator -> Prop :=
| reach_init (n : nat) : reachable (__init__ n)
| reach_cnot s c t s' :
    reachable s -> valid_qubit s c -> valid_qubit s t -> c <> t ->
    cnot c t s = (Ok tt, s') -> reachable s'
| reach_hadamard s q s' :
    reachable s -> valid_qubit s q ->
    hadamard q s = (Ok tt, s') -> reachable s'
| reach_phase s q s' :
    reachable s -> valid_qubit s q ->
    phase q s = (Ok tt, s') -> reachable s'
| reach_measure s q bias u r s' :
    reachable s -> valid_qubit s q ->
    (0 <= bias)%Q -> (bias <= 1)%Q -> (0 <= u)%Q -> (u < 1)%Q ->
    measure q bias u s = (Ok r, s') -> reachable s'.

(** ** What each method does to one row *)

Definition row_ixor (j : nat) (b : bool) (row : list bool) : list bool :=
  <[j := xorb (row !!! j) b]> row.

Definition cnot_row (n c t : nat) (row : list bool) : list bool :=
  let row1 :=
    row_ixor (r_col n)
      (row !!! c && row !!! (n + t)
       && xorb (xorb (row !!! t) (row !!! (n + c))) true) row in
  let row2 := row_ixor t (row1 !!! c) row1 in
  row_ixor (n + c) (row2 !!! (n + t)) row2.

Definition hadamard_row (n q : nat) (row : list bool) : list bool :=
  let row1 := row_ixor (r_col n) (row !!! q && row !!! (n + q)) row in
  let row2 := row_ixor q (row1 !!! (n + q)) row1 in
  let row3 := row_ixor (n + q) (row2 !!! q) row2 in
  row_ixor q (row3 !!! (n + q)) row3.

Definition phase_row (n q : nat) (row : list bool) : list bool :=
  let row1 := row_ixor (r_col n) (row !!! q && row !!! (n + q)) row in
  row_ixor (n + q) (row1 !!! q) row1.

(** The integer [pauli_phases] of [_row_product_sign] for two given rows. *)
Definition phase_sum (n : nat) (ri rk : list bool) : Z :=
  fold_left
    (fun (acc : Z) (j : nat) =>
       Z.add acc (pauli_product_phase (ri !!! j) (ri !!! (n + j))
                                      (rk !!! j) (rk !!! (n + j))))
    (seq 0 n) 0%Z.

Definition product_sign (n : nat) (ri rk : list bool) : bool :=
  negb (Z.lxor (Z.b2z (xorb (ri !!! r_col n) (rk !!! r_col n)))
               (Z.land (Z.shiftr (phase_sum n ri rk) 1) 1) =? 0)%Z.

(** Row [i] after [_row_mult(i, k)], from the two rows before the call. *)
Definition row_product (n : nat) (ri rk : list bool) : list bool :=
  row_slice_ixor n n (take n (drop n rk))
    (row_slice_ixor 0 n (take n (drop 0 rk))
       (<[r_col n := product_sign n ri rk]> ri)).

(** ** Commutation of rows *)

Fixpoint xsum (m : nat) (f : nat -> bool) : bool :=
  match m with
  | O => false
  | S m' => xorb (xsum m' f) (f m')
  end.

(** The symplectic product of the Pauli strings of two rows: [true] when
    they anticommute. *)
Definition anticommute (n : nat) (r1 r2 : list bool) : bool :=
  xsum n (fun j => xorb (r1 !!! j && r2 !!! (n + j))
                        (r1 !!! (n + j) && r2 !!! j)).

Record tableau_inv (s : ChpSimulator) : Prop := mkInv {
  inv_wf : wf s;
  inv_stab : forall i j, i < _n s -> j < _n s ->
    anticommute (_n s) (_table s !!! (_n s + i)) (_table s !!! (_n s + j)) = false;
  inv_destab : forall i j, i < _n s -> j < _n s ->
    anticommute (_n s) (_table s !!! i) (_table s !!! (_n s + j))
    = bool_decide (i = j)
}.

(** ** What [measure] does to the table *)

(** The row for the observable [+Z_a] or [-Z_a]. *)
Definition z_observable (n a : nat) (b : bool) : list bool :=
  <[r_col n := b]> (<[n + a := true]> (replicate (2 * n + 1) false)).

(** The table of [_measure_random] when its update loop starts: the old
    stabilizer row [p + n] has moved to row [p] and row [p + n] holds the
    measured observable with the drawn sign. *)
Definition random_start (n a p : nat) (b : bool) (t : list (list bool))
  : list (list bool) :=
  <[p + n := z_observable n a b]> (<[p := t !!! (p + n)]> t).

(** Whether the update loop multiplies row [p] into row [i]. *)
Definition random_hits (n a p i : nat) (row : list bool) : bool :=
  row !!! a && negb (i =? p) && negb (i =? p + n).

(** The table after the update loop has handled the rows below [k]. *)
Definition random_upto (n a p k : nat) (t : list (list bool))
  : list (list bool) :=
  imap (fun (i : nat) (row : list bool) =>
          if bool_decide (i < k) && random_hits n a p i row
          then row_product n row (t !!! p) else row) t.

Definition random_table (n a p : nat) (b : bool) (t : list (list bool))
  : list (list bool) :=
  random_upto n a p (2 * n) (random_start n a p b t).

(** The scratch row of [_measure_determined] after its loop has handled the
    destabilizer rows below [k]. *)
Definition determined_step (n a : nat) (t : list (list bool))
    (acc : list bool) (i : nat) : list bool :=
  if cell t i a then row_product n acc (t !!! (i + n)) else acc.

Definition determined_scratch (n a k : nat) (t : list (list bool)) : list bool :=
  fold_left (determined_step n a t) (seq 0 k) (replicate (2 * n + 1) false).

Definition determined_table (n a : nat) (t : list (list bool))
  : list (list bool) :=
  <[2 * n := determined_scratch n a n t]> t.

(** ** Example states *)

(** [|+>] on one qubit: [hadamard(0)] after construction. *)
Definition plus_state : ChpSimulator := snd (hadamard 0 (__init__ 1)).

(** An EPR pair: [hadamard(0); cnot(0, 1)] on two qubits. *)
Definition epr_state : ChpSimulator :=
  snd ((hadamard 0 ;; cnot 0 1) (__init__ 2)).

(** The state of the printed-tableau test: three qubits after
    [hadamard(2); cnot(2,0); cnot(2,1); phase(0); phase(1); hadamard(0);
    hadamard(1); hadamard(2)]. *)
Definition kickback_state : ChpSimulator :=
  snd ((hadamard 2 ;; cnot 2 0 ;; cnot 2 1 ;; phase 0 ;; phase 1 ;;
        hadamard 0 ;; hadamard 1 ;; hadamard 2) (__init__ 3)).

(** ** Row multiplications of the random branch *)

(** The calls as the specification words them, for the stabilizer row
    [p] in [[n, 2n)] and the table [start] at the start of the loop:
    [row_mult(i, p)] for every [i] in [[0, 2n)] with [i <> p] and
    [x[i, a] = 1]. *)
Definition calls_by_spec (n a p : nat) (start : list (list bool))
  : list (Z * Z) :=
  map (fun i => (Z.of_nat i, Z.of_nat p))
      (List.filter (fun i => cell start i a && negb (i =? p)) (seq 0 (2 * n))).

(** The calls of the code, for its loop variable [p] in [[0, n)]: row [p]
    holds the copy of the old stabilizer and is the multiplier; rows [p]
    and [p + n] are skipped. *)
Definition calls_by_code (n a p : nat) (start : list (list bool))
  : list (Z * Z) :=
  map (fun i => (Z.of_nat i, Z.of_nat p))
      (List.filter (fun i => random_hits n a p i (start !!! i)) (seq 0 (2 * n))).

(** Dropping the value a computation returns. *)
Definition forget {A} (m : M A) : M unit :=
  fun s => match m s with
           | (Ok _, s') => (Ok tt, s')
           | (Raise e, s') => (Raise e, s')
           end.

(** ** The Pauli table of the specification *)

Inductive Pauli : Set := PI | PX | PY | PZ.

(** The encoding [I = 00], [X = 10], [Y = 11], [Z = 01]. *)
Definition pauli_x (P : Pauli) : bool :=
  match P with PX | PY => true | PI | PZ => false end.

Definition pauli_z (P : Pauli) : bool :=
  match P with PY | PZ => true | PI | PX => false end.

Definition pauli_of (x z : bool) : Pauli :=
  match x, z with
  | false, false => PI
  | true, false => PX
  | true, true => PY
  | false, true => PZ
  end.

(** The sixteen entries as the specification lists them. *)
Definition pauli_phase_table (P Q : Pauli) : Z :=
  match P, Q with
  | PX, PY | PY, PZ | PZ, PX => 1
  | PX, PZ | PY, PX | PZ, PY => -1
  | _, _ => 0
  end%Z.

(** Additivity of a four-bit function in each encoded operand, over the
    integers. *)
Definition bilinear_over_Z (f : bool -> bool -> bool -> bool -> Z) : Prop :=
  (forall x1 z1 x1' z1' x2 z2,
     f (xorb x1 x1') (xorb z1 z1') x2 z2
     = (f x1 z1 x2 z2 + f x1' z1' x2 z2)%Z) /\
  (forall x1 z1 x2 z2 x2' z2',
     f x1 z1 (xorb x2 x2') (xorb z2 z2')
     = (f x1 z1 x2 z2 + f x1 z1 x2' z2')%Z).

(** The same, for the parity of the value. *)
Definition bilinear_mod_2 (f : bool -> bool -> bool -> bool -> Z) : Prop :=
  (forall x1 z1 x1' z1' x2 z2,
     Z.odd (f (xorb x1 x1') (xorb z1 z1') x2 z2)
     = xorb (Z.odd (f x1 z1 x2 z2)) (Z.odd (f x1' z1' x2 z2))) /\
  (forall x1 z1 x2 z2 x2' z2',
     Z.odd (f x1 z1 (xorb x2 x2') (xorb z2 z2'))
     = xorb (Z.odd (f x1 z1 x2 z2)) (Z.odd (f x1 z1 x2' z2'))).

(** ** The scratch row *)




(** ** The rendering, row by row *)

Local Open Scope string_scope.

(** The letter of a cell under [I = 00], [X = 10], [Y = 11], [Z = 01]. *)
Definition cell_char (x z : bool) : string :=
  match x, z with
  | false, false => "."
  | true, false => "X"
  | false, true => "Z"
  | true, true => "Y"
  end.

Fixpoint cells_string (n : nat) (row : list bool) (js : list nat) : string :=
  match js with
  | [] => ""
  | j :: js' => cell_char (row !!! j) (row !!! (n + j)) ++ cells_string n row js'
  end.

(** A sign character from the sign bit, then one letter per qubit. *)
Definition row_string (n : nat) (row : list bool) : string :=
  (if (row !!! (2 * n) : bool) then "-" else "+")
  ++ cells_string n row (seq 0 n).

(** The rows listed in [first], a line of [n + 1] dashes, the rows listed in
    [second], joined by newlines. *)
Definition render (s : ChpSimulator) (first second : list nat) : string :=
  String.concat newline
    (map (fun i => row_string (_n s) (_table s !!! i)) first
     ++ [str_repeat "-" (_n s + 1)]
     ++ map (fun i => row_string (_n s) (_table s !!! i)) second).

(** The order of the specification: rows [[n, 2n)], separator, rows [[0, n)]. *)
Definition render_stabilizers_first (s : ChpSimulator) : string :=
  render s (seq (_n s) (_n s)) (seq 0 (_n s)).

(** The order of [__str__]: rows [[0, n)], separator, rows [[n, 2n)]. *)
Definition render_destabilizers_first (s : ChpSimulator) : string :=
  render s (seq 0 (_n s)) (seq (_n s) (_n s)).

Fixpoint last_char (s : string) : option ascii :=
  match s with
  | EmptyString => None
  | String c EmptyString => Some c
  | String _ s' => last_char s'
  end.

Local Close Scope string_scope.

(** * The rest of the code *)

(** ** The methods of [MeasureResult] *)

(** What [__eq__] may be handed: a [bool], an [int], another result, or an
    object of some other type. *)
Inductive py_object : Type :=
| PyBool (b : bool)
| PyInt (z : Z)
| PyResult (r : MeasureResult)
| PyOther.

Module Result.

Local Open Scope string_scope.

(** [str(b)] and [repr(b)] of a Python [bool] *)
Definition bool_str (b : bool) : string := if b then "True" else "False".

Definition __bool__ (self : MeasureResult) : bool := value self.

(** [None] stands for [NotImplemented]. *)
Definition __eq__ (self : MeasureResult) (other : py_object) : option bool :=
  match other with
  | PyBool b => Some (Bool.eqb (value self) b)
  | PyInt z => Some (Z.b2z (value self) =? z)%Z
  | PyResult r =>
      Some (Bool.eqb (value self) (value r)
            && Bool.eqb (determined self) (determined r))
  | PyOther => None
  end.

Definition __str__ (self : MeasureResult) : string :=
  bool_str (value self) ++ " ("
  ++ nth (Z.to_nat (Z.b2z (determined self))) ["random"; "determined"] ""
  ++ ")".

Definition __repr__ (self : MeasureResult) : string :=
  "MeasureResult(value=" ++ bool_str (value self)
  ++ ", determined=" ++ bool_str (determined self) ++ ")".

End Result.

(** ** The derived gates of [stabilizer_sim_extra.py] *)

(** [StabilizerSim] inherits [hadamard], [phase], [cnot] and [measure] from
    its base class; the derived methods only call these four. *)
Class StabilizerSimCore : Type := {
  self_hadamard : Z -> M unit;
  self_phase : Z -> M unit;
  self_cnot : Z -> Z -> M unit;
  self_measure : Z -> Q -> Q -> M MeasureResult
}.

Module StabilizerSim.
Section derived.
Context `{core : StabilizerSimCore}.

Definition x (a : Z) : M unit :=
  self_hadamard a ;; self_phase a ;; self_phase a ;; self_hadamard a.

Definition y (a : Z) : M unit :=
  self_phase a ;; self_phase a ;; self_hadamard a ;;
  self_phase a ;; self_phase a ;; self_hadamard a.

Definition z (a : Z) : M unit := self_phase a ;; self_phase a.

Definition sqrt_x (a : Z) : M unit :=
  self_hadamard a ;; self_phase a ;; self_hadamard a.

Definition sqrt_x_dag (a : Z) : M unit :=
  self_hadamard a ;; self_phase a ;; self_phase a ;; self_phase a ;;
  self_hadamard a.

Definition sqrt_z (a : Z) : M unit := self_phase a.

Definition sqrt_z_dag (a : Z) : M unit :=
  self_phase a ;; self_phase a ;; self_phase a.

Definition h_xz (a : Z) : M unit := self_hadamard a.

Definition h_yz (a : Z) : M unit :=
  self_hadamard a ;; self_phase a ;; self_hadamard a ;;
  self_phase a ;; self_phase a.

Definition h_xy (a : Z) : M unit :=
  self_hadamard a ;; self_phase a ;; self_phase a ;; self_hadamard a ;;
  self_phase a.

Definition measure_x (a : Z) (bias u : Q) : M MeasureResult :=
  self_hadamard a ;;
  v <- self_measure a bias u ;;
  self_hadamard a ;;
  ret v.

Definition measure_y (a : Z) (bias u : Q) : M MeasureResult :=
  h_yz a ;;
  v <- self_measure a bias u ;;
  h_yz a ;;
  ret v.


Definition measure_z_and_reset (a : Z) (bias u : Q) : M MeasureResult :=
  v <- self_measure a bias u ;;
  (if value v then x a else ret tt) ;;
  ret v.

Definition measure_x_and_reset (a : Z) (bias u : Q) : M MeasureResult :=
  self_hadamard a ;;
  measure_z_and_reset a bias u.

Definition measure_y_and_reset (a : Z) (bias u : Q) : M MeasureResult :=
  h_yz a ;;
  measure_z_and_reset a bias u.

Definition xnot (a b : Z) : M unit :=
  self_hadamard a ;; self_cnot a b ;; self_hadamard a.

Definition cz (a b : Z) : M unit :=
  self_hadamard b ;; self_cnot a b ;; self_hadamard b.
End derived.
End StabilizerSim.

(** Modelled from the spec: the base class [StabilizerSimCore]
    ([stabilizer_sim_core.py] is not among the sources).  The specification
    has one core of [cnot], [hadamard], [phase] and [measure], and the tests
    of the base class are those of [ChpSimulator], whose methods stand in
    for it. *)
#[export] Instance ChpSimulator_core : StabilizerSimCore := {|
  self_hadamard := hadamard;
  self_phase := phase;
  self_cnot := cnot;
  self_measure := measure
|}.

(** ** What the derived gates do to one row *)

Definition pauli_x_row (n a : nat) (row : list bool) : list bool :=
  hadamard_row n a (phase_row n a (phase_row n a (hadamard_row n a row))).

Definition pauli_z_row (n a : nat) (row : list bool) : list bool :=
  phase_row n a (phase_row n a row).

Definition pauli_y_row (n a : nat) (row : list bool) : list bool :=
  hadamard_row n a (phase_row n a (phase_row n a
    (hadamard_row n a (phase_row n a (phase_row n a row))))).

Definition sqrt_x_row (n a : nat) (row : list bool) : list bool :=
  hadamard_row n a (phase_row n a (hadamard_row n a row)).

Definition sqrt_x_dag_row (n a : nat) (row : list bool) : list bool :=
  hadamard_row n a (phase_row n a (phase_row n a (phase_row n a
    (hadamard_row n a row)))).

Definition sqrt_z_dag_row (n a : nat) (row : list bool) : list bool :=
  phase_row n a (phase_row n a (phase_row n a row)).

Definition h_yz_row (n a : nat) (row : list bool) : list bool :=
  phase_row n a (phase_row n a (hadamard_row n a (phase_row n a
    (hadamard_row n a row)))).

Definition h_xy_row (n a : nat) (row : list bool) : list bool :=
  phase_row n a (hadamard_row n a (phase_row n a (phase_row n a
    (hadamard_row n a row)))).

Definition xnot_row (n a b : nat) (row : list bool) : list bool :=
  hadamard_row n a (cnot_row n a b (hadamard_row n a row)).

Definition cz_row (n a b : nat) (row : list bool) : list bool :=
  hadamard_row n b (cnot_row n a b (hadamard_row n b row)).

(** ** Columns of the tableau *)

(** Column [k] of the table: one entry for each row. *)
Definition column (t : list (list bool)) (k : nat) : list bool :=
  map (fun row : list bool => row !!! k) t.

(** The columns of the rows [[0, 2n)] satisfy the relations that the rows
    do: with the destabilizer half of a column read as X bits and its
    stabilizer half as Z bits, two columns pair exactly when they are the X
    and the Z column of one qubit. *)
Definition column_inv (s : ChpSimulator) : Prop :=
  forall u v, u < 2 * _n s -> v < 2 * _n s ->
    anticommute (_n s) (column (_table s) u) (column (_table s) v)
    = bool_decide (v = _n s + u \/ u = _n s + v).

(** The destabilizer rows commute with each other. *)
Definition destabilizers_commute (s : ChpSimulator) : Prop :=
  forall i j, i < _n s -> j < _n s ->
    anticommute (_n s) (_table s !!! i) (_table s !!! j) = false.

(** * Properties *)

(** ** The monad *)

Lemma bind_Ok {A B} (m : M A) (f : A -> M B) s a s' :
  m s = (Ok a, s') -> bind m f s = f a s'.
Proof. intros H. unfold bind. by rewrite H. Qed.

Lemma bind_Raise {A B} (m : M A) (f : A -> M B) s e s' :
  m s = (Raise e, s') -> bind m f s = (Raise e, s').
Proof. intros H. unfold bind. by rewrite H. Qed.

(** ** Index normalisation *)

Lemma np_index_nat len i : i < len -> np_index len (Z.of_nat i) = Ok i.
Proof.
  intros H. unfold np_index.
  destruct (Z.leb_spec 0 (Z.of_nat i)); [|lia].
  destruct (Z.ltb_spec (Z.of_nat i) (Z.of_nat len)); [|lia].
  simpl. by rewrite Nat2Z.id.
Qed.

Lemma np_index_nonneg len (i : Z) :
  (0 <= i < Z.of_nat len)%Z -> np_index len i = Ok (Z.to_nat i).
Proof.
  intros H. rewrite <- (Z2Nat.id i) at 1 by lia. apply np_index_nat. lia.
Qed.

Lemma np_index_neg len (i : Z) :
  (- Z.of_nat len <= i < 0)%Z ->
  np_index len i = Ok (Z.to_nat (i + Z.of_nat len)).
Proof.
  intros H. unfold np_index.
  destruct (Z.leb_spec 0 i); [lia|]. simpl.
  destruct (Z.leb_spec (- Z.of_nat len) i); [|lia].
  destruct (Z.ltb_spec i 0); [|lia]. done.
Qed.

Lemma np_index_last len : np_index (len + 1) (-1) = Ok len.
Proof.
  rewrite np_index_neg by lia. f_equal. lia.
Qed.

Lemma np_index_out len (i : Z) :
  (i < - Z.of_nat len \/ Z.of_nat len <= i)%Z ->
  np_index len i = Raise (index_exn i).
Proof.
  intros H. unfold np_index.
  destruct (Z.leb_spec 0 i), (Z.ltb_spec i (Z.of_nat len)),
    (Z.leb_spec (- Z.of_nat len) i), (Z.ltb_spec i 0); simpl; try done; lia.
Qed.

Lemma index_exn_cases i : index_exn i = IndexError \/ index_exn i = OverflowError.
Proof. unfold index_exn. case_match; auto. Qed.

Lemma index_exn_word i :
  (- 2 ^ 63 <= i < 2 ^ 63)%Z -> index_exn i = IndexError.
Proof.
  intros H. unfold index_exn.
  destruct (Z.leb_spec (2 ^ 63) i); [lia|done].
Qed.

Lemma index_exn_overflow i :
  (2 ^ 63 <= i < 2 ^ 64)%Z -> index_exn i = OverflowError.
Proof.
  intros H. unfold index_exn.
  destruct (Z.leb_spec (2 ^ 63) i), (Z.ltb_spec i (2 ^ 64)); done || lia.
Qed.

Lemma np_index_lt len i i' : np_index len i = Ok i' -> i' < len.
Proof.
  unfold np_index.
  destruct (Z.leb_spec 0 i), (Z.ltb_spec i (Z.of_nat len)),
    (Z.leb_spec (- Z.of_nat len) i), (Z.ltb_spec i 0); simpl;
    intros [= <-]; lia.
Qed.

Lemma np_index_wrap len (i : Z) :
  (- Z.of_nat len <= i < 0)%Z ->
  np_index len i = np_index len (i + Z.of_nat len).
Proof.
  intros H. rewrite np_index_neg by done.
  by rewrite np_index_nonneg by lia.
Qed.

(** ** The primitives on a state [mkSim n t] *)

Section primitives.
Context (n : nat) (t : list (list bool)).
Local Abbreviation s := (mkSim n t).

Lemma view_get_run off i j i' j' :
  np_index (2 * n + 1) i = Ok i' -> np_index n j = Ok j' ->
  view_get off i j s = (Ok (cell t i' (off n + j')), s).
Proof.
  intros Hi Hj. unfold view_get, lift, bind, nrows. cbn [_n _table].
  by rewrite Hi, Hj.
Qed.

Lemma view_get_raise off i j i' e :
  np_index (2 * n + 1) i = Ok i' -> np_index n j = Raise e ->
  view_get off i j s = (Raise e, s).
Proof.
  intros Hi Hj. unfold view_get, lift, bind, nrows. cbn [_n _table].
  by rewrite Hi, Hj.
Qed.

Lemma view_set_run off i j b i' j' :
  np_index (2 * n + 1) i = Ok i' -> np_index n j = Ok j' ->
  view_set off i j b s
  = (Ok tt, mkSim n (alter (fun row => <[off n + j' := b]> row) i' t)).
Proof.
  intros Hi Hj. unfold view_set, lift, bind, nrows. cbn [_n _table].
  by rewrite Hi, Hj.
Qed.

Lemma view_col_run off j j' :
  np_index n j = Ok j' ->
  view_col off j s = (Ok (map (fun row => row !!! (off n + j')) t), s).
Proof. intros Hj. unfold view_col, lift, bind. cbn [_n _table]. by rewrite Hj. Qed.

Lemma view_col_raise off j e :
  np_index n j = Raise e ->
  view_col off j s = (Raise e, s).
Proof. intros Hj. unfold view_col, lift, bind. cbn [_n _table]. by rewrite Hj. Qed.

Lemma view_col_ixor_run off j j' v :
  np_index n j = Ok j' ->
  view_col_ixor off j v s
  = (Ok tt, mkSim n (zip_with (fun row b => row_ixor (off n + j') b row) t v)).
Proof. intros Hj. unfold view_col_ixor, lift, bind. cbn [_n _table]. by rewrite Hj. Qed.

Lemma r_ixor_run v :
  r_ixor v s
  = (Ok tt, mkSim n (zip_with (fun row b => row_ixor (r_col n) b row) t v)).
Proof. done. Qed.

Lemma view_row_run off i i' :
  np_index (2 * n + 1) i = Ok i' ->
  view_row off i s = (Ok (take n (drop (off n) (t !!! i'))), s).
Proof. intros Hi. unfold view_row, lift, bind, nrows. cbn [_n _table]. by rewrite Hi. Qed.

Lemma view_row_ixor_run off i i' v :
  np_index (2 * n + 1) i = Ok i' ->
  view_row_ixor off i v s
  = (Ok tt, mkSim n (alter (row_slice_ixor (off n) n v) i' t)).
Proof.
  intros Hi. unfold view_row_ixor, lift, bind, nrows. cbn [_n _table]. by rewrite Hi.
Qed.

Lemma r_get_run i i' :
  np_index (2 * n + 1) i = Ok i' ->
  r_get i s = (Ok (cell t i' (r_col n)), s).
Proof. intros Hi. unfold r_get, lift, bind, nrows. cbn [_n _table]. by rewrite Hi. Qed.

Lemma r_set_run i i' b :
  np_index (2 * n + 1) i = Ok i' ->
  r_set i b s = (Ok tt, mkSim n (alter (fun row => <[r_col n := b]> row) i' t)).
Proof. intros Hi. unfold r_set, lift, bind, nrows. cbn [_n _table]. by rewrite Hi. Qed.

Lemma table_row_run i i' :
  np_index (2 * n + 1) i = Ok i' ->
  table_row i s = (Ok (t !!! i'), s).
Proof. intros Hi. unfold table_row, lift, bind, nrows. cbn [_n _table]. by rewrite Hi. Qed.

Lemma table_row_set_run i i' row :
  np_index (2 * n + 1) i = Ok i' ->
  table_row_set i row s = (Ok tt, mkSim n (<[i' := row]> t)).
Proof.
  intros Hi. unfold table_row_set, lift, bind, nrows. cbn [_n _table]. by rewrite Hi.
Qed.

Lemma table_row_zero_run i i' :
  np_index (2 * n + 1) i = Ok i' ->
  table_row_zero i s
  = (Ok tt, mkSim n (<[i' := replicate (2 * n + 1) false]> t)).
Proof. intros Hi. unfold table_row_zero. by apply table_row_set_run. Qed.
End primitives.

(** One statement of a method body at a time. *)
Ltac run_with lem :=
  first [ erewrite bind_Ok by (eapply lem; eassumption)
        | erewrite lem by eassumption ].

Ltac run_col :=
  repeat first [ run_with view_col_run | run_with r_ixor_run
               | run_with view_col_ixor_run ].

(** ** The three gates act row by row *)

Ltac fuse_rows :=
  do 2 f_equal; unfold vand, vxor, vxor_true, x_off, z_off; simpl;
  repeat (progress rewrite ?zip_with_fmap_r, ?zip_with_fmap_l, ?zip_with_diag,
            <- ?list_fmap_compose);
  reflexivity.

Lemma cnot_run n t c tg c' tg' :
  np_index n c = Ok c' -> np_index n tg = Ok tg' ->
  cnot c tg (mkSim n t) = (Ok tt, mkSim n (map (cnot_row n c' tg') t)).
Proof.
  intros Hc Ht. unfold cnot, x_col, z_col, x_col_ixor, z_col_ixor.
  run_col. fuse_rows.
Qed.

Lemma hadamard_run n t q q' :
  np_index n q = Ok q' ->
  hadamard q (mkSim n t) = (Ok tt, mkSim n (map (hadamard_row n q') t)).
Proof.
  intros Hq. unfold hadamard, x_col, z_col, x_col_ixor, z_col_ixor.
  run_col. fuse_rows.
Qed.

Lemma phase_run n t q q' :
  np_index n q = Ok q' ->
  phase q (mkSim n t) = (Ok tt, mkSim n (map (phase_row n q') t)).
Proof.
  intros Hq. unfold phase, x_col, z_col, x_col_ixor, z_col_ixor.
  run_col. fuse_rows.
Qed.

(** ** Rows as bit vectors *)

Lemma rows_eq (l1 l2 : list bool) :
  length l1 = length l2 ->
  (forall i, i < length l1 -> l1 !!! i = l2 !!! i) -> l1 = l2.
Proof.
  intros Hlen H. apply list_eq. intros i.
  destruct (decide (i < length l1)) as [Hi|Hi].
  - rewrite !list_lookup_lookup_total_lt by lia. f_equal. by apply H.
  - rewrite !lookup_ge_None_2 by lia. done.
Qed.

Lemma length_row_ixor j b row : length (row_ixor j b row) = length row.
Proof. apply length_insert. Qed.

Lemma lookup_row_ixor_eq j b (row : list bool) :
  j < length row -> row_ixor j b row !!! j = xorb (row !!! j) b.
Proof. intros. unfold row_ixor. by rewrite list_lookup_total_insert_eq. Qed.

Lemma lookup_row_ixor_ne j k b (row : list bool) :
  j <> k -> row_ixor j b row !!! k = row !!! k.
Proof. intros. unfold row_ixor. by rewrite list_lookup_total_insert_ne. Qed.

(** Resolve every lookup through a single-bit update by arithmetic. *)
Ltac bits :=
  repeat first
    [ rewrite length_row_ixor
    | rewrite length_insert
    | rewrite lookup_row_ixor_eq by (rewrite ?length_row_ixor, ?length_insert; lia)
    | rewrite lookup_row_ixor_ne by lia
    | rewrite list_lookup_total_insert_eq
        by (rewrite ?length_row_ixor, ?length_insert; lia)
    | rewrite list_lookup_total_insert_ne by lia ].

(** Decide the arithmetic tests in the goal. *)
Ltac decide_lia :=
  repeat match goal with
         | |- context [decide ?P] =>
             first [ rewrite (decide_True (P := P)) by lia
                   | rewrite (decide_False (P := P)) by lia ]
         end.

(** Case analysis on every bit read in the goal. *)
Ltac bool_cases :=
  repeat match goal with
         | |- context [@lookup_total nat bool (list bool) _ ?i ?l] =>
             let b := fresh "b" in
             generalize (@lookup_total nat bool (list bool) _ i l);
             intros b; destruct b
         end;
  try done.

Section gate_rows.
Context (n : nat) (row : list bool) (Hlen : length row = 2 * n + 1).

Lemma length_cnot_row c t : length (cnot_row n c t row) = 2 * n + 1.
Proof. unfold cnot_row. by bits. Qed.

Lemma length_hadamard_row q : length (hadamard_row n q row) = 2 * n + 1.
Proof. unfold hadamard_row. by bits. Qed.

Lemma length_phase_row q : length (phase_row n q row) = 2 * n + 1.
Proof. unfold phase_row. by bits. Qed.

Lemma lookup_hadamard_row q k :
  q < n ->
  hadamard_row n q row !!! k =
    if decide (k = q) then row !!! (n + q)
    else if decide (k = n + q) then row !!! q
    else if decide (k = 2 * n)
         then xorb (row !!! (2 * n)) (row !!! q && row !!! (n + q))
         else row !!! k.
Proof.
  intros Hq. unfold hadamard_row, r_col.
  repeat case_decide; subst; bits; bool_cases.
Qed.

Lemma lookup_phase_row q k :
  q < n ->
  phase_row n q row !!! k =
    if decide (k = n + q) then xorb (row !!! (n + q)) (row !!! q)
    else if decide (k = 2 * n)
         then xorb (row !!! (2 * n)) (row !!! q && row !!! (n + q))
         else row !!! k.
Proof.
  intros Hq. unfold phase_row, r_col.
  repeat case_decide; subst; bits; bool_cases.
Qed.

Lemma lookup_cnot_row c t k :
  c < n -> t < n -> c <> t ->
  cnot_row n c t row !!! k =
    if decide (k = t) then xorb (row !!! t) (row !!! c)
    else if decide (k = n + c) then xorb (row !!! (n + c)) (row !!! (n + t))
    else if decide (k = 2 * n)
         then xorb (row !!! (2 * n))
                   (row !!! c && row !!! (n + t)
                    && xorb (xorb (row !!! t) (row !!! (n + c))) true)
         else row !!! k.
Proof.
  intros Hc Ht Hne. unfold cnot_row, r_col.
  repeat case_decide; subst; bits; bool_cases.
Qed.
End gate_rows.

Create HintDb rowlen.
#[local] Hint Resolve length_cnot_row length_hadamard_row length_phase_row : rowlen.

(** Two Hadamards, four phase gates and two CNOTs restore every row. *)
Lemma hadamard_row_twice n q row :
  length row = 2 * n + 1 -> q < n ->
  hadamard_row n q (hadamard_row n q row) = row.
Proof.
  intros Hlen Hq. apply rows_eq.
  - rewrite Hlen. eauto 6 with rowlen.
  - intros k _.
    rewrite !lookup_hadamard_row by eauto 6 with rowlen.
    repeat case_decide; try lia; subst; bool_cases.
Qed.

Lemma phase_row_four n q row :
  length row = 2 * n + 1 -> q < n ->
  phase_row n q (phase_row n q (phase_row n q (phase_row n q row))) = row.
Proof.
  intros Hlen Hq. apply rows_eq.
  - rewrite Hlen. eauto 6 with rowlen.
  - intros k _.
    rewrite !lookup_phase_row by eauto 6 with rowlen.
    repeat case_decide; try lia; subst; bool_cases.
Qed.

Lemma cnot_row_twice n c t row :
  length row = 2 * n + 1 -> c < n -> t < n -> c <> t ->
  cnot_row n c t (cnot_row n c t row) = row.
Proof.
  intros Hlen Hc Ht Hne. apply rows_eq.
  - rewrite Hlen. eauto 6 with rowlen.
  - intros k _.
    rewrite !lookup_cnot_row by eauto 6 with rowlen.
    repeat case_decide; try lia; subst; bool_cases.
Qed.

(** ** Parity sums and the symplectic product *)

Lemma xsum_ext m f g :
  (forall j, j < m -> f j = g j) -> xsum m f = xsum m g.
Proof.
  induction m as [|m IH]; intros H; simpl; [done|].
  rewrite IH by (intros; apply H; lia). by rewrite H by lia.
Qed.

Lemma xsum_false m : xsum m (fun _ => false) = false.
Proof. induction m as [|m IH]; simpl; [done|]. by rewrite IH. Qed.

Lemma xsum_xorb m f g :
  xsum m (fun j => xorb (f j) (g j)) = xorb (xsum m f) (xsum m g).
Proof.
  induction m as [|m IH]; simpl; [done|]. rewrite IH.
  by destruct (xsum m f), (xsum m g), (f m), (g m).
Qed.

Lemma xsum_single m a v :
  a < m -> xsum m (fun j => if decide (j = a) then v else false) = v.
Proof.
  induction m as [|m IH]; intros Ha; simpl; [lia|].
  destruct (decide (m = a)) as [->|Hne].
  - rewrite (xsum_ext _ _ (fun _ => false)), xsum_false; [done|].
    intros j Hj. case_decide; [lia|done].
  - rewrite IH by lia. by destruct v.
Qed.

Lemma xsum_split m a f :
  a < m ->
  xsum m f = xorb (f a) (xsum m (fun j => if decide (j = a) then false else f j)).
Proof.
  intros Ha. rewrite <- (xsum_single m a (f a)) at 1 by done.
  rewrite <- xsum_xorb. apply xsum_ext. intros j _.
  case_decide; subst; by destruct (f _).
Qed.

(** Two summands may change as long as their joint parity does not. *)
Lemma xsum_two m a b f g :
  a < m -> b < m -> a <> b ->
  (forall j, j < m -> j <> a -> j <> b -> f j = g j) ->
  xorb (f a) (f b) = xorb (g a) (g b) ->
  xsum m f = xsum m g.
Proof.
  intros Ha Hb Hne Hrest Hab.
  rewrite (xsum_split m a f), (xsum_split m a g) by done.
  rewrite (xsum_split m b (fun j => if decide (j = a) then _ else f j)),
    (xsum_split m b (fun j => if decide (j = a) then _ else g j)) by done.
  rewrite !decide_False by done.
  rewrite <- !xorb_assoc, Hab. f_equal.
  apply xsum_ext. intros j Hj. repeat case_decide; try done. by apply Hrest.
Qed.

Section anticommute.
Context (n : nat).

Lemma anticommute_ext r1 r1' r2 r2' :
  (forall j, j < 2 * n -> r1 !!! j = r1' !!! j) ->
  (forall j, j < 2 * n -> r2 !!! j = r2' !!! j) ->
  anticommute n r1 r2 = anticommute n r1' r2'.
Proof.
  intros H1 H2. apply xsum_ext. intros j Hj.
  by rewrite !H1, !H2 by lia.
Qed.

Lemma anticommute_sym r1 r2 : anticommute n r1 r2 = anticommute n r2 r1.
Proof. apply xsum_ext. intros j _. bool_cases. Qed.

Lemma anticommute_self r : anticommute n r r = false.
Proof.
  unfold anticommute. rewrite <- (xsum_false n). apply xsum_ext.
  intros j _. bool_cases.
Qed.

Lemma anticommute_xor_l r r1 r2 r3 :
  (forall j, j < 2 * n -> r !!! j = xorb (r1 !!! j) (r2 !!! j)) ->
  anticommute n r r3 = xorb (anticommute n r1 r3) (anticommute n r2 r3).
Proof.
  intros H. unfold anticommute. rewrite <- xsum_xorb. apply xsum_ext.
  intros j Hj. rewrite !H by lia. bool_cases.
Qed.

Lemma anticommute_xor_r r r1 r2 r3 :
  (forall j, j < 2 * n -> r !!! j = xorb (r1 !!! j) (r2 !!! j)) ->
  anticommute n r3 r = xorb (anticommute n r3 r1) (anticommute n r3 r2).
Proof.
  intros H. rewrite !(anticommute_sym r3). by apply anticommute_xor_l.
Qed.

Lemma anticommute_zero_l r r2 :
  (forall j, j < 2 * n -> r !!! j = false) -> anticommute n r r2 = false.
Proof.
  intros H. unfold anticommute. rewrite <- (xsum_false n). apply xsum_ext.
  intros j Hj. by rewrite !H by lia.
Qed.

(** A row whose only Pauli is a Z on qubit [a] anticommutes exactly with
    the rows that have an X component on [a]. *)
Lemma anticommute_z_r r rz a :
  a < n ->
  (forall j, j < 2 * n -> rz !!! j = bool_decide (j = n + a)) ->
  anticommute n r rz = r !!! a.
Proof.
  intros Ha H. unfold anticommute.
  rewrite <- (xsum_single n a (r !!! a)) by done.
  apply xsum_ext. intros j Hj. rewrite !H by lia.
  rewrite (bool_decide_ext (n + j = n + a) (j = a)) by lia.
  rewrite (bool_decide_eq_false_2 (j = n + a)) by lia.
  case_decide; subst.
  - rewrite bool_decide_eq_true_2 by done. bool_cases.
  - rewrite bool_decide_eq_false_2 by done. bool_cases.
Qed.

Lemma anticommute_hadamard q r1 r2 :
  length r1 = 2 * n + 1 -> length r2 = 2 * n + 1 -> q < n ->
  anticommute n (hadamard_row n q r1) (hadamard_row n q r2)
  = anticommute n r1 r2.
Proof.
  intros H1 H2 Hq. apply xsum_ext. intros j Hj.
  rewrite !lookup_hadamard_row by done.
  destruct (decide (j = q)) as [->|?]; decide_lia; bool_cases.
Qed.

Lemma anticommute_phase q r1 r2 :
  length r1 = 2 * n + 1 -> length r2 = 2 * n + 1 -> q < n ->
  anticommute n (phase_row n q r1) (phase_row n q r2)
  = anticommute n r1 r2.
Proof.
  intros H1 H2 Hq. apply xsum_ext. intros j Hj.
  rewrite !lookup_phase_row by done.
  destruct (decide (j = q)) as [->|?]; decide_lia; bool_cases.
Qed.

Lemma anticommute_cnot c t r1 r2 :
  length r1 = 2 * n + 1 -> length r2 = 2 * n + 1 ->
  c < n -> t < n -> c <> t ->
  anticommute n (cnot_row n c t r1) (cnot_row n c t r2)
  = anticommute n r1 r2.
Proof.
  intros H1 H2 Hc Ht Hne. apply (xsum_two n c t); try done.
  - intros j Hj Hjc Hjt. rewrite !lookup_cnot_row by done.
    by decide_lia.
  - rewrite !lookup_cnot_row by done. decide_lia. bool_cases.
Qed.
End anticommute.

(** The parity tested by the assertion of [_row_product_sign] is the
    symplectic product of the two rows. *)
Lemma pauli_product_phase_odd x1 z1 x2 z2 :
  Z.odd (pauli_product_phase x1 z1 x2 z2) = xorb (x1 && z2) (z1 && x2).
Proof. by destruct x1, z1, x2, z2. Qed.

Lemma fold_add_odd (F : nat -> Z) (f : nat -> bool) m :
  (forall j, Z.odd (F j) = f j) ->
  Z.odd (fold_left (fun (acc : Z) (j : nat) => Z.add acc (F j)) (seq 0 m) 0%Z)
  = xsum m f.
Proof.
  intros HF. induction m as [|m IH]; [done|].
  rewrite seq_S, fold_left_app. simpl.
  by rewrite Z.odd_add, IH, HF.
Qed.

Lemma phase_sum_odd n ri rk : Z.odd (phase_sum n ri rk) = anticommute n ri rk.
Proof.
  unfold phase_sum, anticommute.
  apply (fold_add_odd
           (fun j => pauli_product_phase (ri !!! j) (ri !!! (n + j))
                                         (rk !!! j) (rk !!! (n + j)))).
  intros j. apply pauli_product_phase_odd.
Qed.

Lemma land_1_even z : (Z.land z 1 =? 0)%Z = negb (Z.odd z).
Proof.
  change 1%Z with (Z.ones 1). rewrite Z.land_ones by lia.
  change (2 ^ 1)%Z with 2%Z. rewrite Zmod_odd.
  by destruct (Z.odd z).
Qed.

(** ** Row multiplication *)

Lemma alter_as_insert {A} `{Inhabited A} (f : A -> A) i (l : list A) :
  i < length l -> alter f i l = <[i := f (l !!! i)]> l.
Proof.
  intros Hi. apply list_eq. intros j.
  destruct (decide (i = j)) as [<-|Hne].
  - rewrite list_lookup_alter_eq, list_lookup_insert_eq by done.
    by rewrite (list_lookup_lookup_total_lt l i) by done.
  - by rewrite list_lookup_alter_ne, list_lookup_insert_ne by done.
Qed.

Lemma length_row_slice_ixor o w v (row : list bool) :
  o + w <= length row -> length v = w ->
  length (row_slice_ixor o w v row) = length row.
Proof.
  intros Hrow Hv. unfold row_slice_ixor.
  rewrite !length_app, length_zip_with, !length_take, !length_drop. lia.
Qed.

Lemma lookup_row_slice_ixor o w v (row : list bool) j :
  o + w <= length row -> length v = w ->
  row_slice_ixor o w v row !!! j =
    if decide (o <= j < o + w) then xorb (row !!! j) (v !!! (j - o))
    else row !!! j.
Proof.
  intros Hrow Hv. unfold row_slice_ixor.
  destruct (decide (j < o)) as [Hlt|Hge].
  - rewrite lookup_total_app_l by (rewrite length_take; lia).
    rewrite lookup_total_take_lt by done. by rewrite decide_False by lia.
  - rewrite lookup_total_app_r by (rewrite length_take; lia).
    rewrite length_take, Nat.min_l by lia.
    destruct (decide (j < o + w)) as [Hin|Hout].
    + rewrite lookup_total_app_l
        by (rewrite length_zip_with, length_take, length_drop; lia).
      rewrite (lookup_total_zip_with (A:=bool) (B:=bool) (C:=bool) xorb)
        by (rewrite ?length_take, ?length_drop; lia).
      rewrite lookup_total_take_lt, lookup_total_drop by lia.
      rewrite decide_True by lia. do 2 f_equal. lia.
    + rewrite lookup_total_app_r
        by (rewrite length_zip_with, length_take, length_drop; lia).
      rewrite length_zip_with, length_take, length_drop, lookup_total_drop.
      rewrite decide_False by lia. f_equal. lia.
Qed.

Lemma length_take_drop {A} (l : list A) o w :
  o + w <= length l -> length (take w (drop o l)) = w.
Proof. intros. rewrite length_take, length_drop. lia. Qed.

Section row_product.
Context (n : nat) (ri rk : list bool).
Context (Hi : length ri = 2 * n + 1) (Hk : length rk = 2 * n + 1).

Let inner := row_slice_ixor 0 n (take n (drop 0 rk))
               (<[r_col n := product_sign n ri rk]> ri).

Lemma length_row_product_inner : length inner = 2 * n + 1.
Proof.
  unfold inner. rewrite length_row_slice_ixor.
  - by rewrite length_insert.
  - rewrite length_insert. lia.
  - apply length_take_drop. lia.
Qed.

Lemma length_row_product : length (row_product n ri rk) = 2 * n + 1.
Proof.
  unfold row_product. fold inner.
  rewrite length_row_slice_ixor.
  - apply length_row_product_inner.
  - rewrite length_row_product_inner. lia.
  - apply length_take_drop. lia.
Qed.

Lemma lookup_row_product j :
  j < 2 * n + 1 ->
  row_product n ri rk !!! j =
    if decide (j < 2 * n) then xorb (ri !!! j) (rk !!! j)
    else product_sign n ri rk.
Proof.
  intros Hj. unfold row_product. fold inner.
  rewrite lookup_row_slice_ixor;
    [|rewrite length_row_product_inner; lia|apply length_take_drop; lia].
  unfold inner.
  rewrite lookup_row_slice_ixor;
    [|rewrite length_insert; lia|apply length_take_drop; lia].
  unfold r_col. simpl drop.
  destruct (decide (j < n)) as [Hlt|Hge].
  - rewrite decide_False, decide_True, decide_True by lia.
    rewrite list_lookup_total_insert_ne by lia.
    rewrite lookup_total_take_lt by lia. do 2 f_equal. lia.
  - destruct (decide (j < 2 * n)) as [Hlt|Hlast].
    + rewrite decide_True, decide_False by lia.
      rewrite list_lookup_total_insert_ne by lia.
      rewrite lookup_total_take_lt, lookup_total_drop by lia.
      do 2 f_equal. lia.
    + rewrite decide_False, decide_False by lia.
      replace j with (2 * n) by lia.
      by rewrite list_lookup_total_insert_eq by lia.
Qed.
End row_product.

#[local] Hint Resolve length_row_product : rowlen.

Section row_mult_run.
Context (n : nat) (t : list (list bool)) (i k : Z) (i' k' : nat).
Context (Hi : np_index (2 * n + 1) i = Ok i').
Context (Hk : np_index (2 * n + 1) k = Ok k').
Local Abbreviation s := (mkSim n t).

Lemma sum_phases_run js acc :
  Forall (fun j => j < n) js ->
  sum_phases (map Z.of_nat js) acc i k s
  = (Ok (fold_left
           (fun (acc : Z) (j : nat) =>
              Z.add acc (pauli_product_phase
                           ((t !!! i') !!! j) ((t !!! i') !!! (n + j))
                           ((t !!! k') !!! j) ((t !!! k') !!! (n + j))))
           js acc), s).
Proof.
  intros Hjs. revert acc. induction Hjs as [|j js Hj _ IH]; intros acc.
  - done.
  - simpl. unfold x_get, z_get.
    pose proof (np_index_nat n j Hj) as Hj'.
    repeat run_with view_get_run.
    by rewrite IH.
Qed.

Lemma _row_product_sign_run :
  _row_product_sign i k s
  = (if anticommute n (t !!! i') (t !!! k') then Raise AssertionError
     else Ok (product_sign n (t !!! i') (t !!! k')), s).
Proof.
  unfold _row_product_sign, range.
  rewrite (bind_Ok get_n _ s n s) by done.
  erewrite bind_Ok by (apply sum_phases_run, Forall_forall;
                       intros j Hj%elem_of_seq; lia).
  fold (phase_sum n (t !!! i') (t !!! k')).
  rewrite land_1_even, phase_sum_odd.
  destruct (anticommute _ _ _); [done|]. simpl assert.
  rewrite (bind_Ok (ret tt) _ s tt s) by done.
  repeat run_with r_get_run. done.
Qed.

Lemma _row_mult_run :
  i' <> k' -> length t = 2 * n + 1 ->
  anticommute n (t !!! i') (t !!! k') = false ->
  _row_mult i k s
  = (Ok tt, mkSim n (<[i' := row_product n (t !!! i') (t !!! k')]> t)).
Proof.
  intros Hne Hlen Hcomm. unfold _row_mult, x_row, z_row, x_row_ixor, z_row_ixor.
  erewrite bind_Ok by (rewrite _row_product_sign_run, Hcomm; done).
  run_with r_set_run. run_with view_row_run. run_with view_row_ixor_run.
  run_with view_row_run. run_with view_row_ixor_run.
  do 2 f_equal. pose proof (np_index_lt _ _ _ Hi).
  rewrite !list_lookup_total_alter_ne by done.
  rewrite !list_alter_alter_eq, alter_as_insert by lia.
  done.
Qed.

Lemma _row_mult_raise :
  anticommute n (t !!! i') (t !!! k') = true ->
  _row_mult i k s = (Raise AssertionError, s).
Proof.
  intros Hanti. unfold _row_mult.
  erewrite bind_Raise by (rewrite _row_product_sign_run, Hanti; done). done.
Qed.
End row_mult_run.

(** ** Loops over [range] *)

Lemma for_seq_run n (body : Z -> M unit) (T : nat -> list (list bool)) a len :
  (forall k, a <= k < a + len ->
     body (Z.of_nat k) (mkSim n (T k)) = (Ok tt, mkSim n (T (S k)))) ->
  for_ (map Z.of_nat (seq a len)) body (mkSim n (T a))
  = (Ok tt, mkSim n (T (a + len))).
Proof.
  revert a. induction len as [|len IH]; intros a Hbody; simpl.
  - by rewrite Nat.add_0_r.
  - erewrite bind_Ok by (apply Hbody; lia).
    rewrite IH by (intros; apply Hbody; lia). do 3 f_equal. lia.
Qed.

Lemma for_range_run n (body : Z -> M unit) (T : nat -> list (list bool)) m :
  (forall k, k < m ->
     body (Z.of_nat k) (mkSim n (T k)) = (Ok tt, mkSim n (T (S k)))) ->
  for_ (range m) body (mkSim n (T 0)) = (Ok tt, mkSim n (T m)).
Proof. intros H. apply (for_seq_run n body T 0 m). intros. apply H. lia. Qed.

(** A search through [0 .. m) either fails everywhere or has a first hit. *)
Lemma first_hit (f : nat -> bool) m :
  (forall p, p < m -> f p = false) \/
  (exists p, p < m /\ f p = true /\ forall p0, p0 < p -> f p0 = false).
Proof.
  induction m as [|m [IH|(p & Hp & Hfp & Hmin)]].
  - left. lia.
  - destruct (f m) eqn:Hfm.
    + right. exists m. eauto.
    + left. intros p Hp. destruct (decide (p = m)) as [->|]; [done|].
      apply IH. lia.
  - right. exists p. split; [lia|done].
Qed.

Lemma lookup_total_imap {A B} `{Inhabited A, Inhabited B}
    (f : nat -> A -> B) (l : list A) i :
  i < length l -> imap f l !!! i = f i (l !!! i).
Proof.
  intros Hi. rewrite !list_lookup_total_alt, list_lookup_imap.
  destruct (lookup_lt_is_Some_2 l i Hi) as [x ->]. done.
Qed.

Lemma np_index_add len (p q : nat) :
  p + q < len -> np_index len (Z.of_nat p + Z.of_nat q) = Ok (p + q).
Proof. intros. rewrite <- Nat2Z.inj_add. by apply np_index_nat. Qed.

(** ** The update loop of [_measure_random] *)

Section random_loop.
Context (n a p : nat) (t : list (list bool)).
Context (Hlen : length t = 2 * n + 1).

Lemma length_random_upto k : length (random_upto n a p k t) = 2 * n + 1.
Proof. unfold random_upto. by rewrite length_imap. Qed.

Lemma lookup_random_upto k i :
  i < 2 * n + 1 ->
  random_upto n a p k t !!! i =
    if bool_decide (i < k) && random_hits n a p i (t !!! i)
    then row_product n (t !!! i) (t !!! p) else t !!! i.
Proof.
  intros Hi. unfold random_upto. by rewrite lookup_total_imap by lia.
Qed.

Lemma random_upto_0 : random_upto n a p 0 t = t.
Proof.
  apply list_eq. intros i. unfold random_upto. rewrite list_lookup_imap.
  rewrite bool_decide_eq_false_2 by lia. by destruct (t !! i).
Qed.

Lemma random_upto_S k :
  k < 2 * n + 1 ->
  random_upto n a p (S k) t =
    if random_hits n a p k (t !!! k)
    then <[k := row_product n (t !!! k) (t !!! p)]> (random_upto n a p k t)
    else random_upto n a p k t.
Proof.
  intros Hk. apply list_eq. intros i.
  assert (t !! k = Some (t !!! k)) as Hrow
    by (apply list_lookup_lookup_total_lt; lia).
  destruct (random_hits n a p k (t !!! k)) eqn:Hhit.
  - destruct (decide (k = i)) as [<-|Hne].
    + rewrite list_lookup_insert_eq by (rewrite length_random_upto; lia).
      unfold random_upto. rewrite list_lookup_imap, Hrow. simpl.
      by rewrite bool_decide_eq_true_2, Hhit by lia.
    + rewrite list_lookup_insert_ne by done.
      unfold random_upto. rewrite !list_lookup_imap.
      by rewrite (bool_decide_ext (i < S k) (i < k)) by lia.
  - unfold random_upto. rewrite !list_lookup_imap.
    destruct (decide (k = i)) as [<-|Hne].
    + rewrite Hrow. simpl. rewrite Hhit. by rewrite !andb_false_r.
    + by rewrite (bool_decide_ext (i < S k) (i < k)) by lia.
Qed.

(** One iteration: the test reads row [k] as it was before the loop, and
    a hit multiplies the untouched row [p] into it. *)
Lemma random_step_test (qa : Z) k :
  np_index n qa = Ok a -> k < 2 * n ->
  (xi <- x_get (Z.of_nat k) qa ;;
   ret (xi && negb (Z.of_nat k =? Z.of_nat p)%Z
           && negb (Z.of_nat k =? Z.of_nat p + Z.of_nat n)%Z))
    (mkSim n (random_upto n a p k t))
  = (Ok (random_hits n a p k (t !!! k)), mkSim n (random_upto n a p k t)).
Proof.
  intros Ha Hk. unfold x_get.
  erewrite bind_Ok
    by (apply view_get_run; [apply np_index_nat; lia|apply Ha]).
  unfold cell, x_off, ret. rewrite Nat.add_0_l.
  rewrite lookup_random_upto by lia.
  rewrite bool_decide_eq_false_2 by lia. rewrite andb_false_l.
  rewrite <- Nat2Z.inj_add.
  replace (Z.of_nat k =? Z.of_nat p)%Z with (k =? p)
    by (destruct (Nat.eqb_spec k p), (Z.eqb_spec (Z.of_nat k) (Z.of_nat p));
        (done || lia)).
  replace (Z.of_nat k =? Z.of_nat (p + n))%Z with (k =? p + n)
    by (destruct (Nat.eqb_spec k (p + n)),
          (Z.eqb_spec (Z.of_nat k) (Z.of_nat (p + n))); (done || lia)).
  done.
Qed.

Lemma random_step_mult k :
  p < n -> k < 2 * n ->
  random_hits n a p k (t !!! k) = true ->
  anticommute n (t !!! k) (t !!! p) = false ->
  _row_mult (Z.of_nat k) (Z.of_nat p) (mkSim n (random_upto n a p k t))
  = (Ok tt, mkSim n (random_upto n a p (S k) t)).
Proof.
  intros Hp Hk Hhit Hcomm. rewrite random_upto_S, Hhit by lia.
  assert (k <> p) as Hkp.
  { unfold random_hits in Hhit. destruct (Nat.eqb_spec k p); [|done].
    by rewrite andb_false_r in Hhit. }
  assert (random_hits n a p p (t !!! p) = false) as Hpp
    by (unfold random_hits; by rewrite Nat.eqb_refl, andb_false_r).
  erewrite (_row_mult_run n _ _ _ k p);
    [|apply np_index_nat; lia|apply np_index_nat; lia|done
     |apply length_random_upto|].
  - rewrite !lookup_random_upto by lia.
    rewrite bool_decide_eq_false_2 by lia. rewrite andb_false_l.
    by rewrite Hpp, andb_false_r.
  - rewrite !lookup_random_upto by lia.
    rewrite bool_decide_eq_false_2 by lia. rewrite andb_false_l.
    by rewrite Hpp, andb_false_r.
Qed.

Lemma random_step_skip k :
  k < 2 * n -> random_hits n a p k (t !!! k) = false ->
  random_upto n a p (S k) t = random_upto n a p k t.
Proof. intros Hk Hhit. by rewrite random_upto_S, Hhit by lia. Qed.

Lemma random_loop_run (qa pz nz : Z) :
  np_index n qa = Ok a -> pz = Z.of_nat p -> nz = Z.of_nat n -> p < n ->
  (forall k, k < 2 * n -> random_hits n a p k (t !!! k) = true ->
     anticommute n (t !!! k) (t !!! p) = false) ->
  for_ (range (2 * n))
       (fun i =>
          xi <- x_get i qa ;;
          if xi && negb (i =? pz)%Z && negb (i =? pz + nz)%Z
          then _row_mult i pz
          else ret tt) (mkSim n t)
  = (Ok tt, mkSim n (random_upto n a p (2 * n) t)).
Proof.
  intros Ha -> -> Hp Hcomm.
  rewrite <- random_upto_0 at 1.
  apply (for_range_run n _ (fun k => random_upto n a p k t)).
  intros k Hk.
  pose proof (random_step_test qa k Ha Hk) as Htest.
  unfold bind, ret in Htest |- *.
  destruct (x_get (Z.of_nat k) qa _) as [[xi|e] st]; [|done].
  injection Htest as -> ->.
  destruct (random_hits n a p k (t !!! k)) eqn:Hhit.
  - apply random_step_mult; auto.
  - by rewrite random_step_skip.
Qed.
End random_loop.

(** ** The two branches of [measure] *)

Section measure_run.
Context (n : nat) (t : list (list bool)) (a : Z) (a' : nat).
Context (Ha : np_index n a = Ok a').
Context (Hlen : length t = 2 * n + 1).
Local Abbreviation s := (mkSim n t).

Lemma random_start_eq p b :
  p < n ->
  alter (fun row => <[r_col n := b]> row) (p + n)
    (alter (fun row => <[z_off n + a' := true]> row) (p + n)
       (<[p + n := replicate (2 * n + 1) false]> (<[p := t !!! (p + n)]> t)))
  = random_start n a' p b t.
Proof.
  intros Hp. rewrite list_alter_alter_eq.
  rewrite alter_as_insert by (rewrite !length_insert; lia).
  rewrite list_lookup_total_insert_eq by (rewrite !length_insert; lia).
  by rewrite list_insert_insert_eq.
Qed.

Lemma length_random_start p b :
  length (random_start n a' p b t) = 2 * n + 1.
Proof. unfold random_start. by rewrite !length_insert. Qed.

Lemma lookup_random_start p b i :
  p < n -> i < 2 * n + 1 ->
  random_start n a' p b t !!! i =
    if decide (i = p + n) then z_observable n a' b
    else if decide (i = p) then t !!! (p + n) else t !!! i.
Proof.
  intros Hp Hi. unfold random_start.
  repeat case_decide; subst;
    repeat first
      [ rewrite list_lookup_total_insert_eq by (rewrite ?length_insert; lia)
      | rewrite list_lookup_total_insert_ne by lia ];
    done.
Qed.

Lemma _measure_random_run p bias u :
  p < n ->
  cell t (p + n) a' = true ->
  (forall k, k < 2 * n ->
     random_hits n a' p k (random_start n a' p (draw_lt u bias) t !!! k) = true ->
     anticommute n (random_start n a' p (draw_lt u bias) t !!! k)
                   (random_start n a' p (draw_lt u bias) t !!! p) = false) ->
  _measure_random a (Z.of_nat p) bias u s
  = (Ok (mkResult (draw_lt u bias) false),
     mkSim n (random_table n a' p (draw_lt u bias) t)).
Proof.
  intros Hp Hx Hcomm. unfold _measure_random, x_get, z_set.
  rewrite (bind_Ok get_n _ s n s) by done.
  assert (np_index (2 * n + 1) (Z.of_nat p + Z.of_nat n) = Ok (p + n)) as Hpn
    by (apply np_index_add; lia).
  assert (np_index (2 * n + 1) (Z.of_nat p) = Ok p) as Hp'
    by (apply np_index_nat; lia).
  run_with view_get_run. unfold x_off. rewrite Nat.add_0_l, Hx.
  rewrite (bind_Ok (assert true) _ s tt s) by done.
  run_with table_row_run. run_with table_row_set_run.
  run_with table_row_zero_run. run_with view_set_run. run_with r_set_run.
  rewrite random_start_eq by done.
  erewrite bind_Ok
    by (apply random_loop_run;
        [apply length_random_start|done..]).
  fold (random_table n a' p (draw_lt u bias) t).
  run_with r_get_run. unfold ret. do 2 f_equal.
  unfold cell, random_table.
  rewrite lookup_random_upto by (apply length_random_start || lia).
  replace (random_hits n a' p (p + n) _) with false
    by (unfold random_hits; by rewrite Nat.eqb_refl, andb_false_r).
  rewrite andb_false_r, lookup_random_start by lia.
  rewrite decide_True by done. unfold z_observable, r_col.
  by rewrite list_lookup_total_insert_eq
    by (rewrite length_insert, length_replicate; lia).
Qed.

Lemma determined_scratch_S k :
  determined_scratch n a' (S k) t
  = determined_step n a' t (determined_scratch n a' k t) k.
Proof. unfold determined_scratch. by rewrite seq_S, fold_left_app. Qed.

Lemma _measure_determined_run :
  (forall k, k < n -> cell t k a' = true ->
     anticommute n (determined_scratch n a' k t) (t !!! (k + n)) = false) ->
  _measure_determined a s
  = (Ok (mkResult (determined_scratch n a' n t !!! (2 * n)) true),
     mkSim n (determined_table n a' t)).
Proof.
  intros Hcomm. unfold _measure_determined, x_get.
  rewrite (bind_Ok get_n _ s n s) by done.
  pose proof (np_index_last (2 * n)) as Hlast.
  run_with table_row_zero_run.
  erewrite bind_Ok.
  2:{ apply (for_range_run n _
               (fun k => <[2 * n := determined_scratch n a' k t]> t)).
      intros k Hk.
      erewrite bind_Ok
        by (apply view_get_run; [apply np_index_nat; lia|apply Ha]).
      unfold cell, x_off. rewrite Nat.add_0_l.
      rewrite list_lookup_total_insert_ne by lia.
      rewrite determined_scratch_S. unfold determined_step, cell.
      destruct ((t !!! k) !!! a') eqn:Hx; [|done].
      erewrite (_row_mult_run n _ _ _ (2 * n) (k + n));
        [|done|apply np_index_add; lia|lia|by rewrite length_insert|].
      - rewrite list_lookup_total_insert_eq, list_lookup_total_insert_ne by lia.
        by rewrite list_insert_insert_eq.
      - rewrite list_lookup_total_insert_eq, list_lookup_total_insert_ne by lia.
        by apply Hcomm. }
  fold (determined_table n a' t).
  run_with r_get_run. unfold ret, cell, determined_table, r_col.
  by rewrite list_lookup_total_insert_eq by lia.
Qed.

Lemma measure_loop_miss lo len bias u :
  lo + len <= n ->
  (forall p, lo <= p < lo + len -> cell t (p + n) a' = false) ->
  measure_loop (map Z.of_nat (seq lo len)) a bias u s
  = _measure_determined a s.
Proof.
  revert lo. induction len as [|len IH]; intros lo Hle Hmiss; [done|].
  simpl. rewrite (bind_Ok get_n _ s n s) by done. unfold x_get.
  erewrite bind_Ok
    by (apply view_get_run; [apply np_index_add; lia|apply Ha]).
  unfold x_off. rewrite Nat.add_0_l, Hmiss by lia.
  apply IH; [lia|]. intros p Hp. apply Hmiss. lia.
Qed.

Lemma measure_loop_hit lo len p bias u :
  lo <= p < lo + len -> lo + len <= n ->
  cell t (p + n) a' = true ->
  (forall p0, lo <= p0 < p -> cell t (p0 + n) a' = false) ->
  measure_loop (map Z.of_nat (seq lo len)) a bias u s
  = _measure_random a (Z.of_nat p) bias u s.
Proof.
  revert lo. induction len as [|len IH]; intros lo Hp Hle Hhit Hmiss; [lia|].
  simpl. rewrite (bind_Ok get_n _ s n s) by done. unfold x_get.
  erewrite bind_Ok
    by (apply view_get_run; [apply np_index_add; lia|apply Ha]).
  unfold x_off. rewrite Nat.add_0_l.
  destruct (decide (lo = p)) as [->|Hne].
  - by rewrite Hhit.
  - rewrite Hmiss by lia. apply IH; [lia|lia|done|].
    intros p0 Hp0. apply Hmiss. lia.
Qed.

(** [measure] takes the random branch at the first stabilizer row with an
    X component on the measured qubit... *)
Lemma measure_hit p bias u :
  p < n -> cell t (p + n) a' = true ->
  (forall p0, p0 < p -> cell t (p0 + n) a' = false) ->
  measure a bias u s = _measure_random a (Z.of_nat p) bias u s.
Proof.
  intros Hp Hhit Hmiss. unfold measure.
  rewrite (bind_Ok get_n _ s n s) by done.
  apply measure_loop_hit; try done; try lia.
  intros p0 Hp0. apply Hmiss. lia.
Qed.

(** ... and the determined branch when there is none. *)
Lemma measure_miss bias u :
  (forall p, p < n -> cell t (p + n) a' = false) ->
  measure a bias u s = _measure_determined a s.
Proof.
  intros Hmiss. unfold measure.
  rewrite (bind_Ok get_n _ s n s) by done.
  apply measure_loop_miss; [lia|]. intros p Hp. apply Hmiss. lia.
Qed.
End measure_run.

(** ** The tableau invariant *)

Lemma wf_table_lookup n t i :
  wf_table n t -> i < 2 * n + 1 -> length (t !!! i) = 2 * n + 1.
Proof.
  intros [Hlen Hrows] Hi.
  apply (Forall_lookup_total_1 _ _ _ Hrows). lia.
Qed.

Lemma wf_table_map n t (f : list bool -> list bool) :
  (forall row, length row = 2 * n + 1 -> length (f row) = 2 * n + 1) ->
  wf_table n t -> wf_table n (map f t).
Proof.
  intros Hf [Hlen Hrows]. split.
  - by rewrite length_map.
  - apply Forall_fmap. eapply Forall_impl; [done|]. intros row. apply Hf.
Qed.

Lemma wf_table_insert n t i row :
  length row = 2 * n + 1 -> wf_table n t -> wf_table n (<[i := row]> t).
Proof.
  intros Hrow [Hlen Hrows]. split.
  - by rewrite length_insert.
  - by apply Forall_insert.
Qed.

Lemma lookup_total_map n t (f : list bool -> list bool) i :
  length t = 2 * n + 1 -> i < 2 * n + 1 -> map f t !!! i = f (t !!! i).
Proof. intros Hlen Hi. apply list_lookup_total_fmap. lia. Qed.

Lemma lookup_eye m i j :
  i < m -> j < m -> (eye m !!! i) !!! j = bool_decide (i = j).
Proof.
  intros Hi Hj. unfold eye.
  rewrite (list_lookup_total_fmap _ (seq 0 m)) by (by rewrite length_seq).
  rewrite (list_lookup_total_fmap _ (seq 0 m)) by (by rewrite length_seq).
  by rewrite !lookup_total_seq_lt by done.
Qed.

Lemma wf_table_eye n : wf_table n (eye (2 * n + 1)).
Proof.
  split.
  - unfold eye. by rewrite length_map, length_seq.
  - unfold eye. apply Forall_fmap, Forall_forall. intros i _. simpl.
    by rewrite length_map, length_seq.
Qed.

Lemma lookup_z_observable n a b j :
  a < n -> j < 2 * n -> z_observable n a b !!! j = bool_decide (j = n + a).
Proof.
  intros Ha Hj. unfold z_observable, r_col.
  rewrite list_lookup_total_insert_ne by lia.
  destruct (decide (j = n + a)) as [->|Hne].
  - rewrite list_lookup_total_insert_eq by (rewrite length_replicate; lia).
    by rewrite bool_decide_eq_true_2.
  - rewrite list_lookup_total_insert_ne by lia.
    rewrite lookup_total_replicate_2 by lia.
    by rewrite bool_decide_eq_false_2.
Qed.

Lemma length_z_observable n a b : length (z_observable n a b) = 2 * n + 1.
Proof. unfold z_observable. by rewrite !length_insert, length_replicate. Qed.

Lemma tableau_inv_init n : tableau_inv (__init__ n).
Proof.
  split; simpl.
  - apply wf_table_eye.
  - intros i j Hi Hj.
    rewrite (anticommute_z_r n _ _ j) by
      (try done; intros k Hk; rewrite lookup_eye by lia;
       apply bool_decide_ext; lia).
    rewrite lookup_eye by lia. apply bool_decide_eq_false_2. lia.
  - intros i j Hi Hj.
    rewrite (anticommute_z_r n _ _ j) by
      (try done; intros k Hk; rewrite lookup_eye by lia;
       apply bool_decide_ext; lia).
    by rewrite lookup_eye by lia.
Qed.

(** A gate that acts row by row through a map preserving the symplectic
    product preserves the invariant. *)
Lemma tableau_inv_map n t (f : list bool -> list bool) :
  (forall row, length row = 2 * n + 1 -> length (f row) = 2 * n + 1) ->
  (forall r1 r2, length r1 = 2 * n + 1 -> length r2 = 2 * n + 1 ->
     anticommute n (f r1) (f r2) = anticommute n r1 r2) ->
  tableau_inv (mkSim n t) -> tableau_inv (mkSim n (map f t)).
Proof.
  intros Hlen Hanti [Hwf Hstab Hdestab]. simpl in *.
  pose proof Hwf as [Ht _].
  split; simpl.
  - by apply wf_table_map.
  - intros i j Hi Hj.
    rewrite !(lookup_total_map n) by (done || lia).
    rewrite Hanti by (apply wf_table_lookup; (done || lia)). by apply Hstab.
  - intros i j Hi Hj.
    rewrite !(lookup_total_map n) by (done || lia).
    rewrite Hanti by (apply wf_table_lookup; (done || lia)). by apply Hdestab.
Qed.

Lemma tableau_inv_cnot n t c tg :
  c < n -> tg < n -> c <> tg ->
  tableau_inv (mkSim n t) -> tableau_inv (mkSim n (map (cnot_row n c tg) t)).
Proof.
  intros. apply tableau_inv_map; [|intros; apply anticommute_cnot|]; try done.
  intros. by apply length_cnot_row.
Qed.

Lemma tableau_inv_hadamard n t q :
  q < n ->
  tableau_inv (mkSim n t) -> tableau_inv (mkSim n (map (hadamard_row n q) t)).
Proof.
  intros. apply tableau_inv_map; [|intros; apply anticommute_hadamard|]; try done.
  intros. by apply length_hadamard_row.
Qed.

Lemma tableau_inv_phase n t q :
  q < n ->
  tableau_inv (mkSim n t) -> tableau_inv (mkSim n (map (phase_row n q) t)).
Proof.
  intros. apply tableau_inv_map; [|intros; apply anticommute_phase|]; try done.
  intros. by apply length_phase_row.
Qed.

(** ** Measurement preserves the invariant *)

Section row_update.
Context (n : nat) (r rs : list bool).
Context (Hr : length r = 2 * n + 1) (Hs : length rs = 2 * n + 1).

Lemma length_row_update (c : bool) :
  length (if c then row_product n r rs else r) = 2 * n + 1.
Proof. destruct c; [by apply length_row_product|done]. Qed.

Lemma lookup_row_update (c : bool) j :
  j < 2 * n ->
  (if c then row_product n r rs else r) !!! j
  = xorb (r !!! j) (c && rs !!! j).
Proof.
  intros Hj. destruct c; simpl.
  - rewrite lookup_row_product by (done || lia). by rewrite decide_True by lia.
  - by rewrite xorb_false_r.
Qed.

Lemma anticommute_row_update_l (c : bool) r2 :
  anticommute n (if c then row_product n r rs else r) r2
  = xorb (anticommute n r r2) (c && anticommute n rs r2).
Proof.
  destruct c; simpl.
  - apply anticommute_xor_l. intros j Hj.
    rewrite lookup_row_product by (done || lia). by rewrite decide_True by lia.
  - by rewrite xorb_false_r.
Qed.

Lemma anticommute_row_update_r (c : bool) r2 :
  anticommute n r2 (if c then row_product n r rs else r)
  = xorb (anticommute n r2 r) (c && anticommute n r2 rs).
Proof.
  rewrite !(anticommute_sym n r2). apply anticommute_row_update_l.
Qed.
End row_update.

Section measure_inv.
Context (n a : nat) (t : list (list bool)).
Context (Ha : a < n) (Hinv : tableau_inv (mkSim n t)).

Local Lemma inv_length : length t = 2 * n + 1.
Proof. by destruct Hinv as [[? _] _ _]. Qed.

Local Lemma inv_row i : i < 2 * n + 1 -> length (t !!! i) = 2 * n + 1.
Proof. destruct Hinv as [? _ _]. by apply wf_table_lookup. Qed.

Local Lemma inv_ss i j :
  i < n -> j < n -> anticommute n (t !!! (n + i)) (t !!! (n + j)) = false.
Proof. destruct Hinv as [_ H _]. apply H. Qed.

Local Lemma inv_ds i j :
  i < n -> j < n ->
  anticommute n (t !!! i) (t !!! (n + j)) = bool_decide (i = j).
Proof. destruct Hinv as [_ _ H]. apply H. Qed.

(** *** Random branch *)
Section random.
Context (p : nat) (b : bool) (Hp : p < n).
Context (Hx : cell t (p + n) a = true).

Lemma random_commutes k :
  k < 2 * n ->
  random_hits n a p k (random_start n a p b t !!! k) = true ->
  anticommute n (random_start n a p b t !!! k)
                (random_start n a p b t !!! p) = false.
Proof.
  intros Hk Hhit. pose proof inv_length as Hlen.
  unfold random_hits in Hhit.
  destruct (Nat.eqb_spec k p) as [|Hkp];
    [by rewrite andb_false_r in Hhit|].
  destruct (Nat.eqb_spec k (p + n)) as [|Hkpn];
    [by rewrite andb_false_r in Hhit|].
  rewrite !lookup_random_start by (done || lia). decide_lia.
  replace (p + n) with (n + p) by lia.
  destruct (decide (k < n)) as [Hlt|Hge].
  - rewrite inv_ds by done. by apply bool_decide_eq_false_2.
  - replace k with (n + (k - n)) by lia. apply inv_ss; lia.
Qed.

Lemma lookup_random_table i :
  i < 2 * n + 1 ->
  random_table n a p b t !!! i =
    if decide (i = p + n) then z_observable n a b
    else if decide (i = p) then t !!! (p + n)
    else if bool_decide (i < 2 * n) && (t !!! i) !!! a
         then row_product n (t !!! i) (t !!! (p + n)) else t !!! i.
Proof.
  intros Hi. pose proof inv_length as Hlen. unfold random_table.
  rewrite lookup_random_upto by (by apply length_random_start || lia).
  rewrite !lookup_random_start by (done || lia).
  unfold random_hits.
  rewrite (decide_False (P := p = p + n)), (decide_True (P := p = p)) by lia.
  destruct (decide (i = p + n)) as [->|Hne1].
  { by rewrite Nat.eqb_refl, !andb_false_r. }
  destruct (decide (i = p)) as [->|Hne2].
  { by rewrite Nat.eqb_refl, !andb_false_r. }
  destruct (Nat.eqb_spec i p); [done|].
  destruct (Nat.eqb_spec i (p + n)); [done|].
  by rewrite !andb_true_r.
Qed.

Lemma random_table_stab j :
  j < n ->
  random_table n a p b t !!! (n + j) =
    if decide (j = p) then z_observable n a b
    else if cell t (n + j) a
         then row_product n (t !!! (n + j)) (t !!! (n + p))
         else t !!! (n + j).
Proof.
  intros Hj. rewrite lookup_random_table by lia.
  replace (p + n) with (n + p) by lia.
  destruct (decide (j = p)) as [->|Hne]; decide_lia; [done|].
  by rewrite bool_decide_eq_true_2 by lia.
Qed.

Lemma random_table_destab i :
  i < n ->
  random_table n a p b t !!! i =
    if decide (i = p) then t !!! (n + p)
    else if cell t i a
         then row_product n (t !!! i) (t !!! (n + p))
         else t !!! i.
Proof.
  intros Hi. rewrite lookup_random_table by lia.
  replace (p + n) with (n + p) by lia.
  destruct (decide (i = p)) as [->|Hne]; decide_lia; [done|].
  by rewrite bool_decide_eq_true_2 by lia.
Qed.

Lemma wf_random_table : wf_table n (random_table n a p b t).
Proof.
  pose proof inv_length as Hlen.
  assert (length (random_table n a p b t) = 2 * n + 1) as Hlen'
    by (by apply length_random_upto, length_random_start).
  split; [done|].
  apply (Forall_lookup_total_2 (A := list bool) _ (Inhabited0 := _)).
  intros i Hi.
  rewrite lookup_random_table by lia.
  repeat case_decide; try apply length_z_observable; try apply inv_row;
    try lia.
  apply length_row_update; apply inv_row; lia.
Qed.

Lemma tableau_inv_random : tableau_inv (mkSim n (random_table n a p b t)).
Proof.
  assert (forall i, i < n -> length (t !!! (n + i)) = 2 * n + 1) as Hls
    by (intros; apply inv_row; lia).
  assert (forall i, i < n -> length (t !!! i) = 2 * n + 1) as Hld
    by (intros; apply inv_row; lia).
  assert ((t !!! (n + p)) !!! a = true) as Hxa
    by (by replace (n + p) with (p + n) by lia).
  pose proof (fun j => lookup_z_observable n a b j Ha) as Hz.
  split; simpl.
  - apply wf_random_table.
  - intros i j Hi Hj. rewrite !random_table_stab by done. unfold cell.
    destruct (decide (i = p)) as [->|Hip], (decide (j = p)) as [->|Hjp].
    + apply anticommute_self.
    + rewrite anticommute_sym, (anticommute_z_r n _ _ a) by done.
      rewrite lookup_row_update by (auto || lia). rewrite Hxa.
      bool_cases.
    + rewrite (anticommute_z_r n _ _ a) by done.
      rewrite lookup_row_update by (auto || lia). rewrite Hxa.
      bool_cases.
    + rewrite anticommute_row_update_l, !anticommute_row_update_r by auto.
      rewrite !inv_ss by done.
      by rewrite !andb_false_r.
  - intros i j Hi Hj. rewrite random_table_destab, random_table_stab by done.
    unfold cell.
    destruct (decide (i = p)) as [->|Hip], (decide (j = p)) as [->|Hjp].
    + rewrite (anticommute_z_r n _ _ a) by done.
      by rewrite Hxa, bool_decide_eq_true_2.
    + rewrite anticommute_row_update_r by auto.
      rewrite !inv_ss by done.
      rewrite andb_false_r. symmetry. apply bool_decide_eq_false_2. lia.
    + rewrite (anticommute_z_r n _ _ a) by done.
      rewrite lookup_row_update by (auto || lia). rewrite Hxa.
      rewrite bool_decide_eq_false_2 by done. bool_cases.
    + rewrite anticommute_row_update_l, !anticommute_row_update_r by auto.
      rewrite !inv_ds, !inv_ss by done.
      rewrite (bool_decide_eq_false_2 (i = p)) by done.
      by rewrite !andb_false_r, !xorb_false_r.
Qed.
End random.

(** *** Determined branch *)

Lemma determined_scratch_commutes k :
  k <= n ->
  length (determined_scratch n a k t) = 2 * n + 1 /\
  forall j, j < n ->
    anticommute n (determined_scratch n a k t) (t !!! (n + j)) = false.
Proof.
  induction k as [|k IH]; intros Hk.
  - split; [apply length_replicate|]. intros j Hj.
    apply anticommute_zero_l. intros i Hi.
    unfold determined_scratch. simpl fold_left.
    by rewrite lookup_total_replicate_2 by lia.
  - destruct IH as [IHlen IH]; [lia|].
    rewrite determined_scratch_S. unfold determined_step. split.
    + apply length_row_update; [done|]. apply inv_row. lia.
    + intros j Hj. rewrite anticommute_row_update_l
        by (done || apply inv_row; lia).
      rewrite IH by done. replace (k + n) with (n + k) by lia.
      rewrite inv_ss by (done || lia). by rewrite andb_false_r.
Qed.

Lemma wf_determined_table : wf_table n (determined_table n a t).
Proof.
  apply wf_table_insert; [|by destruct Hinv].
  by apply determined_scratch_commutes.
Qed.

Lemma tableau_inv_determined : tableau_inv (mkSim n (determined_table n a t)).
Proof.
  split; simpl.
  - apply wf_determined_table.
  - intros i j Hi Hj. unfold determined_table.
    rewrite !list_lookup_total_insert_ne by lia. by apply inv_ss.
  - intros i j Hi Hj. unfold determined_table.
    rewrite !list_lookup_total_insert_ne by lia. by apply inv_ds.
Qed.
End measure_inv.

(** ** Every valid call succeeds on a state that satisfies the invariant *)

Lemma measure_cases n t a a' bias u :
  np_index n a = Ok a' ->
  tableau_inv (mkSim n t) ->
  (exists p,
      p < n /\ cell t (p + n) a' = true /\
      (forall p0, p0 < p -> cell t (p0 + n) a' = false) /\
      measure a bias u (mkSim n t)
      = _measure_random a (Z.of_nat p) bias u (mkSim n t) /\
      _measure_random a (Z.of_nat p) bias u (mkSim n t)
      = (Ok (mkResult (draw_lt u bias) false),
         mkSim n (random_table n a' p (draw_lt u bias) t)))
  \/ ((forall p, p < n -> cell t (p + n) a' = false) /\
      measure a bias u (mkSim n t) = _measure_determined a (mkSim n t) /\
      _measure_determined a (mkSim n t)
      = (Ok (mkResult (determined_scratch n a' n t !!! (2 * n)) true),
         mkSim n (determined_table n a' t))).
Proof.
  intros Ha Hinv. pose proof (np_index_lt _ _ _ Ha) as Ha'.
  pose proof (inv_length n t Hinv) as Hlen.
  destruct (first_hit (fun p => cell t (p + n) a') n)
    as [Hmiss|(p & Hp & Hhit & Hmin)].
  - right. split; [done|]. split; [by eapply measure_miss|].
    eapply _measure_determined_run; try done.
    intros k Hk _. replace (k + n) with (n + k) by lia.
    apply determined_scratch_commutes; (done || lia).
  - left. exists p. split_and!; try done; [by eapply measure_hit|].
    eapply _measure_random_run; try done.
    intros k Hk. by apply random_commutes.
Qed.

Lemma valid_qubit_index n t q :
  valid_qubit (mkSim n t) q ->
  np_index n q = Ok (Z.to_nat q) /\ Z.to_nat q < n.
Proof.
  unfold valid_qubit. simpl. intros Hq. split; [|lia].
  by apply np_index_nonneg.
Qed.

Lemma measure_preserves_inv n t a bias u r s' :
  valid_qubit (mkSim n t) a ->
  tableau_inv (mkSim n t) ->
  measure a bias u (mkSim n t) = (Ok r, s') -> tableau_inv s'.
Proof.
  intros [Ha Ha']%valid_qubit_index Hinv Hm.
  destruct (measure_cases n t a _ bias u Ha Hinv)
    as [(p & Hp & Hhit & _ & Heq & Hrun)|(Hmiss & Heq & Hrun)];
    rewrite Heq, Hrun in Hm; injection Hm as <- <-.
  - by apply tableau_inv_random.
  - by apply tableau_inv_determined.
Qed.

Theorem reachable_inv s : reachable s -> tableau_inv s.
Proof.
  induction 1 as [n|[n t] c tg s' _ IH Hc Ht Hne Hrun
                   |[n t] q s' _ IH Hq Hrun|[n t] q s' _ IH Hq Hrun
                   |[n t] q bias u r s' _ IH Hq _ _ _ _ Hrun].
  - apply tableau_inv_init.
  - assert (Z.to_nat c <> Z.to_nat tg)
      by (unfold valid_qubit in *; simpl in *; lia).
    apply valid_qubit_index in Hc as [Hc Hc'], Ht as [Ht Ht'].
    rewrite (cnot_run _ _ _ _ _ _ Hc Ht) in Hrun. injection Hrun as <-.
    by apply tableau_inv_cnot.
  - apply valid_qubit_index in Hq as [Hq Hq'].
    rewrite (hadamard_run _ _ _ _ Hq) in Hrun. injection Hrun as <-.
    by apply tableau_inv_hadamard.
  - apply valid_qubit_index in Hq as [Hq Hq'].
    rewrite (phase_run _ _ _ _ Hq) in Hrun. injection Hrun as <-.
    by apply tableau_inv_phase.
  - by eapply measure_preserves_inv.
Qed.

Lemma measure_returns s q bias u :
  reachable s -> valid_qubit s q ->
  exists r s', measure q bias u s = (Ok r, s').
Proof.
  intros Hinv%reachable_inv Hq. destruct s as [n t].
  apply valid_qubit_index in Hq as [Hq Hq'].
  destruct (measure_cases n t q _ bias u Hq Hinv)
    as [(p & _ & _ & _ & Heq & Hrun)|(_ & Heq & Hrun)];
    rewrite Heq, Hrun; eauto.
Qed.

(** ** Example states are reachable *)

Lemma reachable_plus_state : reachable plus_state.
Proof.
  eapply (reach_hadamard (__init__ 1) 0); [apply reach_init| |reflexivity].
  unfold valid_qubit. simpl. lia.
Qed.

Lemma reachable_epr_state : reachable epr_state.
Proof.
  eapply (reach_cnot (snd (hadamard 0 (__init__ 2))) 0 1);
    [eapply (reach_hadamard (__init__ 2) 0);
       [apply reach_init| |reflexivity]
    | | | |reflexivity];
    unfold valid_qubit; simpl; lia.
Qed.

(** Gates on valid qubits keep a state reachable. *)
Lemma reachable_after_hadamard s q :
  reachable s -> valid_qubit s q -> reachable (snd (hadamard q s)).
Proof.
  intros Hs Hq. apply (reach_hadamard s q); [done..|].
  destruct s as [n t]. apply valid_qubit_index in Hq as [Hq _].
  by rewrite (hadamard_run _ _ _ _ Hq).
Qed.

Lemma reachable_after_phase s q :
  reachable s -> valid_qubit s q -> reachable (snd (phase q s)).
Proof.
  intros Hs Hq. apply (reach_phase s q); [done..|].
  destruct s as [n t]. apply valid_qubit_index in Hq as [Hq _].
  by rewrite (phase_run _ _ _ _ Hq).
Qed.

Lemma reachable_after_cnot s c t :
  reachable s -> valid_qubit s c -> valid_qubit s t -> c <> t ->
  reachable (snd (cnot c t s)).
Proof.
  intros Hs Hc Ht Hne. apply (reach_cnot s c t); [done..|].
  destruct s as [n tb]. apply valid_qubit_index in Hc as [Hc _], Ht as [Ht _].
  by rewrite (cnot_run _ _ _ _ _ _ Hc Ht).
Qed.

(** Reachability of a state written as nested gate applications. *)
Ltac reach_gates :=
  lazymatch goal with
  | |- reachable (__init__ _) => apply reach_init
  | |- reachable (snd (hadamard _ _)) =>
      apply reachable_after_hadamard; [reach_gates|]
  | |- reachable (snd (phase _ _)) =>
      apply reachable_after_phase; [reach_gates|]
  | |- reachable (snd (cnot _ _ _)) =>
      apply reachable_after_cnot; [reach_gates| | |]
  end.

Lemma valid_qubit_0 s : 1 <= _n s -> valid_qubit s 0.
Proof. unfold valid_qubit. lia. Qed.

(** * The claims *)

(** C4. In every state reachable from the constructor by valid calls, the
    stabilizer rows pairwise commute, every destabilizer row anticommutes
    with its paired stabilizer row and commutes with the other stabilizer
    rows, and [measure] on a valid qubit returns a result: no row
    multiplication inside it meets an odd total phase, so the assertion of
    [_row_product_sign] never fails. *)
Theorem C4_commutation_invariant (s : ChpSimulator) :
  reachable s ->
  (forall i j, i < _n s -> j < _n s ->
     anticommute (_n s) (_table s !!! (_n s + i)) (_table s !!! (_n s + j))
     = false) /\
  (forall i j, i < _n s -> j < _n s ->
     anticommute (_n s) (_table s !!! i) (_table s !!! (_n s + j))
     = bool_decide (i = j)) /\
  (forall q bias u, valid_qubit s q ->
     exists r s', measure q bias u s = (Ok r, s')).
Proof.
  intros Hreach. pose proof (reachable_inv s Hreach) as Hinv.
  split; [apply Hinv|]. split; [apply Hinv|].
  intros q bias u Hq. by apply measure_returns.
Qed.

Lemma C4_commutation_invariant_witness :
  reachable epr_state /\
  (forall i j, i < 2 -> j < 2 ->
     anticommute 2 (_table epr_state !!! (2 + i)) (_table epr_state !!! (2 + j))
     = false) /\
  (forall i j, i < 2 -> j < 2 ->
     anticommute 2 (_table epr_state !!! i) (_table epr_state !!! (2 + j))
     = bool_decide (i = j)) /\
  (forall q bias u, valid_qubit epr_state q ->
     exists r s', measure q bias u epr_state = (Ok r, s')).
Proof.
  split; [apply reachable_epr_state|].
  apply (C4_commutation_invariant epr_state). apply reachable_epr_state.
Defined.

(** C1. On a reachable state and a valid qubit, [measure] returns a result
    with [determined = false] exactly when some stabilizer row [p] in
    [[n, 2n)] has [x[p, q] = 1]; the call then is the random branch run on
    the smallest such row; when there is no such row the call is the
    determined branch and returns [determined = true]. *)
Theorem C1_measure_dispatch (s : ChpSimulator) (q : Z) (bias u : Q) :
  reachable s -> 1 <= _n s -> valid_qubit s q ->
  exists r s',
    measure q bias u s = (Ok r, s') /\
    (determined r = false <->
       exists p, _n s <= p < 2 * _n s /\ cell (_table s) p (Z.to_nat q) = true) /\
    (forall p,
       _n s <= p < 2 * _n s -> cell (_table s) p (Z.to_nat q) = true ->
       (forall p0, _n s <= p0 < p -> cell (_table s) p0 (Z.to_nat q) = false) ->
       measure q bias u s
       = _measure_random q (Z.of_nat p - Z.of_nat (_n s)) bias u s) /\
    ((forall p, _n s <= p < 2 * _n s -> cell (_table s) p (Z.to_nat q) = false) ->
     determined r = true /\
     measure q bias u s = _measure_determined q s).
Proof.
  intros Hreach _ Hq. pose proof (reachable_inv s Hreach) as Hinv.
  destruct s as [n t]. apply valid_qubit_index in Hq as [Hq Hq']. simpl.
  destruct (measure_cases n t q _ bias u Hq Hinv)
    as [(p & Hp & Hhit & Hmin & Heq & Hrun)|(Hmiss & Heq & Hrun)].
  - eexists _, _. split; [by rewrite Heq, Hrun|]. split_and!.
    + split; [|done]. intros _. exists (p + n). split; [lia|done].
    + intros p1 Hp1 Hhit1 Hmin1.
      assert (p1 = p + n) as ->.
      { destruct (Nat.lt_trichotomy p1 (p + n)) as [Hlt|[Heq'|Hgt]]; [|done|].
        - specialize (Hmin (p1 - n)). replace (p1 - n + n) with p1 in Hmin by lia.
          rewrite Hmin in Hhit1 by lia. done.
        - rewrite Hmin1 in Hhit by lia. done. }
      rewrite Heq. do 2 f_equal. lia.
    + intros Hnone. rewrite Hnone in Hhit by lia. done.
  - eexists _, _. split; [by rewrite Heq, Hrun|]. split_and!.
    + split; [done|]. intros (p & Hp & Hhit).
      specialize (Hmiss (p - n)). replace (p - n + n) with p in Hmiss by lia.
      rewrite Hmiss in Hhit by lia. done.
    + intros p Hp Hhit.
      specialize (Hmiss (p - n)). replace (p - n + n) with p in Hmiss by lia.
      rewrite Hmiss in Hhit by lia. done.
    + done.
Qed.

Lemma C1_measure_dispatch_witness :
  reachable epr_state /\ 1 <= _n epr_state /\ valid_qubit epr_state 0 /\
  exists r s',
    measure 0 (1 # 2) (1 # 4) epr_state = (Ok r, s') /\
    (determined r = false <->
       exists p, _n epr_state <= p < 2 * _n epr_state /\
                 cell (_table epr_state) p (Z.to_nat 0) = true) /\
    (forall p,
       _n epr_state <= p < 2 * _n epr_state ->
       cell (_table epr_state) p (Z.to_nat 0) = true ->
       (forall p0, _n epr_state <= p0 < p ->
                   cell (_table epr_state) p0 (Z.to_nat 0) = false) ->
       measure 0 (1 # 2) (1 # 4) epr_state
       = _measure_random 0 (Z.of_nat p - Z.of_nat (_n epr_state))
           (1 # 2) (1 # 4) epr_state) /\
    ((forall p, _n epr_state <= p < 2 * _n epr_state ->
                cell (_table epr_state) p (Z.to_nat 0) = false) ->
     determined r = true /\
     measure 0 (1 # 2) (1 # 4) epr_state = _measure_determined 0 epr_state).
Proof.
  assert (1 <= _n epr_state) as Hn by (simpl; lia).
  split; [apply reachable_epr_state|]. split; [exact Hn|].
  split; [exact (valid_qubit_0 _ Hn)|].
  apply (C1_measure_dispatch epr_state 0 (1 # 2) (1 # 4)).
  - apply reachable_epr_state.
  - exact Hn.
  - exact (valid_qubit_0 _ Hn).
Defined.

(** ** Measuring the same qubit again *)

Lemma fold_add_zero (F : nat -> Z) m :
  (forall j, j < m -> F j = 0%Z) ->
  fold_left (fun (acc : Z) (j : nat) => Z.add acc (F j)) (seq 0 m) 0%Z = 0%Z.
Proof.
  intros HF. induction m as [|m IH]; [done|].
  rewrite seq_S, fold_left_app. simpl.
  rewrite IH by (intros; apply HF; lia). by rewrite HF by lia.
Qed.

Lemma phase_sum_zero_l n ri rk :
  (forall j, j < 2 * n -> ri !!! j = false) -> phase_sum n ri rk = 0%Z.
Proof.
  intros Hzero. unfold phase_sum.
  apply (fold_add_zero
           (fun j => pauli_product_phase (ri !!! j) (ri !!! (n + j))
                                         (rk !!! j) (rk !!! (n + j)))).
  intros j Hj. by rewrite !Hzero by lia.
Qed.

(** Multiplying [+-Z_a] into the zeroed scratch row leaves its sign there. *)
Lemma product_sign_zero_z n a b :
  product_sign n (replicate (2 * n + 1) false) (z_observable n a b) = b.
Proof.
  unfold product_sign.
  rewrite phase_sum_zero_l
    by (intros j Hj; by rewrite lookup_total_replicate_2 by lia).
  unfold z_observable, r_col.
  rewrite lookup_total_replicate_2 by lia.
  rewrite list_lookup_total_insert_eq
    by (rewrite length_insert, length_replicate; lia).
  by destruct b.
Qed.

Lemma determined_scratch_ext n a k t1 t2 :
  (forall i, i < 2 * n -> t1 !!! i = t2 !!! i) -> k <= n ->
  determined_scratch n a k t1 = determined_scratch n a k t2.
Proof.
  intros Hrows. induction k as [|k IH]; intros Hk; [done|].
  rewrite !determined_scratch_S, IH by lia.
  unfold determined_step, cell. by rewrite !Hrows by lia.
Qed.

Section after_random.
Context (n a p : nat) (b : bool) (t : list (list bool)).
Context (Ha : a < n) (Hp : p < n) (Hinv : tableau_inv (mkSim n t)).
Context (Hx : cell t (p + n) a = true).
Local Abbreviation t' := (random_table n a p b t).

(** After the random branch no stabilizer row has an X on qubit [a] ... *)
Lemma random_table_stab_x j : j < n -> cell t' (j + n) a = false.
Proof.
  intros Hj. unfold cell. replace (j + n) with (n + j) by lia.
  rewrite random_table_stab by done.
  case_decide.
  - rewrite lookup_z_observable by lia. apply bool_decide_eq_false_2. lia.
  - rewrite lookup_row_update by (try (eapply inv_row; [eassumption|]); lia).
    unfold cell in *. replace (n + p) with (p + n) by lia. rewrite Hx.
    bool_cases.
Qed.

(** ... and row [p] is the only destabilizer row that has one. *)
Lemma random_table_destab_x i : i < n -> cell t' i a = bool_decide (i = p).
Proof.
  intros Hi. unfold cell.
  rewrite random_table_destab by done.
  case_decide.
  - rewrite bool_decide_eq_true_2 by done.
    by replace (n + p) with (p + n) by lia.
  - rewrite lookup_row_update by (try (eapply inv_row; [eassumption|]); lia).
    unfold cell in *. replace (n + p) with (p + n) by lia. rewrite Hx.
    rewrite bool_decide_eq_false_2 by done. bool_cases.
Qed.

Lemma determined_scratch_after_random k :
  k <= n ->
  determined_scratch n a k t' =
    if decide (p < k)
    then row_product n (replicate (2 * n + 1) false) (z_observable n a b)
    else replicate (2 * n + 1) false.
Proof.
  induction k as [|k IH]; intros Hk; [done|].
  rewrite determined_scratch_S, IH by lia. unfold determined_step.
  rewrite random_table_destab_x by lia.
  destruct (decide (k = p)) as [->|Hne].
  - rewrite bool_decide_eq_true_2 by done. decide_lia.
    rewrite lookup_random_table by (done || lia).
    by rewrite decide_True by done.
  - rewrite bool_decide_eq_false_2 by done.
    destruct (decide (p < k)); decide_lia; done.
Qed.

Lemma remeasure_after_random bias u :
  np_index n (Z.of_nat a) = Ok a ->
  exists s2,
    measure (Z.of_nat a) bias u (mkSim n t') = (Ok (mkResult b true), s2).
Proof.
  intros Hidx.
  assert (tableau_inv (mkSim n t')) as Hinv' by (by apply tableau_inv_random).
  destruct (measure_cases n t' _ a bias u Hidx Hinv')
    as [(p1 & Hp1 & Hhit & _)|(_ & Heq & Hrun)].
  - by rewrite random_table_stab_x in Hhit.
  - eexists. rewrite Heq, Hrun. do 3 f_equal.
    rewrite determined_scratch_after_random by done. decide_lia.
    rewrite lookup_row_product, decide_False
      by (rewrite ?length_replicate; try apply length_z_observable; lia).
    apply product_sign_zero_z.
Qed.
End after_random.

Section after_determined.
Context (n a : nat) (t : list (list bool)).
Context (Ha : a < n) (Hinv : tableau_inv (mkSim n t)).
Context (Hmiss : forall p, p < n -> cell t (p + n) a = false).

Lemma remeasure_after_determined bias u :
  np_index n (Z.of_nat a) = Ok a ->
  exists s2,
    measure (Z.of_nat a) bias u (mkSim n (determined_table n a t))
    = (Ok (mkResult (determined_scratch n a n t !!! (2 * n)) true), s2).
Proof.
  intros Hidx.
  assert (tableau_inv (mkSim n (determined_table n a t))) as Hinv'
    by (by apply tableau_inv_determined).
  assert (forall i, i < 2 * n -> determined_table n a t !!! i = t !!! i) as Hsame
    by (intros; unfold determined_table;
        by rewrite list_lookup_total_insert_ne by lia).
  destruct (measure_cases n (determined_table n a t) _ a bias u Hidx Hinv')
    as [(p1 & Hp1 & Hhit & _)|(_ & Heq & Hrun)].
  - unfold cell in Hhit. rewrite Hsame in Hhit by lia.
    unfold cell in Hmiss. by rewrite Hmiss in Hhit.
  - eexists. rewrite Heq, Hrun. do 3 f_equal.
    by rewrite (determined_scratch_ext n a n _ t Hsame).
Qed.
End after_determined.

(** C2. On a reachable state and a valid qubit, a measurement followed at
    once by a second measurement of the same qubit (whatever the biases and
    the random draws) returns twice the same value, and the second result
    has [determined = true]. *)
Theorem C2_measure_twice (s : ChpSimulator) (q : Z) (b1 u1 b2 u2 : Q) :
  reachable s -> valid_qubit s q ->
  exists r1 s1 r2 s2,
    measure q b1 u1 s = (Ok r1, s1) /\
    measure q b2 u2 s1 = (Ok r2, s2) /\
    value r2 = value r1 /\ determined r2 = true.
Proof.
  intros Hreach Hq. pose proof (reachable_inv s Hreach) as Hinv.
  destruct s as [n t].
  assert (q = Z.of_nat (Z.to_nat q)) as Hqnat
    by (unfold valid_qubit in Hq; simpl in Hq; lia).
  apply valid_qubit_index in Hq as [Hq Hq'].
  destruct (measure_cases n t q _ b1 u1 Hq Hinv)
    as [(p & Hp & Hhit & _ & Heq & Hrun)|(Hmiss & Heq & Hrun)].
  - destruct (remeasure_after_random n (Z.to_nat q) p (draw_lt u1 b1) t)
      with (bias := b2) (u := u2) as [s2 Hs2]; try done;
      [by rewrite <- Hqnat|].
    rewrite <- Hqnat in Hs2.
    eexists _, _, _, _. split; [by rewrite Heq, Hrun|]. split; [exact Hs2|].
    done.
  - destruct (remeasure_after_determined n (Z.to_nat q) t)
      with (bias := b2) (u := u2) as [s2 Hs2]; try done;
      [by rewrite <- Hqnat|].
    rewrite <- Hqnat in Hs2.
    eexists _, _, _, _. split; [by rewrite Heq, Hrun|]. split; [exact Hs2|].
    done.
Qed.

Lemma C2_measure_twice_witness :
  reachable plus_state /\ valid_qubit plus_state 0 /\
  exists r1 s1 r2 s2,
    measure 0 1 (1 # 3) plus_state = (Ok r1, s1) /\
    measure 0 0 (2 # 3) s1 = (Ok r2, s2) /\
    value r2 = value r1 /\ determined r2 = true.
Proof.
  assert (1 <= _n plus_state) as Hn by (simpl; lia).
  split; [apply reachable_plus_state|].
  split; [exact (valid_qubit_0 _ Hn)|].
  apply (C2_measure_twice plus_state 0 1 (1 # 3) 0 (2 # 3)).
  - apply reachable_plus_state.
  - exact (valid_qubit_0 _ Hn).
Defined.

(** C10. On a reachable state and a valid qubit on which no stabilizer row
    has an X component, [measure] takes the determined branch and leaves
    every bit of the rows [[0, 2n)] as it was: only the scratch row [2n]
    may differ afterwards. *)
Theorem C10_determined_frame (s : ChpSimulator) (q : Z) (bias u : Q) :
  reachable s -> valid_qubit s q ->
  (forall p, _n s <= p < 2 * _n s -> cell (_table s) p (Z.to_nat q) = false) ->
  exists r s',
    measure q bias u s = (Ok r, s') /\
    measure q bias u s = _measure_determined q s /\
    determined r = true /\
    _n s' = _n s /\
    length (_table s') = length (_table s) /\
    forall i, i < 2 * _n s -> _table s' !!! i = _table s !!! i.
Proof.
  intros Hreach Hq Hnone. pose proof (reachable_inv s Hreach) as Hinv.
  destruct s as [n t]. apply valid_qubit_index in Hq as [Hq Hq']. simpl in *.
  destruct (measure_cases n t q _ bias u Hq Hinv)
    as [(p & Hp & Hhit & _)|(Hmiss & Heq & Hrun)].
  - rewrite Hnone in Hhit by lia. done.
  - eexists _, _. split; [by rewrite Heq, Hrun|]. split; [done|]. simpl.
    split_and!; try done.
    + unfold determined_table. by rewrite length_insert.
    + intros i Hi. unfold determined_table.
      by rewrite list_lookup_total_insert_ne by lia.
Qed.

Lemma C10_determined_frame_witness :
  reachable (__init__ 2) /\ valid_qubit (__init__ 2) 1 /\
  (forall p, 2 <= p < 4 -> cell (_table (__init__ 2)) p (Z.to_nat 1) = false) /\
  exists r s',
    measure 1 (1 # 2) (1 # 2) (__init__ 2) = (Ok r, s') /\
    measure 1 (1 # 2) (1 # 2) (__init__ 2) = _measure_determined 1 (__init__ 2) /\
    determined r = true /\
    _n s' = 2 /\
    length (_table s') = 5 /\
    forall i, i < 4 -> _table s' !!! i = _table (__init__ 2) !!! i.
Proof.
  assert (valid_qubit (__init__ 2) 1) as Hq by (unfold valid_qubit; simpl; lia).
  assert (forall p, 2 <= p < 4 ->
            cell (_table (__init__ 2)) p (Z.to_nat 1) = false) as Hnone.
  { intros p Hp. assert (p = 2 \/ p = 3) as [->| ->] by lia; reflexivity. }
  split; [apply reach_init|]. split; [exact Hq|]. split; [exact Hnone|].
  apply (C10_determined_frame (__init__ 2) 1 (1 # 2) (1 # 2)).
  - apply reach_init.
  - exact Hq.
  - exact Hnone.
Defined.

(** ** Gates undo themselves *)

Lemma map_rows_id n t (f : list bool -> list bool) :
  wf_table n t ->
  (forall row, length row = 2 * n + 1 -> f row = row) ->
  map f t = t.
Proof.
  intros [_ Hrows] Hf. rewrite <- (list_fmap_id t) at 2.
  apply list_fmap_ext. intros i row Hrow. simpl.
  apply Hf. by eapply Forall_lookup_1 in Hrows.
Qed.

(** C7. On a reachable state and valid qubit indices, two Hadamard gates on
    the same qubit, four phase gates on the same qubit, and two CNOT gates
    on the same pair of distinct qubits each return without error and leave
    the whole table (every X, Z and sign bit of every row) as it was. *)
Theorem C7_gate_involutions (s : ChpSimulator) :
  reachable s ->
  (forall q, valid_qubit s q -> (hadamard q ;; hadamard q) s = (Ok tt, s)) /\
  (forall q, valid_qubit s q ->
     (phase q ;; phase q ;; phase q ;; phase q) s = (Ok tt, s)) /\
  (forall c t, valid_qubit s c -> valid_qubit s t -> c <> t ->
     (cnot c t ;; cnot c t) s = (Ok tt, s)).
Proof.
  intros Hreach. pose proof (reachable_inv s Hreach) as [Hwf _ _].
  destruct s as [n t]. unfold wf in Hwf. simpl in Hwf.
  split_and!.
  - intros q [Hq Hq']%valid_qubit_index.
    erewrite bind_Ok by (by apply hadamard_run).
    rewrite (hadamard_run _ _ _ _ Hq), map_map. do 2 f_equal.
    apply (map_rows_id n); [done|]. intros row Hrow.
    by apply hadamard_row_twice.
  - intros q [Hq Hq']%valid_qubit_index.
    do 3 (erewrite bind_Ok by (by apply phase_run)).
    rewrite (phase_run _ _ _ _ Hq), !map_map. do 2 f_equal.
    apply (map_rows_id n); [done|]. intros row Hrow.
    by apply phase_row_four.
  - intros c tg Hc Ht Hne.
    assert (Z.to_nat c <> Z.to_nat tg)
      by (unfold valid_qubit in *; simpl in *; lia).
    apply valid_qubit_index in Hc as [Hc Hc'], Ht as [Ht Ht'].
    erewrite bind_Ok by (by apply cnot_run).
    rewrite (cnot_run _ _ _ _ _ _ Hc Ht), map_map. do 2 f_equal.
    apply (map_rows_id n); [done|]. intros row Hrow.
    by apply cnot_row_twice.
Qed.

Lemma C7_gate_involutions_witness :
  reachable epr_state /\
  (forall q, valid_qubit epr_state q ->
     (hadamard q ;; hadamard q) epr_state = (Ok tt, epr_state)) /\
  (forall q, valid_qubit epr_state q ->
     (phase q ;; phase q ;; phase q ;; phase q) epr_state = (Ok tt, epr_state)) /\
  (forall c t, valid_qubit epr_state c -> valid_qubit epr_state t -> c <> t ->
     (cnot c t ;; cnot c t) epr_state = (Ok tt, epr_state)).
Proof.
  split; [apply reachable_epr_state|].
  apply (C7_gate_involutions epr_state). apply reachable_epr_state.
Defined.

(** ** The Pauli-product phase *)

(** C5, as stated, fails on its last part: the function is not additive in
    its second operand, since [X * (X xor Z) = X * Y] has phase [+1] while
    the phases of [X * X] and [X * Z] add up to [-1]. *)
Lemma C5_pauli_product_phase_counterexample :
  pauli_product_phase true false (xorb true false) (xorb false true)
  <> (pauli_product_phase true false true false
      + pauli_product_phase true false false true)%Z
  /\ ~ bilinear_over_Z pauli_product_phase.
Proof.
  split; [done|]. intros [_ H].
  specialize (H true false true false false true). done.
Qed.

(** C5, amended. [pauli_product_phase] agrees with the sixteen-entry table
    under the encoding [I = 00], [X = 10], [Y = 11], [Z = 01] on all bit
    inputs; its parity is bilinear under the encoding (it is the symplectic
    product [x1 z2 + z1 x2] modulo 2), and the function is antisymmetric. *)
Theorem C5_pauli_product_phase_table :
  (forall P Q,
     pauli_product_phase (pauli_x P) (pauli_z P) (pauli_x Q) (pauli_z Q)
     = pauli_phase_table P Q) /\
  (forall x1 z1 x2 z2,
     pauli_product_phase x1 z1 x2 z2
     = pauli_phase_table (pauli_of x1 z1) (pauli_of x2 z2)) /\
  bilinear_mod_2 pauli_product_phase /\
  (forall x1 z1 x2 z2,
     pauli_product_phase x1 z1 x2 z2 = (- pauli_product_phase x2 z2 x1 z1)%Z).
Proof.
  split_and!.
  - by intros [] [].
  - by intros [] [] [] [].
  - split.
    + by intros [] [] [] [] [] [].
    + by intros [] [] [] [] [] [].
  - by intros [] [] [] [].
Qed.

(** ** The scratch row *)




(** A row without Paulis is a fixed point of the three gates. *)
Section gates_on_scratch.
Context (n : nat) (row : list bool).
Context (Hlen : length row = 2 * n + 1).
Context (Hzero : forall j, j < 2 * n -> row !!! j = false).



End gates_on_scratch.







(** ** The pretty-printer *)

Lemma string_app_assoc (a b c : string) :
  ((a ++ b) ++ c)%string = (a ++ (b ++ c))%string.
Proof. induction a as [|x a IH]; simpl; [done|]. by rewrite IH. Qed.

Lemma string_length_app (a b : string) :
  String.length (a ++ b) = String.length a + String.length b.
Proof. induction a as [|x a IH]; simpl; [done|]. by rewrite IH. Qed.

Lemma last_char_app (a b : string) :
  b <> EmptyString -> last_char (a ++ b) = last_char b.
Proof.
  intros Hb. induction a as [|x a IH]; simpl; [done|].
  rewrite IH. destruct (a ++ b)%string eqn:E; [|done].
  destruct a, b; simpl in E; done.
Qed.

Lemma last_char_None (a : string) : last_char a = None -> a = EmptyString.
Proof.
  induction a as [|x a IH]; simpl; [done|].
  destruct a; [done|]. intros H. by apply IH in H.
Qed.

Lemma last_char_concat sep (l : list string) (x : string) :
  x <> EmptyString -> last_char (String.concat sep (l ++ [x])) = last_char x.
Proof.
  intros Hx. induction l as [|y l IH]; [done|].
  change ((y :: l) ++ [x]) with (y :: (l ++ [x])).
  destruct (l ++ [x]) as [|z l'] eqn:E; [by destruct l|].
  set (rest := String.concat sep (z :: l')) in *.
  assert (rest <> EmptyString) as Hrest.
  { intros Hnil. rewrite Hnil in IH. symmetry in IH.
    by apply last_char_None in IH. }
  change (String.concat sep (y :: z :: l')) with (y ++ sep ++ rest)%string.
  rewrite last_char_app.
  - by rewrite last_char_app.
  - destruct sep; [done|]. simpl. done.
Qed.

Section printer.
Context (n : nat) (t : list (list bool)).
Local Abbreviation s := (mkSim n t).

Lemma _cell_run i j :
  i < 2 * n + 1 -> j < n ->
  _cell (Z.of_nat i) (Z.of_nat j) s
  = (Ok (cell_char ((t !!! i) !!! j) ((t !!! i) !!! (n + j))), s).
Proof.
  intros Hi Hj. unfold _cell, x_get, z_get.
  pose proof (np_index_nat _ _ Hi). pose proof (np_index_nat _ _ Hj).
  repeat run_with view_get_run. unfold cell, x_off, z_off.
  rewrite Nat.add_0_l. by destruct (_ !!! j), (_ !!! (n + j)).
Qed.

Lemma _row_loop_run i js acc :
  i < 2 * n + 1 -> Forall (fun j => j < n) js ->
  _row_loop (map Z.of_nat js) (Z.of_nat i) acc s
  = (Ok (acc ++ cells_string n (t !!! i) js)%string, s).
Proof.
  intros Hi Hjs. revert acc. induction Hjs as [|j js Hj _ IH]; intros acc.
  - simpl. unfold ret. do 2 f_equal. induction acc; simpl; congruence.
  - simpl. erewrite bind_Ok by (by apply _cell_run).
    by rewrite IH, string_app_assoc.
Qed.

Lemma _row_run i :
  i < 2 * n + 1 -> _row (Z.of_nat i) s = (Ok (row_string n (t !!! i)), s).
Proof.
  intros Hi. unfold _row. pose proof (np_index_nat _ _ Hi).
  run_with r_get_run. rewrite (bind_Ok get_n _ s n s) by done.
  unfold range. rewrite _row_loop_run; [done..|].
  apply Forall_forall. intros j Hj%elem_of_seq. lia.
Qed.

Lemma list_comp_row_run idxs :
  Forall (fun i => i < 2 * n + 1) idxs ->
  list_comp _row (map Z.of_nat idxs) s
  = (Ok (map (fun i => row_string n (t !!! i)) idxs), s).
Proof.
  induction 1 as [|i idxs Hi _ IH]; [done|].
  simpl. erewrite bind_Ok by (by apply _row_run).
  by erewrite bind_Ok by apply IH.
Qed.

Lemma __str___run : __str__ s = (Ok (render_destabilizers_first s), s).
Proof.
  unfold __str__. rewrite (bind_Ok get_n _ s n s) by done.
  unfold range, range2.
  erewrite bind_Ok
    by (apply list_comp_row_run, Forall_forall; intros i Hi%elem_of_seq; lia).
  erewrite bind_Ok
    by (apply list_comp_row_run, Forall_forall; intros i Hi%elem_of_seq; lia).
  unfold ret, render_destabilizers_first, render. simpl _n. simpl _table.
  by replace (2 * n - n) with n by lia.
Qed.
End printer.

Lemma length_cells_string n row js :
  String.length (cells_string n row js) = length js.
Proof.
  induction js as [|j js IH]; simpl; [done|].
  rewrite string_length_app, IH. by destruct (row !!! j), (row !!! (n + j)).
Qed.

Lemma length_row_string n row : String.length (row_string n row) = n + 1.
Proof.
  unfold row_string.
  rewrite string_length_app, length_cells_string, length_seq.
  destruct (row !!! (2 * n)); simpl; lia.
Qed.

Lemma last_char_cells_string n row js c :
  last_char (cells_string n row js) = Some c -> c <> ascii_of_nat 10.
Proof.
  induction js as [|j js IH]; simpl; [done|].
  destruct js as [|j' js'].
  - simpl. by destruct (row !!! j), (row !!! (n + j)); intros [= <-].
  - rewrite last_char_app; [apply IH|].
    simpl. by destruct (row !!! j'), (row !!! (n + j')).
Qed.

Lemma last_char_row_string n row c :
  last_char (row_string n row) = Some c -> c <> ascii_of_nat 10.
Proof.
  unfold row_string. destruct n as [|n].
  - simpl. by destruct (row !!! 0); intros [= <-].
  - rewrite last_char_app.
    + apply last_char_cells_string.
    + simpl. by destruct (row !!! 0), (row !!! _).
Qed.

Lemma row_string_nonempty n row : row_string n row <> EmptyString.
Proof. unfold row_string. by destruct (row !!! (2 * n)). Qed.

Lemma last_char_render_not_newline s c :
  last_char (render_destabilizers_first s) = Some c -> c <> ascii_of_nat 10.
Proof.
  unfold render_destabilizers_first, render. destruct (_n s) as [|n] eqn:En.
  - simpl. by intros [= <-].
  - rewrite (seq_S n (S n)), (map_app _ (seq (S n) n)). simpl (map _ [_]).
    rewrite !app_assoc.
    rewrite last_char_concat by apply row_string_nonempty.
    apply last_char_row_string.
Qed.

Lemma last_char_render_destabilizers_first s :
  last_char (render_destabilizers_first s) <> Some (ascii_of_nat 10).
Proof. intros Hc. by apply last_char_render_not_newline in Hc. Qed.

(** C8, as stated, fails on the order of the two blocks: on a fresh
    one-qubit simulator the rendering starts with row [0] ([+X]), not with
    row [n] ([+Z]). *)
Lemma C8_rendering_counterexample :
  __str__ (__init__ 1)
  = (Ok ("+X" ++ newline ++ "--" ++ newline ++ "+Z")%string, __init__ 1) /\
  render_stabilizers_first (__init__ 1)
  = ("+Z" ++ newline ++ "--" ++ newline ++ "+X")%string /\
  __str__ (__init__ 1)
  <> (Ok (render_stabilizers_first (__init__ 1)), __init__ 1).
Proof. split; [done|]. split; [done|]. discriminate. Qed.

(** C8, amended. The rendering lists rows [[0, n)] first, then a line of
    [n + 1] dashes, then rows [[n, 2n)]; each row is a sign character from
    its sign bit followed by one letter per qubit under the bit-pair
    encoding, so it has [n + 1] characters; the lines are joined by newline
    characters and the result does not end in a newline.  Rendering does
    not change the state. *)
Theorem C8_rendering (s : ChpSimulator) :
  __str__ s = (Ok (render_destabilizers_first s), s) /\
  (forall row, String.length (row_string (_n s) row) = _n s + 1) /\
  last_char (render_destabilizers_first s) <> Some (ascii_of_nat 10).
Proof.
  split_and!.
  - destruct s as [n t]. apply __str___run.
  - intros row. apply length_row_string.
  - apply last_char_render_destabilizers_first.
Qed.

(** ** Calls outside the documented contract *)

Lemma np_index_cases len i :
  (exists i', np_index len i = Ok i') \/ np_index len i = Raise (index_exn i).
Proof. unfold np_index. repeat case_match; eauto. Qed.

Section out_of_range.
Context (n : nat) (t : list (list bool)).
Local Abbreviation s := (mkSim n t).

Lemma hadamard_raise q e :
  np_index n q = Raise e -> hadamard q s = (Raise e, s).
Proof.
  intros Hq. unfold hadamard, x_col.
  by erewrite bind_Raise by (by apply view_col_raise).
Qed.

Lemma phase_raise q e :
  np_index n q = Raise e -> phase q s = (Raise e, s).
Proof.
  intros Hq. unfold phase, x_col.
  by erewrite bind_Raise by (by apply view_col_raise).
Qed.

(** [cnot] reads the column of its control first. *)
Lemma cnot_raise_control c tg e :
  np_index n c = Raise e -> cnot c tg s = (Raise e, s).
Proof.
  intros Hc. unfold cnot, x_col, z_col.
  by erewrite bind_Raise by (by apply view_col_raise).
Qed.

Lemma cnot_raise_target c tg c' e :
  np_index n c = Ok c' -> np_index n tg = Raise e ->
  cnot c tg s = (Raise e, s).
Proof.
  intros Hc Ht. unfold cnot, x_col, z_col.
  run_with view_col_run.
  by erewrite bind_Raise by (by apply view_col_raise).
Qed.

Lemma cnot_raise c tg :
  (exists e, np_index n c = Raise e) \/ (exists e, np_index n tg = Raise e) ->
  exists e, (e = IndexError \/ e = OverflowError) /\
            cnot c tg s = (Raise e, s).
Proof.
  intros Hbad.
  destruct (np_index_cases n c) as [[c' Hc]|Hc].
  - destruct Hbad as [[e Hbad]|[e Ht]]; [congruence|].
    destruct (np_index_cases n tg) as [[t' Ht']|Ht']; [congruence|].
    exists (index_exn tg). split; [apply index_exn_cases|].
    by apply (cnot_raise_target c tg c').
  - exists (index_exn c). split; [apply index_exn_cases|].
    by apply cnot_raise_control.
Qed.

End out_of_range.

Lemma measure_raise n t q bias u e :
  1 <= n -> np_index n q = Raise e ->
  measure q bias u (mkSim n t) = (Raise e, mkSim n t).
Proof.
  intros Hn Hq. destruct n as [|m]; [lia|].
  unfold measure. rewrite (bind_Ok get_n _ (mkSim (S m) t) (S m) _) by done.
  unfold range. rewrite <- cons_seq, map_cons.
  cbn [measure_loop].
  rewrite (bind_Ok get_n _ (mkSim (S m) t) (S m) _) by done. unfold x_get.
  erewrite bind_Raise; [done|].
  eapply view_get_raise; [|done].
  apply np_index_nonneg. lia.
Qed.

Lemma measure_index n t a b a' bias u :
  np_index n a = Ok a' -> np_index n b = Ok a' ->
  tableau_inv (mkSim n t) ->
  measure a bias u (mkSim n t) = measure b bias u (mkSim n t).
Proof.
  intros Ha Hb Hinv. pose proof (np_index_lt _ _ _ Ha) as Ha'.
  pose proof (inv_length n t Hinv) as Hlen.
  destruct (first_hit (fun p => cell t (p + n) a') n)
    as [Hmiss|(p & Hp & Hhit & Hmin)].
  - rewrite (measure_miss n t a a' Ha Hlen), (measure_miss n t b a' Hb Hlen)
      by done.
    rewrite !(_measure_determined_run n t _ a'); try done.
    all: intros k Hk _; replace (k + n) with (n + k) by lia;
      apply determined_scratch_commutes; (done || lia).
  - rewrite (measure_hit n t a a' Ha Hlen p), (measure_hit n t b a' Hb Hlen p)
      by done.
    rewrite !(_measure_random_run n t _ a'); try done.
    all: intros k Hk; by apply random_commutes.
Qed.

(** C9, as stated, fails: [cnot] with equal control and target, a negative
    in-range index and a bias above [1] are all accepted, and the first two
    change the state. *)
Lemma C9_contract_violations_counterexample :
  (exists s', cnot 0 0 (__init__ 1) = (Ok tt, s') /\ s' <> __init__ 1) /\
  (exists s', hadamard (-1) (__init__ 1) = (Ok tt, s') /\ s' <> __init__ 1) /\
  (exists r s', measure 0 2 (1 # 2) plus_state = (Ok r, s') /\ ~ (2 <= 1)%Q).
Proof.
  split_and!.
  - eexists. split; [reflexivity|]. discriminate.
  - eexists. split; [reflexivity|]. discriminate.
  - eexists _, _. split; [reflexivity|]. by intros H.
Qed.

(** C9, amended. A qubit index outside [[-n, n)] makes [cnot], [hadamard],
    [phase] and (for [n >= 1]) [measure] fail at once and leave the state
    unchanged: with an [IndexError] when the index fits a signed 64-bit
    word, with an [OverflowError] when it lies in [[2^63, 2^64)], and with
    one of the two for any other integer.  An index in [[-n, 0)] is accepted
    and addresses qubit [q + n].  [cnot] with control equal to target
    returns normally, and so does [measure] with any bias on a reachable
    state. *)
Theorem C9_contract_violations (s : ChpSimulator) :
  (forall q, (q < - Z.of_nat (_n s) \/ Z.of_nat (_n s) <= q)%Z ->
     exists e,
       (e = IndexError \/ e = OverflowError) /\
       ((- 2 ^ 63 <= q < 2 ^ 63)%Z -> e = IndexError) /\
       ((2 ^ 63 <= q < 2 ^ 64)%Z -> e = OverflowError) /\
       hadamard q s = (Raise e, s) /\
       phase q s = (Raise e, s) /\
       (forall q', cnot q q' s = (Raise e, s)) /\
       (forall q', (- Z.of_nat (_n s) <= q' < Z.of_nat (_n s))%Z ->
          cnot q' q s = (Raise e, s)) /\
       (forall q', exists e',
          (e' = IndexError \/ e' = OverflowError) /\
          cnot q' q s = (Raise e', s)) /\
       (1 <= _n s -> forall bias u, measure q bias u s = (Raise e, s))) /\
  (forall q, (- Z.of_nat (_n s) <= q < 0)%Z ->
     hadamard q s = hadamard (q + Z.of_nat (_n s)) s /\
     phase q s = phase (q + Z.of_nat (_n s)) s /\
     (forall q', valid_qubit s q' ->
        cnot q q' s = cnot (q + Z.of_nat (_n s)) q' s /\
        cnot q' q s = cnot q' (q + Z.of_nat (_n s)) s) /\
     (reachable s -> forall bias u,
        measure q bias u s = measure (q + Z.of_nat (_n s)) bias u s)) /\
  (forall c, valid_qubit s c -> exists s', cnot c c s = (Ok tt, s')) /\
  (reachable s -> forall q bias u, valid_qubit s q ->
     exists r s', measure q bias u s = (Ok r, s')).
Proof.
  destruct s as [n t]. simpl. split_and!.
  - intros q Hq. apply np_index_out in Hq.
    exists (index_exn q). split_and!.
    + apply index_exn_cases.
    + apply index_exn_word.
    + apply index_exn_overflow.
    + by apply hadamard_raise.
    + by apply phase_raise.
    + intros q'. by apply cnot_raise_control.
    + intros q' Hq'.
      destruct (np_index_cases n q') as [[c' Hc]|Hc].
      * by apply (cnot_raise_target n t q' q c').
      * destruct (Z.leb_spec 0 q').
        -- by rewrite np_index_nonneg in Hc by lia.
        -- by rewrite np_index_neg in Hc by lia.
    + intros q'. apply cnot_raise. right. eauto.
    + intros Hn bias u. by apply measure_raise.
  - intros q Hq. pose proof (np_index_wrap n q Hq) as Hwrap.
    assert (np_index n q = Ok (Z.to_nat (q + Z.of_nat n))) as Hq1
      by (by apply np_index_neg).
    assert (np_index n (q + Z.of_nat n) = Ok (Z.to_nat (q + Z.of_nat n))) as Hq2
      by (by rewrite <- Hwrap).
    split_and!.
    + by rewrite (hadamard_run _ _ _ _ Hq1), (hadamard_run _ _ _ _ Hq2).
    + by rewrite (phase_run _ _ _ _ Hq1), (phase_run _ _ _ _ Hq2).
    + intros q' [Hq' _]%valid_qubit_index. split.
      * by rewrite (cnot_run _ _ _ _ _ _ Hq1 Hq'), (cnot_run _ _ _ _ _ _ Hq2 Hq').
      * by rewrite (cnot_run _ _ _ _ _ _ Hq' Hq1), (cnot_run _ _ _ _ _ _ Hq' Hq2).
    + intros Hreach bias u. apply reachable_inv in Hreach.
      by apply (measure_index n t _ _ (Z.to_nat (q + Z.of_nat n))).
  - intros c [Hc _]%valid_qubit_index. eexists. by apply cnot_run.
  - intros Hreach q bias u Hq.
    by apply measure_returns.
Qed.


(** ** Which rows the random branch multiplies *)

Lemma forget_bind {A B} (m : M A) (f : A -> M B) s :
  forget (x <- m ;; f x) s = (x <- m ;; forget (f x)) s.
Proof. unfold forget, bind. by destruct (m s) as [[?|?] ?]. Qed.

Lemma bind_ext {A B} (m : M A) (f g : A -> M B) s :
  (forall x s', f x s' = g x s') -> bind m f s = bind m g s.
Proof. intros H. unfold bind. by destruct (m s) as [[?|?] ?]. Qed.

Lemma bind_assoc {A B C} (m : M A) (f : A -> M B) (g : B -> M C) s :
  (y <- (x <- m ;; f x) ;; g y) s = (x <- m ;; y <- f x ;; g y) s.
Proof. unfold bind. by destruct (m s) as [[?|?] ?]. Qed.

Lemma forget_ret_bind {A B} (m : M A) (g : A -> B) s :
  forget (y <- m ;; ret (g y)) s = forget m s.
Proof. unfold forget, bind, ret. by destruct (m s) as [[?|?] ?]. Qed.

Lemma bind_forget {A B} (m : M A) (k : M B) s :
  (forget m ;; k) s = (m ;; k) s.
Proof. unfold forget, bind. by destruct (m s) as [[?|?] ?]. Qed.

Lemma bind_ret_tt (m : M unit) s : (m ;; ret tt) s = m s.
Proof. unfold bind, ret. by destruct (m s) as [[[]|?] ?]. Qed.

(** The recording loop is the loop of [_measure_random] with a log. *)
Lemma update_loop_calls_forget rows a p n s :
  forget (update_loop_calls rows a p n) s
  = for_ rows
      (fun i =>
         xi <- x_get i a ;;
         if xi && negb (i =? p)%Z && negb (i =? p + Z.of_nat n)%Z
         then _row_mult i p
         else ret tt) s.
Proof.
  revert s. induction rows as [|i rows IH]; intros s; [done|].
  cbn [update_loop_calls for_]. rewrite forget_bind, bind_assoc.
  apply bind_ext. intros xi s1.
  destruct (xi && _ && _).
  - rewrite forget_bind. apply bind_ext. intros _ s2.
    by rewrite (forget_ret_bind _ (fun calls => (i, p) :: calls)), IH.
  - unfold bind at 1, ret at 1. apply IH.
Qed.

Lemma bind_get_n {A} (f : nat -> M A) s : (n <- get_n ;; f n) s = f (_n s) s.
Proof. done. Qed.

Lemma bind_cong_l {A B} (m m' : M A) (f : A -> M B) s :
  m s = m' s -> bind m f s = bind m' f s.
Proof. intros H. unfold bind. by rewrite H. Qed.

Lemma _measure_random_calls_forget a p bias u s :
  _measure_random a p bias u s
  = (n <- get_n ;;
     _measure_random_calls a p bias u ;;
     v <- r_get (p + Z.of_nat n) ;;
     ret (mkResult v false)) s.
Proof.
  unfold _measure_random, _measure_random_calls.
  rewrite !bind_get_n, bind_assoc, bind_get_n.
  do 7 (rewrite (bind_assoc _ _ _ _); apply bind_ext; intros ? ?).
  rewrite <- (bind_forget (update_loop_calls _ _ _ _)). apply bind_cong_l.
  by rewrite update_loop_calls_forget.
Qed.

Section random_calls.
Context (n a p : nat) (t : list (list bool)).
Context (Hlen : length t = 2 * n + 1).

Lemma update_loop_calls_run (qa : Z) lo len :
  np_index n qa = Ok a -> p < n -> lo + len <= 2 * n ->
  (forall k, k < 2 * n -> random_hits n a p k (t !!! k) = true ->
     anticommute n (t !!! k) (t !!! p) = false) ->
  update_loop_calls (map Z.of_nat (seq lo len)) qa (Z.of_nat p) n
    (mkSim n (random_upto n a p lo t))
  = (Ok (map (fun i => (Z.of_nat i, Z.of_nat p))
           (List.filter (fun i => random_hits n a p i (t !!! i)) (seq lo len))),
     mkSim n (random_upto n a p (lo + len) t)).
Proof.
  intros Ha Hp Hle Hcomm. revert lo Hle.
  induction len as [|len IH]; intros lo Hle.
  - simpl. by rewrite Nat.add_0_r.
  - cbn [seq map update_loop_calls List.filter].
    assert (lo < 2 * n) as Hlo by lia.
    pose proof (random_step_test n a p t Hlen qa lo Ha Hlo) as Htest.
    unfold bind, ret in Htest |- *.
    destruct (x_get (Z.of_nat lo) qa _) as [[xi|e] st]; [|done].
    injection Htest as -> ->.
    replace (lo + S len) with (S lo + len) by lia.
    destruct (random_hits n a p lo (t !!! lo)) eqn:Hhit.
    + rewrite random_step_mult by (auto; lia).
      by rewrite IH by lia.
    + rewrite <- (random_step_skip n a p t Hlen lo) by (done || lia).
      by rewrite IH by lia.
Qed.
End random_calls.

Lemma _measure_random_calls_run n t a a' p bias u :
  np_index n a = Ok a' -> tableau_inv (mkSim n t) -> p < n ->
  cell t (p + n) a' = true ->
  _measure_random_calls a (Z.of_nat p) bias u (mkSim n t)
  = (Ok (calls_by_code n a' p (random_start n a' p (draw_lt u bias) t)),
     mkSim n (random_table n a' p (draw_lt u bias) t)).
Proof.
  intros Ha Hinv Hp Hx. pose proof (inv_length n t Hinv) as Hlen.
  pose proof (np_index_lt _ _ _ Ha) as Ha'.
  unfold _measure_random_calls, x_get, z_set.
  rewrite bind_get_n. cbn [_n].
  assert (np_index (2 * n + 1) (Z.of_nat p + Z.of_nat n) = Ok (p + n)) as Hpn
    by (apply np_index_add; lia).
  assert (np_index (2 * n + 1) (Z.of_nat p) = Ok p) as Hp'
    by (apply np_index_nat; lia).
  run_with view_get_run. unfold x_off. rewrite Nat.add_0_l, Hx.
  rewrite (bind_Ok (assert true) _ (mkSim n t) tt (mkSim n t)) by done.
  run_with table_row_run. run_with table_row_set_run.
  run_with table_row_zero_run. run_with view_set_run. run_with r_set_run.
  rewrite random_start_eq by done.
  set (start := random_start n a' p (draw_lt u bias) t).
  rewrite <- (random_upto_0 n a' p start) at 1
    by (by apply length_random_start).
  unfold range. rewrite (update_loop_calls_run n a' p start); try done.
  - by apply length_random_start.
  - intros k Hk. by apply random_commutes.
Qed.

(** C3, as stated, fails.  On [|+>] the random branch makes no
    [_row_mult] call at all although the destabilizer copy in row [0] has
    an X on the measured qubit; on the three-qubit test state its only
    call is [_row_mult(5, 0)], with the copy in row [0] as multiplier, where
    the statement asks for [row_mult(0, 3)] and [row_mult(5, 3)]. *)
Lemma C3_random_branch_calls_counterexample :
  fst (_measure_random_calls 0 0 (1 # 2) (1 # 2) plus_state) = Ok [] /\
  cell (random_start 1 0 0 false (_table plus_state)) 0 0 = true /\
  calls_by_spec 1 0 1 (random_start 1 0 0 false (_table plus_state))
  = [(0, 1)]%Z /\
  fst (_measure_random_calls 0 0 0 (1 # 2) kickback_state) = Ok [(5, 0)]%Z /\
  calls_by_spec 3 0 3 (random_start 3 0 0 false (_table kickback_state))
  = [(0, 3); (5, 3)]%Z.
Proof. split_and!; reflexivity. Qed.

(** C3, amended (in the indices of the code, whose loop variable [p] in
    [[0, n)] names the stabilizer row [p + n]).  In the random branch, after
    row [p + n] has been copied into row [p], zeroed, given [z[p + n, a] = 1]
    and the drawn sign, [_row_mult(i, p)] is called, in increasing order of
    [i], exactly for the rows [i] in [[0, 2n)] with [i <> p], [i <> p + n]
    and [x[i, a] = 1]: the multiplier is the copy in row [p], and that row,
    which has [x[p, a] = 1], is itself skipped. *)
Theorem C3_random_branch_calls (s : ChpSimulator) (a : Z) (p : nat) (bias u : Q) :
  reachable s -> valid_qubit s a -> p < _n s ->
  cell (_table s) (p + _n s) (Z.to_nat a) = true ->
  exists calls s',
    _measure_random_calls a (Z.of_nat p) bias u s = (Ok calls, s') /\
    _measure_random a (Z.of_nat p) bias u s
    = (Ok (mkResult (draw_lt u bias) false), s') /\
    calls = calls_by_code (_n s) (Z.to_nat a) p
              (random_start (_n s) (Z.to_nat a) p (draw_lt u bias) (_table s)) /\
    (forall i k,
       In (i, k) calls <->
       k = Z.of_nat p /\
       exists j, i = Z.of_nat j /\ j < 2 * _n s /\ j <> p /\ j <> p + _n s /\
         cell (random_start (_n s) (Z.to_nat a) p (draw_lt u bias) (_table s))
              j (Z.to_nat a) = true) /\
    cell (random_start (_n s) (Z.to_nat a) p (draw_lt u bias) (_table s))
         p (Z.to_nat a) = true /\
    (forall k, ~ In (Z.of_nat p, k) calls).
Proof.
  intros Hinv%reachable_inv Ha Hp Hx. destruct s as [n t]. simpl in *.
  apply valid_qubit_index in Ha as [Ha Ha'].
  pose proof (inv_length n t Hinv) as Hlen.
  set (b := draw_lt u bias). set (a' := Z.to_nat a) in *.
  set (start := random_start n a' p b t).
  assert (forall i k,
            In (i, k) (calls_by_code n a' p start) <->
            k = Z.of_nat p /\
            exists j, i = Z.of_nat j /\ j < 2 * n /\ j <> p /\ j <> p + n /\
                      cell start j a' = true) as Hin.
  { intros i k. unfold calls_by_code. rewrite in_map_iff. split.
    - intros (j & [= <- <-] & [Hj Hhit]%filter_In). split; [done|].
      exists j. apply in_seq in Hj. unfold random_hits in Hhit.
      destruct (Nat.eqb_spec j p), (Nat.eqb_spec j (p + n));
        rewrite ?andb_false_r in Hhit; try done.
      rewrite !andb_true_r in Hhit. split_and!; (done || lia).
    - intros (-> & j & -> & Hj & Hjp & Hjpn & Hcell).
      exists j. split; [done|]. apply filter_In. split; [apply in_seq; lia|].
      unfold random_hits. unfold cell in Hcell. rewrite Hcell.
      by destruct (Nat.eqb_spec j p), (Nat.eqb_spec j (p + n)). }
  eexists _, _. split_and!.
  - by apply _measure_random_calls_run.
  - apply _measure_random_run; try done.
    intros k Hk. by apply random_commutes.
  - done.
  - exact Hin.
  - unfold cell, start. rewrite lookup_random_start by (done || lia).
    by decide_lia.
  - intros k [_ (j & Hj%Nat2Z.inj & _ & Hne & _)]%Hin. done.
Qed.

Lemma reachable_kickback_state : reachable kickback_state.
Proof.
  replace kickback_state with
    (snd (hadamard 2 (snd (hadamard 1 (snd (hadamard 0 (snd (phase 1
      (snd (phase 0 (snd (cnot 2 1 (snd (cnot 2 0 (snd (hadamard 2
      (__init__ 3)))))))))))))))))
    by (vm_compute; reflexivity).
  reach_gates;
    try (vm_compute; split; [discriminate|reflexivity]); discriminate.
Qed.

Lemma C3_random_branch_calls_witness :
  reachable kickback_state /\ valid_qubit kickback_state 0 /\
  0 < _n kickback_state /\
  cell (_table kickback_state) (0 + _n kickback_state) (Z.to_nat 0) = true /\
  exists calls s',
    _measure_random_calls 0 (Z.of_nat 0) 0 (1 # 2) kickback_state
    = (Ok calls, s') /\
    _measure_random 0 (Z.of_nat 0) 0 (1 # 2) kickback_state
    = (Ok (mkResult (draw_lt (1 # 2) 0) false), s') /\
    calls = calls_by_code (_n kickback_state) (Z.to_nat 0) 0
              (random_start (_n kickback_state) (Z.to_nat 0) 0
                 (draw_lt (1 # 2) 0) (_table kickback_state)) /\
    (forall i k,
       In (i, k) calls <->
       k = Z.of_nat 0 /\
       exists j, i = Z.of_nat j /\ j < 2 * _n kickback_state /\ j <> 0 /\
         j <> 0 + _n kickback_state /\
         cell (random_start (_n kickback_state) (Z.to_nat 0) 0
                 (draw_lt (1 # 2) 0) (_table kickback_state))
              j (Z.to_nat 0) = true) /\
    cell (random_start (_n kickback_state) (Z.to_nat 0) 0
            (draw_lt (1 # 2) 0) (_table kickback_state))
         0 (Z.to_nat 0) = true /\
    (forall k, ~ In (Z.of_nat 0, k) calls).
Proof.
  assert (valid_qubit kickback_state 0) as Hq
    by (vm_compute; split; [discriminate|reflexivity]).
  assert (0 < _n kickback_state) as Hp by (vm_compute; lia).
  assert (cell (_table kickback_state) (0 + _n kickback_state) (Z.to_nat 0)
          = true) as Hx by (vm_compute; reflexivity).
  split; [apply reachable_kickback_state|]. split; [exact Hq|].
  split; [exact Hp|]. split; [exact Hx|].
  apply (C3_random_branch_calls kickback_state 0 0 0 (1 # 2)).
  - apply reachable_kickback_state.
  - exact Hq.
  - exact Hp.
  - exact Hx.
Defined.

(** * Further properties of the code *)

(** ** [MeasureResult] *)

(** X1. Two results compare equal exactly when they are the same result,
    and exactly then they have the same [repr] and the same [str]: both
    renderings determine the result. *)
Theorem Result_repr_faithful (r1 r2 : MeasureResult) :
  (Result.__eq__ r1 (PyResult r2) = Some true <-> r1 = r2) /\
  (Result.__repr__ r1 = Result.__repr__ r2 <-> r1 = r2) /\
  (Result.__str__ r1 = Result.__str__ r2 <-> r1 = r2).
Proof.
  destruct r1 as [[] []], r2 as [[] []]; split_and!; split;
    (done || discriminate || (intros [=]; done)).
Qed.

(** X2. Against a [bool] or an [int], [__eq__] looks at the value alone: a
    result equals [b] and the integer of [b] exactly when its truth value is
    [b], and equals no integer other than [0] and [1]; so a random and a
    determined result with the same value both equal that value although
    they are not equal to each other. *)
Theorem Result_eq_value (r : MeasureResult) :
  (forall b, Result.__eq__ r (PyBool b) = Some true <-> Result.__bool__ r = b) /\
  (forall b, Result.__eq__ r (PyInt (Z.b2z b)) = Some true
             <-> Result.__bool__ r = b) /\
  (forall z, z <> 0%Z -> z <> 1%Z -> Result.__eq__ r (PyInt z) = Some false) /\
  (Result.__eq__ (mkResult (value r) false) (PyBool (value r)) = Some true /\
   Result.__eq__ (mkResult (value r) true) (PyBool (value r)) = Some true /\
   Result.__eq__ (mkResult (value r) false)
     (PyResult (mkResult (value r) true)) = Some false).
Proof.
  split_and!.
  - intros b. by destruct r as [[] d], b; split; intros [=].
  - intros b. by destruct r as [[] d], b; split; intros [=].
  - intros z H0 H1. unfold Result.__eq__. f_equal.
    apply Z.eqb_neq. destruct (value r); simpl; lia.
  - by destruct r as [[] d].
  - by destruct r as [[] d].
  - by destruct r as [[] d].
Qed.

Lemma Result_eq_value_witness :
  (2 <> 0)%Z /\ (2 <> 1)%Z /\
  Result.__eq__ (mkResult true false) (PyInt 2) = Some false.
Proof.
  assert (2 <> 0)%Z as H0 by lia. assert (2 <> 1)%Z as H1 by lia.
  split; [exact H0|]. split; [exact H1|].
  exact (proj1 (proj2 (proj2 (Result_eq_value (mkResult true false))))
           2%Z H0 H1).
Defined.

(** ** Measurement outcomes *)

Lemma product_sign_zero_l n rk :
  product_sign n (replicate (2 * n + 1) false) rk = rk !!! (2 * n).
Proof.
  unfold product_sign.
  rewrite phase_sum_zero_l
    by (intros j Hj; by rewrite lookup_total_replicate_2 by lia).
  unfold r_col. rewrite lookup_total_replicate_2 by lia.
  by destruct (rk !!! (2 * n)).
Qed.

(** When a single destabilizer row has an X on the qubit, the scratch row
    ends up as the zero row times the paired stabilizer row. *)
Lemma determined_scratch_single n a i0 t k :
  (forall i, i < n -> cell t i a = bool_decide (i = i0)) -> k <= n ->
  determined_scratch n a k t =
    if decide (i0 < k)
    then row_product n (replicate (2 * n + 1) false) (t !!! (i0 + n))
    else replicate (2 * n + 1) false.
Proof.
  intros Hone. induction k as [|k IH]; intros Hk; [done|].
  rewrite determined_scratch_S, IH by lia. unfold determined_step.
  rewrite Hone by lia.
  destruct (decide (k = i0)) as [->|Hne].
  - rewrite bool_decide_eq_true_2 by done. by decide_lia.
  - rewrite bool_decide_eq_false_2 by done.
    destruct (decide (i0 < k)); decide_lia; done.
Qed.

Lemma measure_single_destabilizer n t a a' i0 bias u :
  np_index n a = Ok a' -> tableau_inv (mkSim n t) -> i0 < n ->
  (forall p, p < n -> cell t (p + n) a' = false) ->
  (forall i, i < n -> cell t i a' = bool_decide (i = i0)) ->
  measure a bias u (mkSim n t)
  = (Ok (mkResult ((t !!! (i0 + n)) !!! (2 * n)) true),
     mkSim n (determined_table n a' t)).
Proof.
  intros Ha Hinv Hi0 Hmiss Hone.
  destruct (measure_cases n t a a' bias u Ha Hinv)
    as [(p & Hp & Hhit & _)|(_ & Heq & Hrun)].
  - by rewrite Hmiss in Hhit.
  - rewrite Heq, Hrun. do 3 f_equal.
    rewrite (determined_scratch_single n a' i0) by done. decide_lia.
    rewrite lookup_row_product, decide_False, product_sign_zero_l; try done;
      try lia.
    + apply length_replicate.
    + destruct Hinv as [Hwf _ _]. apply (wf_table_lookup n); [done|lia].
Qed.

(** X3. On a freshly constructed simulator every valid qubit measures as
    [False], determined, for every bias and draw, and the rows [[0, 2n)]
    stay as constructed. *)
Theorem measure_fresh (n : nat) (q : Z) (bias u : Q) :
  valid_qubit (__init__ n) q ->
  exists s',
    measure q bias u (__init__ n) = (Ok (mkResult false true), s') /\
    _n s' = n /\
    forall i, i < 2 * n -> _table s' !!! i = _table (__init__ n) !!! i.
Proof.
  intros [Hq Hq']%valid_qubit_index. eexists. split_and!.
  - unfold __init__.
    rewrite (measure_single_destabilizer n _ q (Z.to_nat q) (Z.to_nat q));
      try done.
    + do 3 f_equal. rewrite lookup_eye by lia. apply bool_decide_eq_false_2. lia.
    + apply tableau_inv_init.
    + intros p Hp. unfold cell. rewrite lookup_eye by lia.
      apply bool_decide_eq_false_2. lia.
    + intros i Hi. unfold cell. by rewrite lookup_eye by lia.
  - done.
  - intros i Hi. simpl. unfold determined_table.
    by rewrite list_lookup_total_insert_ne by lia.
Qed.

Lemma measure_fresh_witness :
  valid_qubit (__init__ 3) 2 /\
  exists s',
    measure 2 (1 # 2) (1 # 3) (__init__ 3) = (Ok (mkResult false true), s') /\
    _n s' = 3 /\
    forall i, i < 2 * 3 -> _table s' !!! i = _table (__init__ 3) !!! i.
Proof.
  assert (valid_qubit (__init__ 3) 2) as Hq
    by (unfold valid_qubit; simpl; lia).
  split; [exact Hq|].
  apply (measure_fresh 3 2 (1 # 2) (1 # 3)). exact Hq.
Defined.

Lemma draw_lt_0 u : (0 <= u)%Q -> draw_lt u 0 = false.
Proof.
  intros Hu. unfold draw_lt. apply negb_false_iff. by apply Qle_bool_iff.
Qed.

Lemma draw_lt_1 u : (u < 1)%Q -> draw_lt u 1 = true.
Proof.
  intros Hu. unfold draw_lt. apply negb_true_iff.
  destruct (Qle_bool 1 u) eqn:E; [|done].
  apply Qle_bool_iff in E. exfalso. by apply (Qlt_not_le u 1).
Qed.

(** X4. When some stabilizer row has an X on the measured qubit, the value
    returned is the comparison [random.random() < bias] and nothing else:
    with bias [0] it is [False], with bias [1] it is [True], for every draw
    in [[0, 1)]. *)
Theorem measure_random_value (s : ChpSimulator) (q : Z) (bias u : Q) :
  reachable s -> valid_qubit s q ->
  (exists p, _n s <= p < 2 * _n s /\ cell (_table s) p (Z.to_nat q) = true) ->
  (0 <= u)%Q -> (u < 1)%Q ->
  (exists s', measure q bias u s = (Ok (mkResult (draw_lt u bias) false), s')) /\
  (exists s', measure q 0 u s = (Ok (mkResult false false), s')) /\
  (exists s', measure q 1 u s = (Ok (mkResult true false), s')).
Proof.
  intros Hinv%reachable_inv Hq (p0 & Hp0 & Hhit0) Hu0 Hu1.
  destruct s as [n t]. apply valid_qubit_index in Hq as [Hq Hq']. simpl in *.
  assert (forall b, exists s',
            measure q b u (mkSim n t) = (Ok (mkResult (draw_lt u b) false), s'))
    as Hall.
  { intros b.
    destruct (measure_cases n t q _ b u Hq Hinv)
      as [(p & Hp & Hhit & _ & Heq & Hrun)|(Hmiss & _)].
    - eexists. by rewrite Heq, Hrun.
    - specialize (Hmiss (p0 - n)).
      replace (p0 - n + n) with p0 in Hmiss by lia.
      rewrite Hmiss in Hhit0 by lia. done. }
  split_and!.
  - apply Hall.
  - destruct (Hall 0%Q) as [s' Hs']. rewrite draw_lt_0 in Hs' by done. eauto.
  - destruct (Hall 1%Q) as [s' Hs']. rewrite draw_lt_1 in Hs' by done. eauto.
Qed.

Lemma measure_random_value_witness :
  reachable plus_state /\ valid_qubit plus_state 0 /\
  (exists p, _n plus_state <= p < 2 * _n plus_state /\
             cell (_table plus_state) p (Z.to_nat 0) = true) /\
  (0 <= 3 # 4)%Q /\ (3 # 4 < 1)%Q /\
  (exists s', measure 0 (1 # 2) (3 # 4) plus_state
              = (Ok (mkResult (draw_lt (3 # 4) (1 # 2)) false), s')) /\
  (exists s', measure 0 0 (3 # 4) plus_state = (Ok (mkResult false false), s')) /\
  (exists s', measure 0 1 (3 # 4) plus_state = (Ok (mkResult true false), s')).
Proof.
  assert (1 <= _n plus_state) as Hn by (simpl; lia).
  assert (exists p, _n plus_state <= p < 2 * _n plus_state /\
             cell (_table plus_state) p (Z.to_nat 0) = true) as Hhit
    by (exists 1; split; [simpl; lia|reflexivity]).
  assert (0 <= 3 # 4)%Q as Hu0 by (unfold Qle; simpl; lia).
  assert (3 # 4 < 1)%Q as Hu1 by (unfold Qlt; simpl; lia).
  split; [apply reachable_plus_state|]. split; [exact (valid_qubit_0 _ Hn)|].
  split; [exact Hhit|]. split; [exact Hu0|]. split; [exact Hu1|].
  apply (measure_random_value plus_state 0 (1 # 2) (3 # 4)).
  - apply reachable_plus_state.
  - exact (valid_qubit_0 _ Hn).
  - exact Hhit.
  - exact Hu0.
  - exact Hu1.
Defined.

(** X5. When no stabilizer row has an X on the measured qubit, neither the
    bias nor the random draw matters: [measure] returns the same result and
    leaves the same state for all of them. *)
Theorem measure_determined_ignores_bias
    (s : ChpSimulator) (q : Z) (b1 u1 b2 u2 : Q) :
  reachable s -> valid_qubit s q ->
  (forall p, _n s <= p < 2 * _n s -> cell (_table s) p (Z.to_nat q) = false) ->
  measure q b1 u1 s = measure q b2 u2 s.
Proof.
  intros Hinv%reachable_inv Hq Hnone.
  destruct s as [n t]. apply valid_qubit_index in Hq as [Hq Hq']. simpl in *.
  pose proof (inv_length n t Hinv) as Hlen.
  rewrite !(measure_miss n t q _ Hq Hlen); try done.
  all: intros p Hp; apply Hnone; lia.
Qed.

Lemma measure_determined_ignores_bias_witness :
  reachable (__init__ 2) /\ valid_qubit (__init__ 2) 1 /\
  (forall p, 2 <= p < 4 -> cell (_table (__init__ 2)) p (Z.to_nat 1) = false) /\
  measure 1 0 (1 # 2) (__init__ 2) = measure 1 1 (1 # 3) (__init__ 2).
Proof.
  assert (valid_qubit (__init__ 2) 1) as Hq by (unfold valid_qubit; simpl; lia).
  assert (forall p, 2 <= p < 4 ->
            cell (_table (__init__ 2)) p (Z.to_nat 1) = false) as Hnone.
  { intros p Hp. assert (p = 2 \/ p = 3) as [->| ->] by lia; reflexivity. }
  split; [apply reach_init|]. split; [exact Hq|]. split; [exact Hnone|].
  apply (measure_determined_ignores_bias (__init__ 2) 1).
  - apply reach_init.
  - exact Hq.
  - exact Hnone.
Defined.

(** ** What the gates touch *)

Lemma wf_map_gate n t (f : list bool -> list bool) :
  (forall row, length row = 2 * n + 1 -> length (f row) = 2 * n + 1) ->
  wf (mkSim n t) -> wf (mkSim n (map f t)).
Proof. intros Hf Hwf. by apply wf_table_map. Qed.

Lemma cell_map n t (f : list bool -> list bool) i k :
  length t = 2 * n + 1 -> i < 2 * n + 1 ->
  cell (map f t) i k = f (t !!! i) !!! k.
Proof. intros Hlen Hi. unfold cell. by rewrite (lookup_total_map n). Qed.

(** X6. On a well-formed simulator the three gates return normally, keep
    the shape of the table, and change no bit outside the columns of their
    own qubits and the sign column: [hadamard(q)] leaves all columns but
    [x[:, q]], [z[:, q]] and [r]; [phase(q)] all but [z[:, q]] and [r];
    [cnot(c, t)] all but [x[:, t]], [z[:, c]] and [r]. *)
Theorem gate_frames (s : ChpSimulator) :
  wf s ->
  (forall q, valid_qubit s q ->
     exists s', hadamard q s = (Ok tt, s') /\ _n s' = _n s /\ wf s' /\
       forall i k, i < 2 * _n s + 1 -> k < 2 * _n s + 1 ->
         k <> Z.to_nat q -> k <> _n s + Z.to_nat q -> k <> 2 * _n s ->
         cell (_table s') i k = cell (_table s) i k) /\
  (forall q, valid_qubit s q ->
     exists s', phase q s = (Ok tt, s') /\ _n s' = _n s /\ wf s' /\
       forall i k, i < 2 * _n s + 1 -> k < 2 * _n s + 1 ->
         k <> _n s + Z.to_nat q -> k <> 2 * _n s ->
         cell (_table s') i k = cell (_table s) i k) /\
  (forall c t, valid_qubit s c -> valid_qubit s t -> c <> t ->
     exists s', cnot c t s = (Ok tt, s') /\ _n s' = _n s /\ wf s' /\
       forall i k, i < 2 * _n s + 1 -> k < 2 * _n s + 1 ->
         k <> Z.to_nat t -> k <> _n s + Z.to_nat c -> k <> 2 * _n s ->
         cell (_table s') i k = cell (_table s) i k).
Proof.
  destruct s as [n t]. intros Hwf. pose proof Hwf as [Hlen _]. simpl in *.
  split_and!.
  - intros q [Hq Hq']%valid_qubit_index. eexists.
    split; [by apply hadamard_run|]. split; [done|]. split.
    + apply wf_map_gate; [|done]. intros. by apply length_hadamard_row.
    + intros i k Hi Hk H1 H2 H3. simpl. rewrite (cell_map n) by done.
      rewrite lookup_hadamard_row
        by (done || by apply (wf_table_lookup n)).
      by decide_lia.
  - intros q [Hq Hq']%valid_qubit_index. eexists.
    split; [by apply phase_run|]. split; [done|]. split.
    + apply wf_map_gate; [|done]. intros. by apply length_phase_row.
    + intros i k Hi Hk H1 H2. simpl. rewrite (cell_map n) by done.
      rewrite lookup_phase_row
        by (done || by apply (wf_table_lookup n)).
      by decide_lia.
  - intros c tg Hc Ht Hne.
    assert (Z.to_nat c <> Z.to_nat tg)
      by (unfold valid_qubit in *; simpl in *; lia).
    apply valid_qubit_index in Hc as [Hc Hc'], Ht as [Ht Ht']. eexists.
    split; [by apply cnot_run|]. split; [done|]. split.
    + apply wf_map_gate; [|done]. intros. by apply length_cnot_row.
    + intros i k Hi Hk H1 H2 H3. simpl. rewrite (cell_map n) by done.
      rewrite lookup_cnot_row
        by (done || by apply (wf_table_lookup n)).
      by decide_lia.
Qed.

Lemma wf_epr_state : wf epr_state.
Proof. apply reachable_inv, reachable_epr_state. Qed.

Lemma gate_frames_witness :
  wf epr_state /\
  (forall q, valid_qubit epr_state q ->
     exists s', hadamard q epr_state = (Ok tt, s') /\
       _n s' = _n epr_state /\ wf s' /\
       forall i k, i < 2 * _n epr_state + 1 -> k < 2 * _n epr_state + 1 ->
         k <> Z.to_nat q -> k <> _n epr_state + Z.to_nat q ->
         k <> 2 * _n epr_state ->
         cell (_table s') i k = cell (_table epr_state) i k).
Proof.
  split; [apply wf_epr_state|].
  apply (proj1 (gate_frames epr_state wf_epr_state)).
Defined.

(** X7. [cnot] with its control equal to its target is not rejected: on a
    well-formed simulator it returns normally and clears the X and the Z bit
    of that qubit in every row, leaving the bits of the other qubits. *)
Theorem cnot_same_qubit_clears (s : ChpSimulator) (c : Z) :
  wf s -> valid_qubit s c ->
  exists s',
    cnot c c s = (Ok tt, s') /\ _n s' = _n s /\
    forall i, i < 2 * _n s + 1 ->
      cell (_table s') i (Z.to_nat c) = false /\
      cell (_table s') i (_n s + Z.to_nat c) = false /\
      forall k, k < 2 * _n s -> k <> Z.to_nat c -> k <> _n s + Z.to_nat c ->
        cell (_table s') i k = cell (_table s) i k.
Proof.
  destruct s as [n t]. intros Hwf [Hc Hc']%valid_qubit_index.
  pose proof Hwf as [Hlen _]. simpl in *. eexists.
  split; [by apply cnot_run|]. split; [done|]. intros i Hi.
  pose proof (wf_table_lookup n t i Hwf Hi) as Hrow. simpl.
  rewrite !(cell_map n) by done. unfold cnot_row, r_col.
  split_and!.
  - bits. by rewrite xorb_nilpotent.
  - bits. by rewrite xorb_nilpotent.
  - intros k Hk H1 H2. rewrite (cell_map n) by done.
    unfold cnot_row, r_col. by bits.
Qed.

Lemma cnot_same_qubit_clears_witness :
  wf epr_state /\ valid_qubit epr_state 1 /\
  exists s',
    cnot 1 1 epr_state = (Ok tt, s') /\ _n s' = _n epr_state /\
    forall i, i < 2 * _n epr_state + 1 ->
      cell (_table s') i (Z.to_nat 1) = false /\
      cell (_table s') i (_n epr_state + Z.to_nat 1) = false /\
      forall k, k < 2 * _n epr_state -> k <> Z.to_nat 1 ->
        k <> _n epr_state + Z.to_nat 1 ->
        cell (_table s') i k = cell (_table epr_state) i k.
Proof.
  assert (valid_qubit epr_state 1) as Hq by (unfold valid_qubit; simpl; lia).
  split; [apply wf_epr_state|]. split; [exact Hq|].
  apply (cnot_same_qubit_clears epr_state 1 wf_epr_state Hq).
Defined.

(** X8. [_row_mult(i, k)] on two different rows of a well-formed table:
    when the sum of the Pauli-product phases of the two rows is odd it
    raises [AssertionError] before it writes anything; otherwise it returns
    with every X and Z bit of row [i] xor-ed with that of row [k] and all
    other rows as they were. *)
Theorem row_mult_assertion (s : ChpSimulator) (i k : nat) :
  wf s -> i < 2 * _n s + 1 -> k < 2 * _n s + 1 -> i <> k ->
  (Z.odd (phase_sum (_n s) (_table s !!! i) (_table s !!! k)) = true ->
   _row_mult (Z.of_nat i) (Z.of_nat k) s = (Raise AssertionError, s)) /\
  (Z.odd (phase_sum (_n s) (_table s !!! i) (_table s !!! k)) = false ->
   exists s',
     _row_mult (Z.of_nat i) (Z.of_nat k) s = (Ok tt, s') /\
     _n s' = _n s /\ wf s' /\
     (forall j, j < 2 * _n s ->
        cell (_table s') i j = xorb (cell (_table s) i j) (cell (_table s) k j)) /\
     (forall i', i' <> i -> _table s' !!! i' = _table s !!! i')).
Proof.
  destruct s as [n t]. intros Hwf Hi Hk Hne. pose proof Hwf as [Hlen _].
  simpl in *. rewrite phase_sum_odd.
  pose proof (np_index_nat _ _ Hi) as Hi'. pose proof (np_index_nat _ _ Hk) as Hk'.
  pose proof (wf_table_lookup n t i Hwf Hi) as Hrowi.
  pose proof (wf_table_lookup n t k Hwf Hk) as Hrowk.
  split.
  - intros Hanti. by apply (_row_mult_raise n t _ _ i k).
  - intros Hcomm. eexists.
    split; [by apply (_row_mult_run n t _ _ i k)|]. simpl. split_and!.
    + done.
    + apply wf_table_insert; [by apply length_row_product|done].
    + intros j Hj. unfold cell.
      rewrite list_lookup_total_insert_eq by lia.
      rewrite lookup_row_product by (done || lia). by rewrite decide_True by lia.
    + intros i' Hi'ne. by rewrite list_lookup_total_insert_ne.
Qed.

Lemma row_mult_assertion_witness :
  wf epr_state /\ 0 < 2 * _n epr_state + 1 /\ 2 < 2 * _n epr_state + 1 /\
  0 <> 2 /\
  Z.odd (phase_sum (_n epr_state) (_table epr_state !!! 0)
           (_table epr_state !!! 2)) = true /\
  _row_mult (Z.of_nat 0) (Z.of_nat 2) epr_state
  = (Raise AssertionError, epr_state).
Proof.
  assert (0 < 2 * _n epr_state + 1) as H0 by (simpl; lia).
  assert (2 < 2 * _n epr_state + 1) as H2 by (simpl; lia).
  assert (0 <> 2) as Hne by lia.
  assert (Z.odd (phase_sum (_n epr_state) (_table epr_state !!! 0)
                   (_table epr_state !!! 2)) = true) as Hodd by reflexivity.
  split; [apply wf_epr_state|]. split; [exact H0|]. split; [exact H2|].
  split; [exact Hne|]. split; [exact Hodd|].
  apply (proj1 (row_mult_assertion epr_state 0 2 wf_epr_state H0 H2 Hne)).
  exact Hodd.
Defined.

(** ** Gates on different qubits *)

(** Compare compositions of gate row functions bit by bit: the bit index
    is one of the listed columns or none of them, and every lookup through
    a gate is resolved by arithmetic. *)
Ltac split_column k cols :=
  lazymatch cols with
  | nil => idtac
  | cons ?c ?cols' =>
      destruct (decide (k = c)) as [->|?]; [|split_column k cols']
  end.

Ltac gate_side := first [ lia | solve [eauto 14 with rowlen] ].

Ltac gate_bits :=
  repeat (first [ rewrite lookup_hadamard_row by gate_side
                | rewrite lookup_phase_row by gate_side
                | rewrite lookup_cnot_row by gate_side ];
          decide_lia).

Ltac same_row n cols :=
  apply rows_eq;
  [ transitivity (2 * n + 1); [|symmetry]; eauto 14 with rowlen
  | let k := fresh "k" in
    intros k _; split_column k cols; gate_bits; bool_cases ].

Section gates_commute.
Context (n : nat) (row : list bool) (Hlen : length row = 2 * n + 1).

Lemma hadamard_hadamard_commute a b :
  a < n -> b < n -> a <> b ->
  hadamard_row n b (hadamard_row n a row) = hadamard_row n a (hadamard_row n b row).
Proof. intros. same_row n [a; n + a; b; n + b; 2 * n]. Qed.

Lemma phase_phase_commute a b :
  a < n -> b < n -> a <> b ->
  phase_row n b (phase_row n a row) = phase_row n a (phase_row n b row).
Proof. intros. same_row n [a; n + a; b; n + b; 2 * n]. Qed.

Lemma hadamard_phase_commute a b :
  a < n -> b < n -> a <> b ->
  phase_row n b (hadamard_row n a row) = hadamard_row n a (phase_row n b row).
Proof. intros. same_row n [a; n + a; b; n + b; 2 * n]. Qed.

Lemma hadamard_cnot_commute a c t :
  a < n -> c < n -> t < n -> c <> t -> a <> c -> a <> t ->
  cnot_row n c t (hadamard_row n a row) = hadamard_row n a (cnot_row n c t row).
Proof. intros. same_row n [a; n + a; c; n + c; t; n + t; 2 * n]. Qed.

Lemma phase_cnot_commute a c t :
  a < n -> c < n -> t < n -> c <> t -> a <> c -> a <> t ->
  cnot_row n c t (phase_row n a row) = phase_row n a (cnot_row n c t row).
Proof. intros. same_row n [a; n + a; c; n + c; t; n + t; 2 * n]. Qed.
End gates_commute.

Lemma map_rows_ext n t (f g : list bool -> list bool) :
  wf_table n t ->
  (forall row, length row = 2 * n + 1 -> f row = g row) ->
  map f t = map g t.
Proof.
  intros [_ Hrows] Hfg. apply list_fmap_ext. intros i row Hrow.
  apply Hfg. by eapply Forall_lookup_1 in Hrows.
Qed.

(** X9. Gates on different qubits commute: on a well-formed simulator two
    Hadamard gates, two phase gates, or a Hadamard and a phase gate on
    distinct qubits give the same state in either order, and so do a
    Hadamard or phase gate and a CNOT that does not involve its qubit. *)
Theorem gates_on_distinct_qubits_commute (s : ChpSimulator) (a b : Z) :
  wf s -> valid_qubit s a -> valid_qubit s b -> a <> b ->
  (hadamard a ;; hadamard b) s = (hadamard b ;; hadamard a) s /\
  (phase a ;; phase b) s = (phase b ;; phase a) s /\
  (hadamard a ;; phase b) s = (phase b ;; hadamard a) s /\
  (forall c, valid_qubit s c -> c <> a -> c <> b ->
     (hadamard a ;; cnot b c) s = (cnot b c ;; hadamard a) s /\
     (phase a ;; cnot b c) s = (cnot b c ;; phase a) s).
Proof.
  destruct s as [n t]. intros Hwf Ha Hb Hne.
  assert (Z.to_nat a <> Z.to_nat b)
    by (unfold valid_qubit in *; simpl in *; lia).
  pose proof Ha as Ha0. pose proof Hb as Hb0.
  apply valid_qubit_index in Ha as [Ha Ha'], Hb as [Hb Hb'].
  unfold wf in Hwf. simpl in Hwf.
  split_and!.
  - erewrite !bind_Ok by (by apply hadamard_run).
    rewrite !(hadamard_run n _ _ _ Ha), !(hadamard_run n _ _ _ Hb), !map_map.
    do 2 f_equal. apply (map_rows_ext n); [done|]. intros row Hrow.
    by apply hadamard_hadamard_commute.
  - erewrite !bind_Ok by (by apply phase_run).
    rewrite !(phase_run n _ _ _ Ha), !(phase_run n _ _ _ Hb), !map_map.
    do 2 f_equal. apply (map_rows_ext n); [done|]. intros row Hrow.
    by apply phase_phase_commute.
  - erewrite (bind_Ok (hadamard a)) by (by apply hadamard_run).
    erewrite (bind_Ok (phase b)) by (by apply phase_run).
    rewrite (phase_run n _ _ _ Hb), (hadamard_run n _ _ _ Ha), !map_map.
    do 2 f_equal. apply (map_rows_ext n); [done|]. intros row Hrow.
    by apply hadamard_phase_commute.
  - intros c Hc Hca Hcb.
    assert (Z.to_nat c <> Z.to_nat a /\ Z.to_nat c <> Z.to_nat b) as [??]
      by (unfold valid_qubit in *; simpl in *; lia).
    apply valid_qubit_index in Hc as [Hc Hc'].
    split.
    + erewrite (bind_Ok (hadamard a)) by (by apply hadamard_run).
      erewrite (bind_Ok (cnot b c)) by (by apply cnot_run).
      rewrite (cnot_run n _ _ _ _ _ Hb Hc), (hadamard_run n _ _ _ Ha), !map_map.
      do 2 f_equal. apply (map_rows_ext n); [done|]. intros row Hrow.
      apply hadamard_cnot_commute; (done || lia).
    + erewrite (bind_Ok (phase a)) by (by apply phase_run).
      erewrite (bind_Ok (cnot b c)) by (by apply cnot_run).
      rewrite (cnot_run n _ _ _ _ _ Hb Hc), (phase_run n _ _ _ Ha), !map_map.
      do 2 f_equal. apply (map_rows_ext n); [done|]. intros row Hrow.
      apply phase_cnot_commute; (done || lia).
Qed.

Lemma gates_on_distinct_qubits_commute_witness :
  wf epr_state /\ valid_qubit epr_state 0 /\ valid_qubit epr_state 1 /\
  (0 <> 1)%Z /\
  (hadamard 0 ;; hadamard 1) epr_state = (hadamard 1 ;; hadamard 0) epr_state /\
  (phase 0 ;; phase 1) epr_state = (phase 1 ;; phase 0) epr_state /\
  (hadamard 0 ;; phase 1) epr_state = (phase 1 ;; hadamard 0) epr_state /\
  (forall c, valid_qubit epr_state c -> c <> 0%Z -> c <> 1%Z ->
     (hadamard 0 ;; cnot 1 c) epr_state = (cnot 1 c ;; hadamard 0) epr_state /\
     (phase 0 ;; cnot 1 c) epr_state = (cnot 1 c ;; phase 0) epr_state).
Proof.
  assert (valid_qubit epr_state 0) as H0 by (unfold valid_qubit; simpl; lia).
  assert (valid_qubit epr_state 1) as H1 by (unfold valid_qubit; simpl; lia).
  assert (0 <> 1)%Z as Hne by lia.
  split; [apply wf_epr_state|]. split; [exact H0|]. split; [exact H1|].
  split; [exact Hne|].
  apply (gates_on_distinct_qubits_commute epr_state 0 1 wf_epr_state H0 H1 Hne).
Defined.

(** ** Printing and measuring *)

Lemma render_rows_below_scratch s s' :
  _n s' = _n s ->
  (forall i, i < 2 * _n s -> _table s' !!! i = _table s !!! i) ->
  render_destabilizers_first s' = render_destabilizers_first s.
Proof.
  intros Hn Hrows. unfold render_destabilizers_first, render. rewrite Hn.
  f_equal. f_equal; [|f_equal].
  - apply map_ext_in. intros i Hi%in_seq. by rewrite Hrows by lia.
  - apply map_ext_in. intros i Hi%in_seq. by rewrite Hrows by lia.
Qed.

Lemma determined_measure_rows s q bias u :
  reachable s -> valid_qubit s q ->
  (forall p, _n s <= p < 2 * _n s -> cell (_table s) p (Z.to_nat q) = false) ->
  exists r s',
    measure q bias u s = (Ok r, s') /\ _n s' = _n s /\
    forall i, i < 2 * _n s -> _table s' !!! i = _table s !!! i.
Proof.
  intros Hinv%reachable_inv Hq Hnone.
  destruct s as [n t]. apply valid_qubit_index in Hq as [Hq Hq']. simpl in *.
  destruct (measure_cases n t q _ bias u Hq Hinv)
    as [(p & Hp & Hhit & _)|(Hmiss & Heq & Hrun)].
  - rewrite Hnone in Hhit by lia. done.
  - eexists _, _. split; [by rewrite Heq, Hrun|]. split; [done|].
    intros i Hi. simpl. unfold determined_table.
    by rewrite list_lookup_total_insert_ne by lia.
Qed.

(** X10. The rendering shows the rows [[0, 2n)] only; so a measurement that
    takes the determined branch, which writes the scratch row alone, leaves
    the printed tableau as it was. *)
Theorem str_after_determined_measure (s : ChpSimulator) (q : Z) (bias u : Q) :
  reachable s -> valid_qubit s q ->
  (forall p, _n s <= p < 2 * _n s -> cell (_table s) p (Z.to_nat q) = false) ->
  exists r s',
    measure q bias u s = (Ok r, s') /\
    fst (__str__ s') = fst (__str__ s).
Proof.
  intros Hreach Hq Hnone.
  destruct (determined_measure_rows s q bias u Hreach Hq Hnone)
    as (r & s' & Hrun & Hn & Hrows).
  exists r, s'. split; [done|].
  destruct s as [n t], s' as [n' t']. rewrite !__str___run. simpl.
  f_equal. by apply render_rows_below_scratch.
Qed.

Lemma str_after_determined_measure_witness :
  reachable (__init__ 2) /\ valid_qubit (__init__ 2) 1 /\
  (forall p, 2 <= p < 4 -> cell (_table (__init__ 2)) p (Z.to_nat 1) = false) /\
  exists r s',
    measure 1 (1 # 2) (1 # 2) (__init__ 2) = (Ok r, s') /\
    fst (__str__ s') = fst (__str__ (__init__ 2)).
Proof.
  assert (valid_qubit (__init__ 2) 1) as Hq by (unfold valid_qubit; simpl; lia).
  assert (forall p, 2 <= p < 4 ->
            cell (_table (__init__ 2)) p (Z.to_nat 1) = false) as Hnone.
  { intros p Hp. assert (p = 2 \/ p = 3) as [->| ->] by lia; reflexivity. }
  split; [apply reach_init|]. split; [exact Hq|]. split; [exact Hnone|].
  apply (str_after_determined_measure (__init__ 2) 1 (1 # 2) (1 # 2)).
  - apply reach_init.
  - exact Hq.
  - exact Hnone.
Defined.

(** ** The derived gates *)

Section derived_rows.
Context (n a : nat) (row : list bool).
Context (Hlen : length row = 2 * n + 1) (Ha : a < n).

Lemma length_pauli_x_row : length (pauli_x_row n a row) = 2 * n + 1.
Proof. unfold pauli_x_row. eauto 8 with rowlen. Qed.

Lemma length_pauli_z_row : length (pauli_z_row n a row) = 2 * n + 1.
Proof. unfold pauli_z_row. eauto 8 with rowlen. Qed.

Lemma length_pauli_y_row : length (pauli_y_row n a row) = 2 * n + 1.
Proof. unfold pauli_y_row. eauto 8 with rowlen. Qed.

(** The Pauli gates change the sign bit only. *)
Lemma lookup_pauli_x_row k :
  k < 2 * n + 1 ->
  pauli_x_row n a row !!! k =
    if decide (k = 2 * n) then xorb (row !!! (2 * n)) (row !!! (n + a))
    else row !!! k.
Proof.
  intros Hk. unfold pauli_x_row.
  split_column k [a; n + a; 2 * n]; gate_bits; bool_cases.
Qed.

Lemma lookup_pauli_z_row k :
  k < 2 * n + 1 ->
  pauli_z_row n a row !!! k =
    if decide (k = 2 * n) then xorb (row !!! (2 * n)) (row !!! a)
    else row !!! k.
Proof.
  intros Hk. unfold pauli_z_row.
  split_column k [a; n + a; 2 * n]; gate_bits; bool_cases.
Qed.

Lemma lookup_pauli_y_row k :
  k < 2 * n + 1 ->
  pauli_y_row n a row !!! k =
    if decide (k = 2 * n)
    then xorb (row !!! (2 * n)) (xorb (row !!! a) (row !!! (n + a)))
    else row !!! k.
Proof.
  intros Hk. unfold pauli_y_row.
  split_column k [a; n + a; 2 * n]; gate_bits; bool_cases.
Qed.

Lemma pauli_x_row_twice : pauli_x_row n a (pauli_x_row n a row) = row.
Proof.
  unfold pauli_x_row. same_row n [a; n + a; 2 * n].
Qed.

Lemma pauli_y_row_twice : pauli_y_row n a (pauli_y_row n a row) = row.
Proof. unfold pauli_y_row. same_row n [a; n + a; 2 * n]. Qed.

Lemma pauli_z_row_twice : pauli_z_row n a (pauli_z_row n a row) = row.
Proof. unfold pauli_z_row. same_row n [a; n + a; 2 * n]. Qed.

Lemma pauli_y_row_z_x :
  pauli_y_row n a row = pauli_x_row n a (pauli_z_row n a row).
Proof. unfold pauli_y_row, pauli_x_row, pauli_z_row. reflexivity. Qed.

Lemma pauli_x_z_row_commute :
  pauli_x_row n a (pauli_z_row n a row) = pauli_z_row n a (pauli_x_row n a row).
Proof. unfold pauli_x_row, pauli_z_row. same_row n [a; n + a; 2 * n]. Qed.

Lemma sqrt_x_row_dag : sqrt_x_dag_row n a (sqrt_x_row n a row) = row.
Proof. unfold sqrt_x_dag_row, sqrt_x_row. same_row n [a; n + a; 2 * n]. Qed.

Lemma sqrt_x_dag_row_undo : sqrt_x_row n a (sqrt_x_dag_row n a row) = row.
Proof. unfold sqrt_x_dag_row, sqrt_x_row. same_row n [a; n + a; 2 * n]. Qed.

Lemma sqrt_z_row_dag : sqrt_z_dag_row n a (phase_row n a row) = row.
Proof. unfold sqrt_z_dag_row. same_row n [a; n + a; 2 * n]. Qed.

Lemma sqrt_z_dag_row_undo : phase_row n a (sqrt_z_dag_row n a row) = row.
Proof. unfold sqrt_z_dag_row. same_row n [a; n + a; 2 * n]. Qed.

Lemma sqrt_x_row_twice :
  sqrt_x_row n a (sqrt_x_row n a row) = pauli_x_row n a row.
Proof. unfold sqrt_x_row, pauli_x_row. same_row n [a; n + a; 2 * n]. Qed.

Lemma sqrt_x_dag_row_twice :
  sqrt_x_dag_row n a (sqrt_x_dag_row n a row) = pauli_x_row n a row.
Proof. unfold sqrt_x_dag_row, pauli_x_row. same_row n [a; n + a; 2 * n]. Qed.

Lemma h_yz_row_twice : h_yz_row n a (h_yz_row n a row) = row.
Proof. unfold h_yz_row. same_row n [a; n + a; 2 * n]. Qed.

Lemma h_xy_row_twice : h_xy_row n a (h_xy_row n a row) = row.
Proof. unfold h_xy_row. same_row n [a; n + a; 2 * n]. Qed.
End derived_rows.

Section derived_rows_two.
Context (n a b : nat) (row : list bool).
Context (Hlen : length row = 2 * n + 1) (Ha : a < n) (Hb : b < n) (Hab : a <> b).

Lemma cz_row_twice : cz_row n a b (cz_row n a b row) = row.
Proof. unfold cz_row. same_row n [a; n + a; b; n + b; 2 * n]. Qed.

Lemma xnot_row_twice : xnot_row n a b (xnot_row n a b row) = row.
Proof. unfold xnot_row. same_row n [a; n + a; b; n + b; 2 * n]. Qed.

Lemma cz_row_sym : cz_row n a b row = cz_row n b a row.
Proof. unfold cz_row. same_row n [a; n + a; b; n + b; 2 * n]. Qed.

Lemma xnot_row_sym : xnot_row n a b row = xnot_row n b a row.
Proof. unfold xnot_row. same_row n [a; n + a; b; n + b; 2 * n]. Qed.
End derived_rows_two.

(** *** The derived gates on a state [mkSim n t] *)

Ltac run_gates :=
  cbn [self_hadamard self_phase self_cnot self_measure ChpSimulator_core];
  repeat first [ run_with hadamard_run | run_with phase_run
               | run_with cnot_run ];
  rewrite ?map_map;
  unfold pauli_x_row, pauli_y_row, pauli_z_row, sqrt_x_row, sqrt_x_dag_row,
    sqrt_z_dag_row, h_yz_row, h_xy_row, xnot_row, cz_row;
  try reflexivity.

Section derived_run.
Context (n : nat) (t : list (list bool)) (a : Z) (a' : nat).
Context (Ha : np_index n a = Ok a').

Lemma x_run :
  StabilizerSim.x a (mkSim n t) = (Ok tt, mkSim n (map (pauli_x_row n a') t)).
Proof. unfold StabilizerSim.x. run_gates. Qed.

Lemma y_run :
  StabilizerSim.y a (mkSim n t) = (Ok tt, mkSim n (map (pauli_y_row n a') t)).
Proof. unfold StabilizerSim.y. run_gates. Qed.

Lemma z_run :
  StabilizerSim.z a (mkSim n t) = (Ok tt, mkSim n (map (pauli_z_row n a') t)).
Proof. unfold StabilizerSim.z. run_gates. Qed.

Lemma sqrt_x_run :
  StabilizerSim.sqrt_x a (mkSim n t)
  = (Ok tt, mkSim n (map (sqrt_x_row n a') t)).
Proof. unfold StabilizerSim.sqrt_x. run_gates. Qed.

Lemma sqrt_x_dag_run :
  StabilizerSim.sqrt_x_dag a (mkSim n t)
  = (Ok tt, mkSim n (map (sqrt_x_dag_row n a') t)).
Proof. unfold StabilizerSim.sqrt_x_dag. run_gates. Qed.

Lemma sqrt_z_run :
  StabilizerSim.sqrt_z a (mkSim n t) = (Ok tt, mkSim n (map (phase_row n a') t)).
Proof. unfold StabilizerSim.sqrt_z. run_gates. Qed.

Lemma sqrt_z_dag_run :
  StabilizerSim.sqrt_z_dag a (mkSim n t)
  = (Ok tt, mkSim n (map (sqrt_z_dag_row n a') t)).
Proof. unfold StabilizerSim.sqrt_z_dag. run_gates. Qed.

Lemma h_xz_run :
  StabilizerSim.h_xz a (mkSim n t)
  = (Ok tt, mkSim n (map (hadamard_row n a') t)).
Proof. unfold StabilizerSim.h_xz. run_gates. Qed.

Lemma h_yz_run :
  StabilizerSim.h_yz a (mkSim n t) = (Ok tt, mkSim n (map (h_yz_row n a') t)).
Proof. unfold StabilizerSim.h_yz. run_gates. Qed.

Lemma h_xy_run :
  StabilizerSim.h_xy a (mkSim n t) = (Ok tt, mkSim n (map (h_xy_row n a') t)).
Proof. unfold StabilizerSim.h_xy. run_gates. Qed.

Lemma xnot_run b b' :
  np_index n b = Ok b' ->
  StabilizerSim.xnot a b (mkSim n t)
  = (Ok tt, mkSim n (map (xnot_row n a' b') t)).
Proof. intros Hb. unfold StabilizerSim.xnot. run_gates. Qed.

Lemma cz_run b b' :
  np_index n b = Ok b' ->
  StabilizerSim.cz a b (mkSim n t)
  = (Ok tt, mkSim n (map (cz_row n a' b') t)).
Proof. intros Hb. unfold StabilizerSim.cz. run_gates. Qed.
End derived_run.

(** Two gates in a row, each a map over the rows. *)
Lemma two_maps_run n t (g1 g2 : M unit) (f1 f2 : list bool -> list bool) :
  (forall t0, g1 (mkSim n t0) = (Ok tt, mkSim n (map f1 t0))) ->
  (forall t0, g2 (mkSim n t0) = (Ok tt, mkSim n (map f2 t0))) ->
  (g1 ;; g2) (mkSim n t) = (Ok tt, mkSim n (map (fun row => f2 (f1 row)) t)).
Proof.
  intros H1 H2. erewrite bind_Ok by apply H1. by rewrite H2, map_map.
Qed.

Lemma two_maps_id n t (g1 g2 : M unit) (f1 f2 : list bool -> list bool) :
  wf_table n t ->
  (forall t0, g1 (mkSim n t0) = (Ok tt, mkSim n (map f1 t0))) ->
  (forall t0, g2 (mkSim n t0) = (Ok tt, mkSim n (map f2 t0))) ->
  (forall row, length row = 2 * n + 1 -> f2 (f1 row) = row) ->
  (g1 ;; g2) (mkSim n t) = (Ok tt, mkSim n t).
Proof.
  intros Hwf H1 H2 Hid. rewrite (two_maps_run n t g1 g2 f1 f2) by done.
  do 2 f_equal. by apply (map_rows_id n).
Qed.

Lemma run_map_ext n t (f g : list bool -> list bool) :
  wf_table n t ->
  (forall row, length row = 2 * n + 1 -> f row = g row) ->
  (Ok tt, mkSim n (map f t)) = (Ok tt, mkSim n (map g t)).
Proof. intros Hwf Hfg. by rewrite (map_rows_ext n t f g). Qed.

(** X11. The Pauli gates change signs only.  On a well-formed simulator
    [x(a)], [y(a)] and [z(a)] return normally and leave every X and Z bit;
    [x(a)] flips the sign of the rows with a Z bit on [a], [z(a)] of those
    with an X bit on [a], and [y(a)] of those where the two bits differ. *)
Theorem pauli_gates_flip_signs (s : ChpSimulator) (a : Z) :
  wf s -> valid_qubit s a ->
  exists sx sy sz,
    StabilizerSim.x a s = (Ok tt, sx) /\
    StabilizerSim.y a s = (Ok tt, sy) /\
    StabilizerSim.z a s = (Ok tt, sz) /\
    _n sx = _n s /\ _n sy = _n s /\ _n sz = _n s /\
    forall i, i < 2 * _n s + 1 ->
      (forall k, k < 2 * _n s ->
         cell (_table sx) i k = cell (_table s) i k /\
         cell (_table sy) i k = cell (_table s) i k /\
         cell (_table sz) i k = cell (_table s) i k) /\
      cell (_table sx) i (2 * _n s)
      = xorb (cell (_table s) i (2 * _n s))
             (cell (_table s) i (_n s + Z.to_nat a)) /\
      cell (_table sy) i (2 * _n s)
      = xorb (cell (_table s) i (2 * _n s))
             (xorb (cell (_table s) i (Z.to_nat a))
                   (cell (_table s) i (_n s + Z.to_nat a))) /\
      cell (_table sz) i (2 * _n s)
      = xorb (cell (_table s) i (2 * _n s)) (cell (_table s) i (Z.to_nat a)).
Proof.
  destruct s as [n t]. intros Hwf [Ha Ha']%valid_qubit_index.
  pose proof Hwf as [Hlen _]. simpl in *.
  eexists _, _, _.
  split; [by apply x_run|]. split; [by apply y_run|]. split; [by apply z_run|].
  split; [done|]. split; [done|]. split; [done|].
  intros i Hi. pose proof (wf_table_lookup n t i Hwf Hi) as Hrow. simpl.
  rewrite !(cell_map n) by done. split_and!.
  - intros k Hk. rewrite !(cell_map n) by (done || lia).
    rewrite lookup_pauli_x_row, lookup_pauli_y_row, lookup_pauli_z_row
      by (done || lia).
    by decide_lia.
  - rewrite lookup_pauli_x_row by (done || lia). by decide_lia.
  - rewrite lookup_pauli_y_row by (done || lia). by decide_lia.
  - rewrite lookup_pauli_z_row by (done || lia). by decide_lia.
Qed.

Lemma pauli_gates_flip_signs_witness :
  wf epr_state /\ valid_qubit epr_state 1 /\
  exists sx sy sz,
    StabilizerSim.x 1 epr_state = (Ok tt, sx) /\
    StabilizerSim.y 1 epr_state = (Ok tt, sy) /\
    StabilizerSim.z 1 epr_state = (Ok tt, sz) /\
    _n sx = _n epr_state /\ _n sy = _n epr_state /\ _n sz = _n epr_state /\
    forall i, i < 2 * _n epr_state + 1 ->
      (forall k, k < 2 * _n epr_state ->
         cell (_table sx) i k = cell (_table epr_state) i k /\
         cell (_table sy) i k = cell (_table epr_state) i k /\
         cell (_table sz) i k = cell (_table epr_state) i k) /\
      cell (_table sx) i (2 * _n epr_state)
      = xorb (cell (_table epr_state) i (2 * _n epr_state))
             (cell (_table epr_state) i (_n epr_state + Z.to_nat 1)) /\
      cell (_table sy) i (2 * _n epr_state)
      = xorb (cell (_table epr_state) i (2 * _n epr_state))
             (xorb (cell (_table epr_state) i (Z.to_nat 1))
                   (cell (_table epr_state) i (_n epr_state + Z.to_nat 1))) /\
      cell (_table sz) i (2 * _n epr_state)
      = xorb (cell (_table epr_state) i (2 * _n epr_state))
             (cell (_table epr_state) i (Z.to_nat 1)).
Proof.
  assert (valid_qubit epr_state 1) as Hq by (unfold valid_qubit; simpl; lia).
  split; [apply wf_epr_state|]. split; [exact Hq|].
  apply (pauli_gates_flip_signs epr_state 1 wf_epr_state Hq).
Defined.

(** X12. Each derived single-qubit gate is undone by its inverse: on a
    well-formed simulator [x], [y], [z], [h_xz], [h_yz] and [h_xy] applied
    twice, and [sqrt_x] with [sqrt_x_dag] and [sqrt_z] with [sqrt_z_dag] in
    either order, return normally and restore the whole table. *)
Theorem derived_gate_inverses (s : ChpSimulator) (a : Z) :
  wf s -> valid_qubit s a ->
  (StabilizerSim.x a ;; StabilizerSim.x a) s = (Ok tt, s) /\
  (StabilizerSim.y a ;; StabilizerSim.y a) s = (Ok tt, s) /\
  (StabilizerSim.z a ;; StabilizerSim.z a) s = (Ok tt, s) /\
  (StabilizerSim.h_xz a ;; StabilizerSim.h_xz a) s = (Ok tt, s) /\
  (StabilizerSim.h_yz a ;; StabilizerSim.h_yz a) s = (Ok tt, s) /\
  (StabilizerSim.h_xy a ;; StabilizerSim.h_xy a) s = (Ok tt, s) /\
  (StabilizerSim.sqrt_x a ;; StabilizerSim.sqrt_x_dag a) s = (Ok tt, s) /\
  (StabilizerSim.sqrt_x_dag a ;; StabilizerSim.sqrt_x a) s = (Ok tt, s) /\
  (StabilizerSim.sqrt_z a ;; StabilizerSim.sqrt_z_dag a) s = (Ok tt, s) /\
  (StabilizerSim.sqrt_z_dag a ;; StabilizerSim.sqrt_z a) s = (Ok tt, s).
Proof.
  destruct s as [n t]. intros Hwf [Ha Ha']%valid_qubit_index.
  unfold wf in Hwf. simpl in Hwf.
  split_and!.
  - eapply (two_maps_id n); [done|intros; by apply x_run..|].
    intros. by apply pauli_x_row_twice.
  - eapply (two_maps_id n); [done|intros; by apply y_run..|].
    intros. by apply pauli_y_row_twice.
  - eapply (two_maps_id n); [done|intros; by apply z_run..|].
    intros. by apply pauli_z_row_twice.
  - eapply (two_maps_id n); [done|intros; by apply h_xz_run..|].
    intros. by apply hadamard_row_twice.
  - eapply (two_maps_id n); [done|intros; by apply h_yz_run..|].
    intros. by apply h_yz_row_twice.
  - eapply (two_maps_id n); [done|intros; by apply h_xy_run..|].
    intros. by apply h_xy_row_twice.
  - eapply (two_maps_id n);
      [done|intros; by apply sqrt_x_run|intros; by apply sqrt_x_dag_run|].
    intros. by apply sqrt_x_row_dag.
  - eapply (two_maps_id n);
      [done|intros; by apply sqrt_x_dag_run|intros; by apply sqrt_x_run|].
    intros. by apply sqrt_x_dag_row_undo.
  - eapply (two_maps_id n);
      [done|intros; by apply sqrt_z_run|intros; by apply sqrt_z_dag_run|].
    intros. by apply sqrt_z_row_dag.
  - eapply (two_maps_id n);
      [done|intros; by apply sqrt_z_dag_run|intros; by apply sqrt_z_run|].
    intros. by apply sqrt_z_dag_row_undo.
Qed.

Lemma derived_gate_inverses_witness :
  wf epr_state /\ valid_qubit epr_state 1 /\
  (StabilizerSim.x 1 ;; StabilizerSim.x 1) epr_state = (Ok tt, epr_state) /\
  (StabilizerSim.y 1 ;; StabilizerSim.y 1) epr_state = (Ok tt, epr_state) /\
  (StabilizerSim.z 1 ;; StabilizerSim.z 1) epr_state = (Ok tt, epr_state) /\
  (StabilizerSim.h_xz 1 ;; StabilizerSim.h_xz 1) epr_state = (Ok tt, epr_state) /\
  (StabilizerSim.h_yz 1 ;; StabilizerSim.h_yz 1) epr_state = (Ok tt, epr_state) /\
  (StabilizerSim.h_xy 1 ;; StabilizerSim.h_xy 1) epr_state = (Ok tt, epr_state) /\
  (StabilizerSim.sqrt_x 1 ;; StabilizerSim.sqrt_x_dag 1) epr_state
  = (Ok tt, epr_state) /\
  (StabilizerSim.sqrt_x_dag 1 ;; StabilizerSim.sqrt_x 1) epr_state
  = (Ok tt, epr_state) /\
  (StabilizerSim.sqrt_z 1 ;; StabilizerSim.sqrt_z_dag 1) epr_state
  = (Ok tt, epr_state) /\
  (StabilizerSim.sqrt_z_dag 1 ;; StabilizerSim.sqrt_z 1) epr_state
  = (Ok tt, epr_state).
Proof.
  assert (valid_qubit epr_state 1) as Hq by (unfold valid_qubit; simpl; lia).
  split; [apply wf_epr_state|]. split; [exact Hq|].
  apply (derived_gate_inverses epr_state 1 wf_epr_state Hq).
Defined.

(** X13. The square roots square to the Pauli gates, and [y] is [z]
    followed by [x] in either order: on a well-formed simulator
    [sqrt_x; sqrt_x] and [sqrt_x_dag; sqrt_x_dag] give the state of [x],
    [sqrt_z; sqrt_z] and [sqrt_z_dag; sqrt_z_dag] that of [z], and
    [z; x] and [x; z] that of [y]. *)
Theorem derived_gate_squares (s : ChpSimulator) (a : Z) :
  wf s -> valid_qubit s a ->
  (StabilizerSim.sqrt_x a ;; StabilizerSim.sqrt_x a) s = StabilizerSim.x a s /\
  (StabilizerSim.sqrt_x_dag a ;; StabilizerSim.sqrt_x_dag a) s
  = StabilizerSim.x a s /\
  (StabilizerSim.sqrt_z a ;; StabilizerSim.sqrt_z a) s = StabilizerSim.z a s /\
  (StabilizerSim.sqrt_z_dag a ;; StabilizerSim.sqrt_z_dag a) s
  = StabilizerSim.z a s /\
  (StabilizerSim.z a ;; StabilizerSim.x a) s = StabilizerSim.y a s /\
  (StabilizerSim.x a ;; StabilizerSim.z a) s = StabilizerSim.y a s.
Proof.
  destruct s as [n t]. intros Hwf [Ha Ha']%valid_qubit_index.
  unfold wf in Hwf. simpl in Hwf.
  split_and!.
  - erewrite (two_maps_run n); [|intros; by apply sqrt_x_run..].
    rewrite (x_run n t a _ Ha). apply (run_map_ext n); [done|]. intros. cbv beta.
    by rewrite sqrt_x_row_twice by done.
  - erewrite (two_maps_run n); [|intros; by apply sqrt_x_dag_run..].
    rewrite (x_run n t a _ Ha). apply (run_map_ext n); [done|]. intros. cbv beta.
    by rewrite sqrt_x_dag_row_twice by done.
  - erewrite (two_maps_run n); [|intros; by apply sqrt_z_run..].
    by rewrite (z_run n t a _ Ha).
  - erewrite (two_maps_run n); [|intros; by apply sqrt_z_dag_run..].
    rewrite (z_run n t a _ Ha). apply (run_map_ext n); [done|]. intros row Hrow.
    cbv beta. unfold sqrt_z_dag_row, pauli_z_row.
    by rewrite phase_row_four by eauto with rowlen.
  - erewrite (two_maps_run n);
      [|intros; by apply z_run|intros; by apply x_run].
    rewrite (y_run n t a _ Ha). apply (run_map_ext n); [done|]. intros. cbv beta.
    by rewrite pauli_y_row_z_x.
  - erewrite (two_maps_run n);
      [|intros; by apply x_run|intros; by apply z_run].
    rewrite (y_run n t a _ Ha). apply (run_map_ext n); [done|]. intros. cbv beta.
    by rewrite <- pauli_x_z_row_commute, pauli_y_row_z_x by done.
Qed.

Lemma derived_gate_squares_witness :
  wf epr_state /\ valid_qubit epr_state 0 /\
  (StabilizerSim.sqrt_x 0 ;; StabilizerSim.sqrt_x 0) epr_state
  = StabilizerSim.x 0 epr_state /\
  (StabilizerSim.sqrt_x_dag 0 ;; StabilizerSim.sqrt_x_dag 0) epr_state
  = StabilizerSim.x 0 epr_state /\
  (StabilizerSim.sqrt_z 0 ;; StabilizerSim.sqrt_z 0) epr_state
  = StabilizerSim.z 0 epr_state /\
  (StabilizerSim.sqrt_z_dag 0 ;; StabilizerSim.sqrt_z_dag 0) epr_state
  = StabilizerSim.z 0 epr_state /\
  (StabilizerSim.z 0 ;; StabilizerSim.x 0) epr_state
  = StabilizerSim.y 0 epr_state /\
  (StabilizerSim.x 0 ;; StabilizerSim.z 0) epr_state
  = StabilizerSim.y 0 epr_state.
Proof.
  assert (valid_qubit epr_state 0) as Hq by (unfold valid_qubit; simpl; lia).
  split; [apply wf_epr_state|]. split; [exact Hq|].
  apply (derived_gate_squares epr_state 0 wf_epr_state Hq).
Defined.

(** X14. The two-qubit derived gates: on a well-formed simulator and two
    distinct valid qubits, [cz] and [xnot] are their own inverses and do
    not depend on the order of their two arguments. *)
Theorem two_qubit_derived_gates (s : ChpSimulator) (a b : Z) :
  wf s -> valid_qubit s a -> valid_qubit s b -> a <> b ->
  (StabilizerSim.cz a b ;; StabilizerSim.cz a b) s = (Ok tt, s) /\
  (StabilizerSim.xnot a b ;; StabilizerSim.xnot a b) s = (Ok tt, s) /\
  StabilizerSim.cz a b s = StabilizerSim.cz b a s /\
  StabilizerSim.xnot a b s = StabilizerSim.xnot b a s.
Proof.
  destruct s as [n t]. intros Hwf Ha Hb Hne.
  assert (Z.to_nat a <> Z.to_nat b)
    by (unfold valid_qubit in *; simpl in *; lia).
  apply valid_qubit_index in Ha as [Ha Ha'], Hb as [Hb Hb'].
  unfold wf in Hwf. simpl in Hwf.
  split_and!.
  - eapply (two_maps_id n); [done|intros; by apply cz_run..|].
    intros. by apply cz_row_twice.
  - eapply (two_maps_id n); [done|intros; by apply xnot_run..|].
    intros. by apply xnot_row_twice.
  - rewrite (cz_run n t a _ Ha b _ Hb), (cz_run n t b _ Hb a _ Ha).
    apply (run_map_ext n); [done|]. intros.
    by apply cz_row_sym.
  - rewrite (xnot_run n t a _ Ha b _ Hb), (xnot_run n t b _ Hb a _ Ha).
    apply (run_map_ext n); [done|]. intros.
    by apply xnot_row_sym.
Qed.

Lemma two_qubit_derived_gates_witness :
  wf epr_state /\ valid_qubit epr_state 0 /\ valid_qubit epr_state 1 /\
  (0 <> 1)%Z /\
  (StabilizerSim.cz 0 1 ;; StabilizerSim.cz 0 1) epr_state = (Ok tt, epr_state) /\
  (StabilizerSim.xnot 0 1 ;; StabilizerSim.xnot 0 1) epr_state
  = (Ok tt, epr_state) /\
  StabilizerSim.cz 0 1 epr_state = StabilizerSim.cz 1 0 epr_state /\
  StabilizerSim.xnot 0 1 epr_state = StabilizerSim.xnot 1 0 epr_state.
Proof.
  assert (valid_qubit epr_state 0) as H0 by (unfold valid_qubit; simpl; lia).
  assert (valid_qubit epr_state 1) as H1 by (unfold valid_qubit; simpl; lia).
  assert (0 <> 1)%Z as Hne by lia.
  split; [apply wf_epr_state|]. split; [exact H0|]. split; [exact H1|].
  split; [exact Hne|].
  apply (two_qubit_derived_gates epr_state 0 1 wf_epr_state H0 H1 Hne).
Defined.

(** ** Measuring twice in another basis *)

Lemma measure_shape n t q bias u :
  valid_qubit (mkSim n t) q -> tableau_inv (mkSim n t) ->
  exists r t',
    measure q bias u (mkSim n t) = (Ok r, mkSim n t') /\
    tableau_inv (mkSim n t').
Proof.
  intros [Hq Hq']%valid_qubit_index Hinv.
  destruct (measure_cases n t q _ bias u Hq Hinv)
    as [(p & Hp & Hhit & _ & Heq & Hrun)|(Hmiss & Heq & Hrun)];
    rewrite Heq, Hrun; eexists _, _; (split; [done|]).
  - by apply tableau_inv_random.
  - by apply tableau_inv_determined.
Qed.

Lemma measure_twice_inv n t q b1 u1 b2 u2 :
  valid_qubit (mkSim n t) q -> tableau_inv (mkSim n t) ->
  exists r1 t1 r2 t2,
    measure q b1 u1 (mkSim n t) = (Ok r1, mkSim n t1) /\
    tableau_inv (mkSim n t1) /\
    measure q b2 u2 (mkSim n t1) = (Ok r2, mkSim n t2) /\
    tableau_inv (mkSim n t2) /\
    value r2 = value r1 /\ determined r2 = true.
Proof.
  intros Hv Hinv.
  assert (q = Z.of_nat (Z.to_nat q)) as Hqnat
    by (unfold valid_qubit in Hv; simpl in Hv; lia).
  pose proof Hv as [Hq Hq']%valid_qubit_index.
  assert (forall t0, valid_qubit (mkSim n t0) q) as Hv' by (intros; exact Hv).
  destruct (measure_cases n t q _ b1 u1 Hq Hinv)
    as [(p & Hp & Hhit & _ & Heq & Hrun)|(Hmiss & Heq & Hrun)].
  - assert (tableau_inv (mkSim n (random_table n (Z.to_nat q) p
                                    (draw_lt u1 b1) t))) as Hinv1
      by (by apply tableau_inv_random).
    destruct (measure_shape n _ q b2 u2 (Hv' _) Hinv1) as (r2 & t2 & Hm2 & Hinv2).
    destruct (remeasure_after_random n (Z.to_nat q) p (draw_lt u1 b1) t)
      with (bias := b2) (u := u2) as [s2 Hs2]; try done;
      [by rewrite <- Hqnat|].
    rewrite <- Hqnat, Hm2 in Hs2. injection Hs2 as -> _.
    eexists _, _, _, _. split; [by rewrite Heq, Hrun|]. by split_and!.
  - assert (tableau_inv (mkSim n (determined_table n (Z.to_nat q) t)))
      as Hinv1 by (by apply tableau_inv_determined).
    destruct (measure_shape n _ q b2 u2 (Hv' _) Hinv1) as (r2 & t2 & Hm2 & Hinv2).
    destruct (remeasure_after_determined n (Z.to_nat q) t)
      with (bias := b2) (u := u2) as [s2 Hs2]; try done;
      [by rewrite <- Hqnat|].
    rewrite <- Hqnat, Hm2 in Hs2. injection Hs2 as -> _.
    eexists _, _, _, _. split; [by rewrite Heq, Hrun|]. by split_and!.
Qed.

(** A measurement between a basis change [g] and the same basis change
    again, when [g] maps an involution [f] over the rows. *)
Lemma conjugated_measure_twice n t q (g : M unit) f b1 u1 b2 u2 :
  valid_qubit (mkSim n t) q -> tableau_inv (mkSim n t) ->
  (forall t0, g (mkSim n t0) = (Ok tt, mkSim n (map f t0))) ->
  (forall t0, tableau_inv (mkSim n t0) -> tableau_inv (mkSim n (map f t0))) ->
  (forall row, length row = 2 * n + 1 -> f (f row) = row) ->
  exists r1 s1 r2 s2,
    (g ;; v <- measure q b1 u1 ;; g ;; ret v) (mkSim n t) = (Ok r1, s1) /\
    (g ;; v <- measure q b2 u2 ;; g ;; ret v) s1 = (Ok r2, s2) /\
    value r2 = value r1 /\ determined r2 = true.
Proof.
  intros Hv Hinv Hg Hf Hff.
  assert (valid_qubit (mkSim n (map f t)) q) as Hv' by exact Hv.
  destruct (measure_twice_inv n (map f t) q b1 u1 b2 u2 Hv' (Hf _ Hinv))
    as (r1 & t1 & r2 & t2 & Hm1 & Hinv1 & Hm2 & Hinv2 & Hval & Hdet).
  exists r1, (mkSim n (map f t1)), r2, (mkSim n (map f t2)).
  split_and!; try done.
  - erewrite bind_Ok by apply Hg. erewrite bind_Ok by apply Hm1.
    by erewrite bind_Ok by apply Hg.
  - erewrite bind_Ok by apply Hg.
    rewrite map_map, (map_rows_id n t1 (fun row => f (f row)))
      by (done || by destruct Hinv1).
    erewrite bind_Ok by apply Hm2.
    by erewrite bind_Ok by apply Hg.
Qed.

Lemma tableau_inv_h_yz n t q :
  q < n ->
  tableau_inv (mkSim n t) -> tableau_inv (mkSim n (map (h_yz_row n q) t)).
Proof.
  intros Hq Hinv.
  replace (map (h_yz_row n q) t) with
    (map (phase_row n q) (map (phase_row n q) (map (hadamard_row n q)
       (map (phase_row n q) (map (hadamard_row n q) t)))))
    by (rewrite !map_map; apply map_ext; intros row; unfold h_yz_row;
        reflexivity).
  repeat (first [apply tableau_inv_phase | apply tableau_inv_hadamard];
          [done|]).
  done.
Qed.

(** X15. Measuring twice in the X or the Y basis: on a reachable state and
    a valid qubit, [measure_x] followed at once by [measure_x] of the same
    qubit returns twice the same value, the second time with
    [determined = true], whatever the biases and the random draws; and so
    does [measure_y] followed by [measure_y]. *)
Theorem basis_measure_twice (s : ChpSimulator) (a : Z) (b1 u1 b2 u2 : Q) :
  reachable s -> valid_qubit s a ->
  (exists r1 s1 r2 s2,
     StabilizerSim.measure_x a b1 u1 s = (Ok r1, s1) /\
     StabilizerSim.measure_x a b2 u2 s1 = (Ok r2, s2) /\
     value r2 = value r1 /\ determined r2 = true) /\
  (exists r1 s1 r2 s2,
     StabilizerSim.measure_y a b1 u1 s = (Ok r1, s1) /\
     StabilizerSim.measure_y a b2 u2 s1 = (Ok r2, s2) /\
     value r2 = value r1 /\ determined r2 = true).
Proof.
  intros Hinv%reachable_inv Hv. destruct s as [n t].
  pose proof Hv as [Ha Ha']%valid_qubit_index.
  split.
  - apply (conjugated_measure_twice n t a (hadamard a)
             (hadamard_row n (Z.to_nat a))); try done.
    + intros. by apply hadamard_run.
    + intros. by apply tableau_inv_hadamard.
    + intros. by apply hadamard_row_twice.
  - apply (conjugated_measure_twice n t a (StabilizerSim.h_yz a)
             (h_yz_row n (Z.to_nat a))); try done.
    + intros. by apply h_yz_run.
    + intros. by apply tableau_inv_h_yz.
    + intros. by apply h_yz_row_twice.
Qed.

Lemma basis_measure_twice_witness :
  reachable epr_state /\ valid_qubit epr_state 1 /\
  (exists r1 s1 r2 s2,
     StabilizerSim.measure_x 1 1 (1 # 3) epr_state = (Ok r1, s1) /\
     StabilizerSim.measure_x 1 0 (2 # 3) s1 = (Ok r2, s2) /\
     value r2 = value r1 /\ determined r2 = true) /\
  (exists r1 s1 r2 s2,
     StabilizerSim.measure_y 1 1 (1 # 3) epr_state = (Ok r1, s1) /\
     StabilizerSim.measure_y 1 0 (2 # 3) s1 = (Ok r2, s2) /\
     value r2 = value r1 /\ determined r2 = true).
Proof.
  assert (valid_qubit epr_state 1) as Hq by (unfold valid_qubit; simpl; lia).
  split; [apply reachable_epr_state|]. split; [exact Hq|].
  apply (basis_measure_twice epr_state 1 1 (1 # 3) 0 (2 # 3)
           reachable_epr_state Hq).
Defined.

(** ** The invariant of the columns *)

Lemma lookup_column t k i : i < length t -> column t k !!! i = cell t i k.
Proof. intros Hi. unfold column, cell. by apply list_lookup_total_fmap. Qed.

Lemma lookup_column_map n t (f : list bool -> list bool) k i :
  length t = 2 * n + 1 -> i < 2 * n + 1 ->
  column (map f t) k !!! i = f (t !!! i) !!! k.
Proof.
  intros Hlen Hi. rewrite lookup_column by (rewrite length_map; lia).
  by apply (cell_map n).
Qed.

Lemma column_pairing n t u v :
  length t = 2 * n + 1 ->
  anticommute n (column t u) (column t v)
  = xsum n (fun i => xorb (cell t i u && cell t (n + i) v)
                          (cell t (n + i) u && cell t i v)).
Proof.
  intros Hlen. apply xsum_ext. intros i Hi. by rewrite !lookup_column by lia.
Qed.

Lemma anticommute_xor_both n r r' a1 a2 b1 b2 (ca cb : bool) :
  (forall j, j < 2 * n -> r !!! j = xorb (a1 !!! j) (ca && a2 !!! j)) ->
  (forall j, j < 2 * n -> r' !!! j = xorb (b1 !!! j) (cb && b2 !!! j)) ->
  anticommute n r r'
  = xorb (xorb (anticommute n a1 b1) (cb && anticommute n a1 b2))
         (xorb (ca && anticommute n a2 b1)
               (ca && cb && anticommute n a2 b2)).
Proof.
  intros Hr Hr'. destruct ca, cb; simpl in *.
  - rewrite (anticommute_xor_l n r a1 a2) by done.
    rewrite !(anticommute_xor_r n r' b1 b2) by done.
    by destruct (anticommute n a1 b1), (anticommute n a1 b2),
       (anticommute n a2 b1), (anticommute n a2 b2).
  - rewrite (anticommute_xor_l n r a1 a2) by done.
    rewrite !(anticommute_ext n _ _ r' b1)
      by (done || (intros; by rewrite Hr', xorb_false_r)).
    by destruct (anticommute n a1 b1), (anticommute n a2 b1).
  - rewrite (anticommute_xor_r n r' b1 b2) by done.
    rewrite !(anticommute_ext n r a1 _ _)
      by (done || (intros; by rewrite Hr, xorb_false_r)).
    by destruct (anticommute n a1 b1), (anticommute n a1 b2).
  - rewrite (anticommute_ext n r a1 r' b1)
      by (intros; by rewrite ?Hr, ?Hr', xorb_false_r).
    by destruct (anticommute n a1 b1).
Qed.

Lemma length_eye m : length (eye m) = m.
Proof. unfold eye. by rewrite length_map, length_seq. Qed.

Lemma column_inv_init n : column_inv (__init__ n).
Proof.
  intros u v Hu Hv. simpl in *.
  assert (forall w j, w < 2 * n -> j < 2 * n ->
            column (eye (2 * n + 1)) w !!! j = bool_decide (j = w)) as Hcol.
  { intros w j Hw Hj. rewrite lookup_column by (rewrite length_eye; lia).
    unfold cell. by rewrite lookup_eye by lia. }
  destruct (decide (n <= v)) as [Hvn|Hvn].
  - rewrite (anticommute_z_r n _ _ (v - n)) by
      (try lia; intros k Hk; rewrite Hcol by lia; apply bool_decide_ext; lia).
    rewrite Hcol by lia. apply bool_decide_ext. lia.
  - destruct (decide (n <= u)) as [Hun|Hun].
    + rewrite anticommute_sym.
      rewrite (anticommute_z_r n _ _ (u - n)) by
        (try lia; intros k Hk; rewrite Hcol by lia; apply bool_decide_ext; lia).
      rewrite Hcol by lia. apply bool_decide_ext. lia.
    + rewrite bool_decide_eq_false_2 by lia.
      unfold anticommute. rewrite <- (xsum_false n). apply xsum_ext.
      intros j Hj. rewrite !Hcol by lia.
      rewrite (bool_decide_eq_false_2 (n + j = u)) by lia.
      by rewrite (bool_decide_eq_false_2 (n + j = v)), !andb_false_r by lia.
Qed.

Ltac bool_decide_lia :=
  repeat match goal with
         | |- context [bool_decide ?P] =>
             first [ rewrite (bool_decide_eq_true_2 P) by lia
                   | rewrite (bool_decide_eq_false_2 P) by lia ]
         end.

Section column_gates.
Context (n : nat) (t : list (list bool)).
Context (Hwf : wf_table n t) (Hcol : column_inv (mkSim n t)).

Lemma column_inv_hadamard q :
  q < n -> column_inv (mkSim n (map (hadamard_row n q) t)).
Proof.
  intros Hq u v Hu Hv. pose proof Hwf as [Hlen _].
  pose proof Hcol as Hpair. unfold column_inv in Hpair. simpl in *.
  pose (sigma := fun w => if decide (w = q) then n + q
                          else if decide (w = n + q) then q else w).
  assert (forall w j, w < 2 * n -> j < 2 * n ->
            column (map (hadamard_row n q) t) w !!! j
            = column t (sigma w) !!! j) as Hnew.
  { intros w j Hw Hj. rewrite (lookup_column_map n) by (done || lia).
    rewrite lookup_hadamard_row by (try apply wf_table_lookup; done || lia).
    rewrite lookup_column by lia. unfold sigma, cell.
    repeat case_decide; done || lia. }
  rewrite (anticommute_ext n _ (column t (sigma u)) _ (column t (sigma v)))
    by (intros; apply Hnew; lia).
  rewrite Hpair by (unfold sigma; repeat case_decide; lia).
  apply bool_decide_ext. unfold sigma. repeat case_decide; lia.
Qed.

Lemma column_inv_phase q :
  q < n -> column_inv (mkSim n (map (phase_row n q) t)).
Proof.
  intros Hq u v Hu Hv. pose proof Hwf as [Hlen _].
  pose proof Hcol as Hpair. unfold column_inv in Hpair. simpl in *.
  assert (forall w j, w < 2 * n -> j < 2 * n ->
            column (map (phase_row n q) t) w !!! j
            = xorb (column t w !!! j)
                   (bool_decide (w = n + q) && column t q !!! j)) as Hnew.
  { intros w j Hw Hj. rewrite (lookup_column_map n) by (done || lia).
    rewrite lookup_phase_row by (try apply wf_table_lookup; done || lia).
    rewrite !lookup_column by lia. unfold cell.
    case_bool_decide; decide_lia; simpl; [by subst|by rewrite xorb_false_r]. }
  rewrite (anticommute_xor_both n _ _ (column t u) (column t q)
             (column t v) (column t q) (bool_decide (u = n + q))
             (bool_decide (v = n + q)))
    by (intros; apply Hnew; lia).
  rewrite !Hpair by lia.
  destruct (decide (u = n + q)), (decide (v = n + q)); subst;
    bool_decide_lia; simpl; rewrite ?xorb_false_r; try done;
    case_bool_decide; bool_decide_lia; done.
Qed.

Lemma column_inv_cnot c tg :
  c < n -> tg < n -> c <> tg ->
  column_inv (mkSim n (map (cnot_row n c tg) t)).
Proof.
  intros Hc Ht Hne u v Hu Hv. pose proof Hwf as [Hlen _].
  pose proof Hcol as Hpair. unfold column_inv in Hpair. simpl in *.
  pose (src := fun w => if decide (w = tg) then c else n + tg).
  assert (forall w j, w < 2 * n -> j < 2 * n ->
            column (map (cnot_row n c tg) t) w !!! j
            = xorb (column t w !!! j)
                   (bool_decide (w = tg \/ w = n + c)
                    && column t (src w) !!! j)) as Hnew.
  { intros w j Hw Hj. rewrite (lookup_column_map n) by (done || lia).
    rewrite lookup_cnot_row by (try apply wf_table_lookup; done || lia).
    rewrite !lookup_column by lia. unfold cell, src.
    case_bool_decide; repeat case_decide; simpl; subst;
      try done; try lia; by rewrite xorb_false_r. }
  rewrite (anticommute_xor_both n _ _ (column t u) (column t (src u))
             (column t v) (column t (src v))
             (bool_decide (u = tg \/ u = n + c))
             (bool_decide (v = tg \/ v = n + c)))
    by (intros; apply Hnew; lia).
  rewrite !Hpair by (unfold src; repeat case_decide; lia).
  unfold src.
  destruct (decide (u = tg)), (decide (u = n + c)),
    (decide (v = tg)), (decide (v = n + c)); subst; try lia;
    decide_lia; bool_decide_lia; simpl; rewrite ?xorb_false_r; try done;
    case_bool_decide; bool_decide_lia; done.
Qed.
End column_gates.

Lemma xsum_andb m (c : bool) f :
  xsum m (fun j => c && f j) = c && xsum m f.
Proof.
  destruct c; simpl; [done|]. apply xsum_false.
Qed.

Section column_random.
Context (n a p : nat) (b : bool) (t : list (list bool)).
Context (Ha : a < n) (Hp : p < n) (Hinv : tableau_inv (mkSim n t)).
Context (Hx : cell t (p + n) a = true) (Hcol : column_inv (mkSim n t)).

Lemma random_table_destab_cell i u :
  i < n -> u < 2 * n ->
  cell (random_table n a p b t) i u =
    if decide (i = p) then cell t (n + p) u
    else xorb (cell t i u) (cell t i a && cell t (n + p) u).
Proof.
  intros Hi Hu. unfold cell at 1. rewrite random_table_destab by done.
  case_decide; [done|].
  by rewrite lookup_row_update
    by (try (eapply inv_row; [eassumption|]); lia).
Qed.

Lemma random_table_stab_cell i u :
  i < n -> u < 2 * n ->
  cell (random_table n a p b t) (n + i) u =
    if decide (i = p) then bool_decide (u = n + a)
    else xorb (cell t (n + i) u) (cell t (n + i) a && cell t (n + p) u).
Proof.
  intros Hi Hu. unfold cell at 1. rewrite random_table_stab by done.
  case_decide; [by rewrite lookup_z_observable by lia|].
  by rewrite lookup_row_update
    by (try (eapply inv_row; [eassumption|]); lia).
Qed.

(** The pairing of two columns without the contribution of the rows [p]
    and [n + p]. *)
Local Abbreviation pairing_but u v :=
  (xsum n (fun j => if decide (j = p) then false
                    else xorb (cell t j u && cell t (n + j) v)
                              (cell t (n + j) u && cell t j v))).

Lemma pairing_but_eq u v :
  u < 2 * n -> v < 2 * n ->
  pairing_but u v
  = xorb (bool_decide (v = n + u \/ u = n + v))
         (xorb (cell t p u && cell t (n + p) v)
               (cell t (n + p) u && cell t p v)).
Proof.
  intros Hu Hv. pose proof (Hcol u v Hu Hv) as Huv. simpl in Huv.
  rewrite column_pairing in Huv by (by eapply inv_length).
  rewrite (xsum_split n p) in Huv by done. rewrite <- Huv.
  by destruct (pairing_but u v), (cell t p u), (cell t (n + p) v),
     (cell t (n + p) u), (cell t p v).
Qed.

Lemma column_inv_random : column_inv (mkSim n (random_table n a p b t)).
Proof.
  intros u v Hu Hv. simpl in *.
  assert (cell t (n + p) a = true) as Hxa
    by (by replace (n + p) with (p + n) by lia).
  rewrite column_pairing by (by apply wf_random_table).
  rewrite (xsum_split n p) by done.
  rewrite !random_table_stab_cell, !random_table_destab_cell by done.
  decide_lia.
  assert (xsum n
            (fun j => if decide (j = p) then false
                      else xorb (cell (random_table n a p b t) j u
                                 && cell (random_table n a p b t) (n + j) v)
                                (cell (random_table n a p b t) (n + j) u
                                 && cell (random_table n a p b t) j v))
          = xorb (xorb (pairing_but u v)
                       (cell t (n + p) v && pairing_but a u))
                 (cell t (n + p) u && pairing_but a v)) as ->.
  { rewrite <- !xsum_andb, <- !xsum_xorb.
    apply xsum_ext. intros j Hj. case_decide.
    - by rewrite !andb_false_r.
    - rewrite !random_table_stab_cell, !random_table_destab_cell by done.
      decide_lia.
      by destruct (cell t j u), (cell t j v), (cell t j a),
         (cell t (n + j) u), (cell t (n + j) v), (cell t (n + j) a),
         (cell t (n + p) u), (cell t (n + p) v). }
  rewrite !pairing_but_eq by lia. rewrite Hxa.
  rewrite (bool_decide_ext (u = n + a \/ a = n + u) (u = n + a)) by lia.
  rewrite (bool_decide_ext (v = n + a \/ a = n + v) (v = n + a)) by lia.
  by destruct (bool_decide (v = n + u \/ u = n + v)),
     (bool_decide (u = n + a)), (bool_decide (v = n + a)),
     (cell t p u), (cell t p v), (cell t p a),
     (cell t (n + p) u), (cell t (n + p) v).
Qed.
End column_random.

Lemma column_inv_determined n a t :
  length t = 2 * n + 1 ->
  column_inv (mkSim n t) -> column_inv (mkSim n (determined_table n a t)).
Proof.
  intros Hlen Hcol u v Hu Hv. simpl in *.
  pose proof (Hcol u v Hu Hv) as Huv. simpl in Huv. rewrite <- Huv.
  apply anticommute_ext; intros j Hj;
    rewrite !lookup_column
      by (unfold determined_table; rewrite ?length_insert; lia);
    unfold cell, determined_table;
    by rewrite list_lookup_total_insert_ne by lia.
Qed.

(** Every reachable state satisfies the invariant of the columns. *)
Lemma reachable_column_inv s : reachable s -> column_inv s.
Proof.
  induction 1 as [n|[n t] c tg s' Hreach IH Hc Ht Hne Hrun
                   |[n t] q s' Hreach IH Hq Hrun|[n t] q s' Hreach IH Hq Hrun
                   |[n t] q bias u r s' Hreach IH Hq _ _ _ _ Hrun].
  - apply column_inv_init.
  - pose proof (reachable_inv _ Hreach) as [Hwf _ _].
    assert (Z.to_nat c <> Z.to_nat tg)
      by (unfold valid_qubit in *; simpl in *; lia).
    apply valid_qubit_index in Hc as [Hc Hc'], Ht as [Ht Ht'].
    rewrite (cnot_run _ _ _ _ _ _ Hc Ht) in Hrun. injection Hrun as <-.
    by apply column_inv_cnot.
  - pose proof (reachable_inv _ Hreach) as [Hwf _ _].
    apply valid_qubit_index in Hq as [Hq Hq'].
    rewrite (hadamard_run _ _ _ _ Hq) in Hrun. injection Hrun as <-.
    by apply column_inv_hadamard.
  - pose proof (reachable_inv _ Hreach) as [Hwf _ _].
    apply valid_qubit_index in Hq as [Hq Hq'].
    rewrite (phase_run _ _ _ _ Hq) in Hrun. injection Hrun as <-.
    by apply column_inv_phase.
  - pose proof (reachable_inv _ Hreach) as Hinv.
    apply valid_qubit_index in Hq as [Hq Hq'].
    destruct (measure_cases n t q _ bias u Hq Hinv)
      as [(p & Hp & Hhit & _ & Heq & Hrun')|(Hmiss & Heq & Hrun')];
      rewrite Heq, Hrun' in Hrun; injection Hrun as <- <-.
    + by apply column_inv_random.
    + apply column_inv_determined; [by eapply inv_length|done].
Qed.

(** ** The scratch row of a determined measurement *)

Lemma lookup_z_observable_sign n a b : z_observable n a b !!! (2 * n) = b.
Proof.
  unfold z_observable, r_col.
  by rewrite list_lookup_total_insert_eq
    by (rewrite length_insert, length_replicate; lia).
Qed.

Section scratch_bits.
Context (n a : nat) (t : list (list bool)).
Context (Ha : a < n) (Hwf : wf_table n t).

Lemma length_determined_scratch k :
  k <= n -> length (determined_scratch n a k t) = 2 * n + 1.
Proof.
  induction k as [|k IH]; intros Hk; [apply length_replicate|].
  rewrite determined_scratch_S. unfold determined_step.
  apply length_row_update; [apply IH; lia|].
  apply wf_table_lookup; [done|lia].
Qed.

(** The bits of the scratch row are the sums of the bits of the
    stabilizer rows that were multiplied in. *)
Lemma determined_scratch_bits k v :
  k <= n -> v < 2 * n ->
  determined_scratch n a k t !!! v
  = xsum k (fun i => cell t i a && cell t (n + i) v).
Proof.
  intros Hk Hv. induction k as [|k IH].
  - unfold determined_scratch. simpl.
    by rewrite lookup_total_replicate_2 by lia.
  - rewrite determined_scratch_S. unfold determined_step.
    rewrite lookup_row_update
      by (try apply length_determined_scratch;
          try apply wf_table_lookup; done || lia).
    rewrite IH by lia. simpl. unfold cell.
    by replace (k + n) with (n + k) by lia.
Qed.

Context (Hcol : column_inv (mkSim n t)).
Context (Hmiss : forall p, p < n -> cell t (p + n) a = false).

Lemma determined_scratch_z v :
  v < 2 * n -> determined_scratch n a n t !!! v = bool_decide (v = n + a).
Proof.
  intros Hv. pose proof Hwf as [Hlen _].
  rewrite determined_scratch_bits by (done || lia).
  pose proof (Hcol a v) as Hav. simpl in Hav.
  rewrite column_pairing in Hav by done.
  rewrite (bool_decide_ext _ (v = n + a)) in Hav by lia.
  rewrite <- Hav by lia. apply xsum_ext. intros i Hi.
  replace (cell t (n + i) a) with false
    by (symmetry; replace (n + i) with (i + n) by lia; by apply Hmiss).
  simpl. by rewrite xorb_false_r.
Qed.

Lemma determined_scratch_observable :
  determined_scratch n a n t
  = z_observable n a (determined_scratch n a n t !!! (2 * n)).
Proof.
  apply rows_eq.
  - by rewrite length_determined_scratch, length_z_observable.
  - rewrite length_determined_scratch by done. intros i Hi.
    destruct (decide (i = 2 * n)) as [->|Hne].
    + by rewrite lookup_z_observable_sign.
    + rewrite lookup_z_observable by lia. apply determined_scratch_z. lia.
Qed.
End scratch_bits.

(** ** Signs and the determined outcome *)

Lemma fold_add_ext (F G : nat -> Z) m :
  (forall j, j < m -> F j = G j) ->
  fold_left (fun (acc : Z) (j : nat) => Z.add acc (F j)) (seq 0 m) 0%Z
  = fold_left (fun (acc : Z) (j : nat) => Z.add acc (G j)) (seq 0 m) 0%Z.
Proof.
  intros HF. induction m as [|m IH]; [done|].
  rewrite !seq_S, !fold_left_app. simpl.
  rewrite IH by (intros; apply HF; lia). by rewrite HF by lia.
Qed.

Lemma phase_sum_ext n ri rk ri' rk' :
  (forall j, j < 2 * n -> ri !!! j = ri' !!! j) ->
  (forall j, j < 2 * n -> rk !!! j = rk' !!! j) ->
  phase_sum n ri rk = phase_sum n ri' rk'.
Proof.
  intros Hi Hk. unfold phase_sum.
  apply (fold_add_ext
           (fun j => pauli_product_phase (ri !!! j) (ri !!! (n + j))
                                         (rk !!! j) (rk !!! (n + j)))
           (fun j => pauli_product_phase (ri' !!! j) (ri' !!! (n + j))
                                         (rk' !!! j) (rk' !!! (n + j)))).
  intros j Hj. by rewrite !Hi, !Hk by lia.
Qed.

(** The sign of a product is the sum of the two signs and of a bit that
    depends on the Paulis alone. *)
Lemma product_sign_split n ri rk :
  product_sign n ri rk
  = xorb (xorb (ri !!! (2 * n)) (rk !!! (2 * n)))
         (Z.odd (Z.shiftr (phase_sum n ri rk) 1)).
Proof.
  unfold product_sign, r_col.
  replace (Z.land (Z.shiftr (phase_sum n ri rk) 1) 1)
    with (Z.b2z (Z.odd (Z.shiftr (phase_sum n ri rk) 1))).
  - by destruct (xorb (ri !!! (2 * n)) (rk !!! (2 * n))),
       (Z.odd (Z.shiftr (phase_sum n ri rk) 1)).
  - rewrite <- Z.bit0_odd, Z.bit0_mod.
    pose proof (Z.land_ones (Z.shiftr (phase_sum n ri rk) 1) 1) as Hones.
    change (Z.ones 1) with 1%Z in Hones. change (2 ^ 1)%Z with 2%Z in Hones.
    rewrite Hones by lia. done.
Qed.

Lemma product_sign_signs n ri rk ri' rk' :
  (forall j, j < 2 * n -> ri' !!! j = ri !!! j) ->
  (forall j, j < 2 * n -> rk' !!! j = rk !!! j) ->
  product_sign n ri' rk'
  = xorb (product_sign n ri rk)
         (xorb (xorb (ri !!! (2 * n)) (ri' !!! (2 * n)))
               (xorb (rk !!! (2 * n)) (rk' !!! (2 * n)))).
Proof.
  intros Hi Hk. rewrite !product_sign_split.
  rewrite (phase_sum_ext n ri' rk' ri rk) by done.
  by destruct (ri !!! (2 * n)), (ri' !!! (2 * n)), (rk !!! (2 * n)),
     (rk' !!! (2 * n)), (Z.odd (Z.shiftr (phase_sum n ri rk) 1)).
Qed.

(** Two tables with the same Paulis whose signs differ by [fl]: the scratch
    rows have the same Paulis, and their signs differ by the sum of [fl]
    over the stabilizer rows that are multiplied in. *)
Lemma determined_scratch_signs n a t t2 (fl : nat -> bool) k :
  a < n -> wf_table n t -> wf_table n t2 ->
  (forall i j, i < 2 * n -> j < 2 * n -> cell t2 i j = cell t i j) ->
  (forall i, i < 2 * n ->
     cell t2 i (2 * n) = xorb (cell t i (2 * n)) (fl i)) ->
  k <= n ->
  (forall j, j < 2 * n ->
     determined_scratch n a k t2 !!! j = determined_scratch n a k t !!! j) /\
  determined_scratch n a k t2 !!! (2 * n)
  = xorb (determined_scratch n a k t !!! (2 * n))
         (xsum k (fun i => cell t i a && fl (n + i))).
Proof.
  intros Ha Hwf Hwf2 Hbits Hsigns Hk.
  induction k as [|k IH];
    [split; [done|]; unfold determined_scratch; simpl;
     by rewrite xorb_false_r|].
  destruct IH as [IHb IHs]; [lia|].
  rewrite !determined_scratch_S. unfold determined_step.
  rewrite Hbits by lia.
  assert (length (determined_scratch n a k t) = 2 * n + 1) as Hl
    by (apply length_determined_scratch; done || lia).
  assert (length (determined_scratch n a k t2) = 2 * n + 1) as Hl2
    by (apply length_determined_scratch; done || lia).
  assert (length (t !!! (k + n)) = 2 * n + 1) as Hr
    by (apply wf_table_lookup; done || lia).
  assert (length (t2 !!! (k + n)) = 2 * n + 1) as Hr2
    by (apply wf_table_lookup; done || lia).
  split.
  - intros j Hj. rewrite !lookup_row_update by (auto with lia).
    rewrite IHb by done. f_equal. f_equal. apply Hbits; lia.
  - cbn [xsum]. replace (n + k) with (k + n) by lia.
    destruct (cell t k a); cbn [andb].
    + rewrite !lookup_row_product by (auto with lia). decide_lia.
      rewrite (product_sign_signs n (determined_scratch n a k t) (t !!! (k + n)))
        by (done || (intros; apply Hbits; lia)).
      rewrite IHs. fold (cell t2 (k + n) (2 * n)). rewrite Hsigns by lia.
      fold (cell t (k + n) (2 * n)).
      by destruct (product_sign n _ _), (determined_scratch n a k t !!! (2 * n)),
         (xsum k _), (cell t (k + n) (2 * n)), (fl (k + n)).
    + by rewrite IHs, xorb_false_r.
Qed.

Lemma measure_determined_value n t q a bias u :
  np_index n q = Ok a -> tableau_inv (mkSim n t) ->
  (forall p, p < n -> cell t (p + n) a = false) ->
  measure q bias u (mkSim n t)
  = (Ok (mkResult (determined_scratch n a n t !!! (2 * n)) true),
     mkSim n (determined_table n a t)).
Proof.
  intros Hq Hinv Hmiss.
  destruct (measure_cases n t q _ bias u Hq Hinv)
    as [(p & Hp & Hhit & _)|(_ & Heq & Hrun)].
  - by rewrite Hmiss in Hhit.
  - by rewrite Heq, Hrun.
Qed.

(** Row maps that touch the signs only. *)
Section sign_maps.
Context (n : nat) (f : list bool -> list bool).
Context (Hflen : forall row, length row = 2 * n + 1 ->
                   length (f row) = 2 * n + 1).
Context (Hfbits : forall row k, length row = 2 * n + 1 -> k < 2 * n ->
                    f row !!! k = row !!! k).

Lemma cell_sign_map t i k :
  wf_table n t -> i < 2 * n + 1 -> k < 2 * n ->
  cell (map f t) i k = cell t i k.
Proof.
  intros [Hlen Hrows] Hi Hk. rewrite (cell_map n) by done.
  apply Hfbits; [|done]. by apply wf_table_lookup.
Qed.

Lemma tableau_inv_sign_map t :
  tableau_inv (mkSim n t) -> tableau_inv (mkSim n (map f t)).
Proof.
  intros Hinv. apply tableau_inv_map; try done.
  intros r1 r2 H1 H2. apply anticommute_ext; intros; by apply Hfbits.
Qed.

Lemma column_inv_sign_map t :
  wf_table n t -> column_inv (mkSim n t) -> column_inv (mkSim n (map f t)).
Proof.
  intros Hwf Hcol u v Hu Hv. pose proof Hwf as [Hlen _]. simpl in *.
  pose proof (Hcol u v Hu Hv) as Huv. simpl in Huv. rewrite <- Huv.
  apply anticommute_ext; intros j Hj;
    rewrite !lookup_column by (rewrite ?length_map; lia);
    apply cell_sign_map; done || lia.
Qed.
End sign_maps.

Section determined_signs.
Context (n a : nat) (t : list (list bool)).
Context (Ha : a < n) (Hinv : tableau_inv (mkSim n t)).
Context (Hcol : column_inv (mkSim n t)).
Context (Hmiss : forall p, p < n -> cell t (p + n) a = false).

(** The determined outcome after a row map [f] that flips the sign of each
    row by [fl] of the row. *)
Lemma determined_value_sign_map f (fl : list bool -> bool) :
  (forall row, length row = 2 * n + 1 -> length (f row) = 2 * n + 1) ->
  (forall row k, length row = 2 * n + 1 -> k < 2 * n ->
     f row !!! k = row !!! k) ->
  (forall row, length row = 2 * n + 1 ->
     f row !!! (2 * n) = xorb (row !!! (2 * n)) (fl row)) ->
  determined_scratch n a n (map f t) !!! (2 * n)
  = xorb (determined_scratch n a n t !!! (2 * n))
         (xsum n (fun i => cell t i a && fl (t !!! (n + i)))).
Proof.
  intros Hflen Hfbits Hfsign. pose proof Hinv as [Hwf _ _]. simpl in Hwf.
  pose proof Hwf as [Hlen _].
  apply (determined_scratch_signs n a t (map f t) (fun i => fl (t !!! i)) n);
    try done.
  - by apply wf_table_map.
  - intros i j Hi Hj. apply (cell_sign_map n f); done || lia.
  - intros i Hi. rewrite (cell_map n) by (done || lia).
    apply Hfsign. apply wf_table_lookup; done || lia.
Qed.

Lemma measure_after_sign_map q f (fl : list bool -> bool) bias u :
  np_index n q = Ok a ->
  (forall row, length row = 2 * n + 1 -> length (f row) = 2 * n + 1) ->
  (forall row k, length row = 2 * n + 1 -> k < 2 * n ->
     f row !!! k = row !!! k) ->
  (forall row, length row = 2 * n + 1 ->
     f row !!! (2 * n) = xorb (row !!! (2 * n)) (fl row)) ->
  measure q bias u (mkSim n (map f t))
  = (Ok (mkResult
           (xorb (determined_scratch n a n t !!! (2 * n))
                 (xsum n (fun i => cell t i a && fl (t !!! (n + i))))) true),
     mkSim n (determined_table n a (map f t))).
Proof.
  intros Hq Hflen Hfbits Hfsign. pose proof Hinv as [Hwf _ _]. simpl in Hwf.
  rewrite (measure_determined_value n _ q a) ; try done.
  - by rewrite (determined_value_sign_map f fl).
  - by apply tableau_inv_sign_map.
  - intros p Hp. rewrite (cell_sign_map n f) by (done || lia).
    by apply Hmiss.
Qed.

Lemma x_flip_sum :
  xsum n (fun i => cell t i a && (t !!! (n + i)) !!! (n + a)) = true.
Proof.
  pose proof Hinv as [Hwf _ _]. simpl in Hwf.
  change (xsum n (fun i => cell t i a && cell t (n + i) (n + a)) = true).
  rewrite <- determined_scratch_bits by (done || lia).
  rewrite determined_scratch_z by (done || lia).
  by apply bool_decide_eq_true_2.
Qed.

Lemma z_flip_sum :
  xsum n (fun i => cell t i a && (t !!! (n + i)) !!! a) = false.
Proof.
  rewrite <- (xsum_false n). apply xsum_ext. intros i Hi.
  fold (cell t (n + i) a). replace (n + i) with (i + n) by lia.
  by rewrite Hmiss, andb_false_r.
Qed.

Lemma y_flip_sum :
  xsum n (fun i => cell t i a
                   && xorb ((t !!! (n + i)) !!! a) ((t !!! (n + i)) !!! (n + a)))
  = true.
Proof.
  rewrite <- x_flip_sum. apply xsum_ext. intros i Hi.
  fold (cell t (n + i) a). replace (n + i) with (i + n) by lia.
  by rewrite Hmiss.
Qed.

Lemma measure_after_x q bias u :
  np_index n q = Ok a ->
  measure q bias u (mkSim n (map (pauli_x_row n a) t))
  = (Ok (mkResult (negb (determined_scratch n a n t !!! (2 * n))) true),
     mkSim n (determined_table n a (map (pauli_x_row n a) t))).
Proof.
  intros Hq.
  rewrite (measure_after_sign_map q _ (fun row => row !!! (n + a))); try done.
  - rewrite x_flip_sum. by rewrite xorb_true_r.
  - intros. by apply length_pauli_x_row.
  - intros. rewrite lookup_pauli_x_row by (done || lia). by decide_lia.
  - intros. rewrite lookup_pauli_x_row by (done || lia). by decide_lia.
Qed.

Lemma measure_after_y q bias u :
  np_index n q = Ok a ->
  measure q bias u (mkSim n (map (pauli_y_row n a) t))
  = (Ok (mkResult (negb (determined_scratch n a n t !!! (2 * n))) true),
     mkSim n (determined_table n a (map (pauli_y_row n a) t))).
Proof.
  intros Hq.
  rewrite (measure_after_sign_map q _
             (fun row => xorb (row !!! a) (row !!! (n + a)))); try done.
  - rewrite y_flip_sum. by rewrite xorb_true_r.
  - intros. by apply length_pauli_y_row.
  - intros. rewrite lookup_pauli_y_row by (done || lia). by decide_lia.
  - intros. rewrite lookup_pauli_y_row by (done || lia). by decide_lia.
Qed.

Lemma measure_after_z q bias u :
  np_index n q = Ok a ->
  measure q bias u (mkSim n (map (pauli_z_row n a) t))
  = (Ok (mkResult (determined_scratch n a n t !!! (2 * n)) true),
     mkSim n (determined_table n a (map (pauli_z_row n a) t))).
Proof.
  intros Hq.
  rewrite (measure_after_sign_map q _ (fun row => row !!! a)); try done.
  - rewrite z_flip_sum. by rewrite xorb_false_r.
  - intros. by apply length_pauli_z_row.
  - intros. rewrite lookup_pauli_z_row by (done || lia). by decide_lia.
  - intros. rewrite lookup_pauli_z_row by (done || lia). by decide_lia.
Qed.
End determined_signs.

Lemma column_inv_h_yz n t q :
  q < n -> wf_table n t ->
  column_inv (mkSim n t) -> column_inv (mkSim n (map (h_yz_row n q) t)).
Proof.
  intros Hq Hwf Hcol.
  replace (map (h_yz_row n q) t) with
    (map (phase_row n q) (map (phase_row n q) (map (hadamard_row n q)
       (map (phase_row n q) (map (hadamard_row n q) t)))))
    by (rewrite !map_map; apply map_ext; intros row; unfold h_yz_row;
        reflexivity).
  assert (forall t0, wf_table n t0 -> wf_table n (map (hadamard_row n q) t0))
    as HwfH by (intros; apply wf_table_map; [|done];
                intros; by apply length_hadamard_row).
  assert (forall t0, wf_table n t0 -> wf_table n (map (phase_row n q) t0))
    as HwfS by (intros; apply wf_table_map; [|done];
                intros; by apply length_phase_row).
  apply column_inv_phase; auto 6.
  apply column_inv_phase; auto 6.
  apply column_inv_hadamard; auto 6.
  apply column_inv_phase; auto 6.
  apply column_inv_hadamard; auto.
Qed.

(** After the correction of [measure_z_and_reset], a state whose
    measurement is determined measures as [False]. *)
Lemma reset_after n t q a bias u :
  np_index n q = Ok a -> a < n ->
  tableau_inv (mkSim n t) -> column_inv (mkSim n t) ->
  (forall p, p < n -> cell t (p + n) a = false) ->
  exists t2 s3,
    (if (determined_scratch n a n t !!! (2 * n) : bool)
     then StabilizerSim.x q else ret tt) (mkSim n t)
    = (Ok tt, mkSim n t2) /\
    measure q bias u (mkSim n t2) = (Ok (mkResult false true), s3).
Proof.
  intros Hq Ha Hinv Hcol Hmiss.
  destruct (determined_scratch n a n t !!! (2 * n)) eqn:Hv.
  - eexists _, _. split; [by apply x_run|].
    rewrite (measure_after_x n a t) by done. by rewrite Hv.
  - eexists _, _. split; [done|].
    rewrite (measure_determined_value n t q a) by done. by rewrite Hv.
Qed.

Lemma measure_z_and_reset_inv n t q bias u b2 u2 :
  valid_qubit (mkSim n t) q ->
  tableau_inv (mkSim n t) -> column_inv (mkSim n t) ->
  exists r t0 s1 s2,
    measure q bias u (mkSim n t) = (Ok r, mkSim n t0) /\
    StabilizerSim.measure_z_and_reset q bias u (mkSim n t) = (Ok r, s1) /\
    measure q b2 u2 s1 = (Ok (mkResult false true), s2).
Proof.
  intros [Hq Hq']%valid_qubit_index Hinv Hcol.
  pose proof (inv_length n t Hinv) as Hlen.
  unfold StabilizerSim.measure_z_and_reset.
  cbn [self_measure ChpSimulator_core].
  destruct (measure_cases n t q _ bias u Hq Hinv)
    as [(p & Hp & Hhit & _ & Heq & Hrun)|(Hmiss & Heq & Hrun)];
    rewrite Heq, Hrun; erewrite bind_Ok by (rewrite Heq; apply Hrun);
    cbn [value].
  - assert (determined_scratch n (Z.to_nat q) n
              (random_table n (Z.to_nat q) p (draw_lt u bias) t) !!! (2 * n)
            = draw_lt u bias) as Hval.
    { rewrite determined_scratch_after_random by done. decide_lia.
      rewrite lookup_row_product, decide_False
        by (rewrite ?length_replicate; try apply length_z_observable; lia).
      apply product_sign_zero_z. }
    destruct (reset_after n (random_table n (Z.to_nat q) p (draw_lt u bias) t)
                q (Z.to_nat q) b2 u2) as (t2 & s3 & Hfix & Hm); try done.
    + by apply tableau_inv_random.
    + by apply column_inv_random.
    + intros j Hj. by apply random_table_stab_x.
    + rewrite Hval in Hfix. eexists _, _, _, _. split; [done|].
      erewrite bind_Ok by apply Hfix. split; [done|]. exact Hm.
  - assert (forall i, i < 2 * n ->
              determined_table n (Z.to_nat q) t !!! i = t !!! i) as Hsame
      by (intros; unfold determined_table;
          by rewrite list_lookup_total_insert_ne by lia).
    destruct (reset_after n (determined_table n (Z.to_nat q) t)
                q (Z.to_nat q) b2 u2) as (t2 & s3 & Hfix & Hm); try done.
    + by apply tableau_inv_determined.
    + by apply column_inv_determined.
    + intros j Hj. unfold cell. rewrite Hsame by lia. by apply Hmiss.
    + rewrite (determined_scratch_ext n _ n _ t Hsame) in Hfix by done.
      eexists _, _, _, _. split; [done|].
      erewrite bind_Ok by apply Hfix. split; [done|]. exact Hm.
Qed.

(** X16. The columns of a reachable tableau satisfy the relations that its
    rows do.  For two columns [u] and [v] among the [2n] Pauli columns, the
    sum over the qubits [i] of [t[i,u] t[n+i,v] + t[n+i,u] t[i,v]] (mod 2)
    is [1] exactly when [u] and [v] are the X and the Z column of one
    qubit. *)
Theorem column_relations (s : ChpSimulator) (u v : nat) :
  reachable s -> u < 2 * _n s -> v < 2 * _n s ->
  xsum (_n s)
       (fun i => xorb (cell (_table s) i u && cell (_table s) (_n s + i) v)
                      (cell (_table s) (_n s + i) u && cell (_table s) i v))
  = bool_decide (v = _n s + u \/ u = _n s + v).
Proof.
  intros Hreach Hu Hv.
  rewrite <- (reachable_column_inv s Hreach u v Hu Hv).
  symmetry. apply column_pairing.
  by destruct (reachable_inv s Hreach) as [[? _] _ _].
Qed.

Lemma column_relations_witness :
  reachable epr_state /\ 0 < 2 * _n epr_state /\ 2 < 2 * _n epr_state /\
  xsum (_n epr_state)
       (fun i => xorb (cell (_table epr_state) i 0
                       && cell (_table epr_state) (_n epr_state + i) 2)
                      (cell (_table epr_state) (_n epr_state + i) 0
                       && cell (_table epr_state) i 2))
  = bool_decide (2 = _n epr_state + 0 \/ 0 = _n epr_state + 2).
Proof.
  assert (0 < 2 * _n epr_state) as H0 by (simpl; lia).
  assert (2 < 2 * _n epr_state) as H2 by (simpl; lia).
  split; [apply reachable_epr_state|]. split; [exact H0|]. split; [exact H2|].
  apply (column_relations epr_state 0 2 reachable_epr_state H0 H2).
Defined.

(** X17. A determined measurement leaves the measured observable in the
    scratch row.  On a reachable state and a valid qubit [q] on which no
    stabilizer row has an X component, row [2n] after [measure(q)] has a Z
    on qubit [q], no other Pauli, and the returned value as its sign. *)
Theorem determined_scratch_row (s : ChpSimulator) (q : Z) (bias u : Q) :
  reachable s -> valid_qubit s q ->
  (forall p, _n s <= p < 2 * _n s -> cell (_table s) p (Z.to_nat q) = false) ->
  exists r s',
    measure q bias u s = (Ok r, s') /\ determined r = true /\
    _table s' !!! (2 * _n s) = z_observable (_n s) (Z.to_nat q) (value r).
Proof.
  intros Hreach Hq Hnone.
  pose proof (reachable_inv s Hreach) as Hinv.
  pose proof (reachable_column_inv s Hreach) as Hcol.
  destruct s as [n t]. apply valid_qubit_index in Hq as [Hq Hq']. simpl in *.
  pose proof (inv_length n t Hinv) as Hlen.
  assert (forall p, p < n -> cell t (p + n) (Z.to_nat q) = false) as Hmiss
    by (intros; apply Hnone; lia).
  eexists _, _. split; [by apply measure_determined_value|].
  split; [done|]. simpl. unfold determined_table.
  rewrite list_lookup_total_insert_eq by lia.
  apply determined_scratch_observable; try done. by destruct Hinv.
Qed.

Lemma determined_scratch_row_witness :
  reachable (__init__ 2) /\ valid_qubit (__init__ 2) 1 /\
  (forall p, _n (__init__ 2) <= p < 2 * _n (__init__ 2) ->
     cell (_table (__init__ 2)) p (Z.to_nat 1) = false) /\
  exists r s',
    measure 1 (1 # 2) (1 # 3) (__init__ 2) = (Ok r, s') /\
    determined r = true /\
    _table s' !!! (2 * _n (__init__ 2))
    = z_observable (_n (__init__ 2)) (Z.to_nat 1) (value r).
Proof.
  assert (valid_qubit (__init__ 2) 1) as Hq by (unfold valid_qubit; simpl; lia).
  assert (forall p, _n (__init__ 2) <= p < 2 * _n (__init__ 2) ->
            cell (_table (__init__ 2)) p (Z.to_nat 1) = false) as Hnone.
  { intros p Hp. simpl in Hp.
    assert (p = 2 \/ p = 3) as [->| ->] by lia; reflexivity. }
  split; [apply reach_init|]. split; [exact Hq|]. split; [exact Hnone|].
  apply (determined_scratch_row (__init__ 2) 1 (1 # 2) (1 # 3)
           (reach_init 2) Hq Hnone).
Defined.

(** X18. A Pauli gate before a determined measurement.  On a reachable
    state and a valid qubit [q] on which no stabilizer row has an X
    component, [measure(q)] is determined also after [x(q)], [y(q)] or
    [z(q)]; after [x(q)] and after [y(q)] it returns the opposite value,
    after [z(q)] the same value. *)
Theorem pauli_before_determined_measure
    (s : ChpSimulator) (q : Z) (bias u : Q) :
  reachable s -> valid_qubit s q ->
  (forall p, _n s <= p < 2 * _n s -> cell (_table s) p (Z.to_nat q) = false) ->
  exists v,
    (exists s', measure q bias u s = (Ok (mkResult v true), s')) /\
    (exists s', (StabilizerSim.x q ;; measure q bias u) s
                = (Ok (mkResult (negb v) true), s')) /\
    (exists s', (StabilizerSim.y q ;; measure q bias u) s
                = (Ok (mkResult (negb v) true), s')) /\
    (exists s', (StabilizerSim.z q ;; measure q bias u) s
                = (Ok (mkResult v true), s')).
Proof.
  intros Hreach Hq Hnone.
  pose proof (reachable_inv s Hreach) as Hinv.
  pose proof (reachable_column_inv s Hreach) as Hcol.
  destruct s as [n t]. apply valid_qubit_index in Hq as [Hq Hq']. simpl in *.
  assert (forall p, p < n -> cell t (p + n) (Z.to_nat q) = false) as Hmiss
    by (intros; apply Hnone; lia).
  exists (determined_scratch n (Z.to_nat q) n t !!! (2 * n)). split_and!.
  - eexists. by apply measure_determined_value.
  - eexists. erewrite bind_Ok by (by apply x_run). by apply measure_after_x.
  - eexists. erewrite bind_Ok by (by apply y_run). by apply measure_after_y.
  - eexists. erewrite bind_Ok by (by apply z_run). by apply measure_after_z.
Qed.

Lemma pauli_before_determined_measure_witness :
  reachable (__init__ 2) /\ valid_qubit (__init__ 2) 1 /\
  (forall p, _n (__init__ 2) <= p < 2 * _n (__init__ 2) ->
     cell (_table (__init__ 2)) p (Z.to_nat 1) = false) /\
  exists v,
    (exists s', measure 1 (1 # 2) (1 # 3) (__init__ 2)
                = (Ok (mkResult v true), s')) /\
    (exists s', (StabilizerSim.x 1 ;; measure 1 (1 # 2) (1 # 3)) (__init__ 2)
                = (Ok (mkResult (negb v) true), s')) /\
    (exists s', (StabilizerSim.y 1 ;; measure 1 (1 # 2) (1 # 3)) (__init__ 2)
                = (Ok (mkResult (negb v) true), s')) /\
    (exists s', (StabilizerSim.z 1 ;; measure 1 (1 # 2) (1 # 3)) (__init__ 2)
                = (Ok (mkResult v true), s')).
Proof.
  assert (valid_qubit (__init__ 2) 1) as Hq by (unfold valid_qubit; simpl; lia).
  assert (forall p, _n (__init__ 2) <= p < 2 * _n (__init__ 2) ->
            cell (_table (__init__ 2)) p (Z.to_nat 1) = false) as Hnone.
  { intros p Hp. simpl in Hp.
    assert (p = 2 \/ p = 3) as [->| ->] by lia; reflexivity. }
  split; [apply reach_init|]. split; [exact Hq|]. split; [exact Hnone|].
  apply (pauli_before_determined_measure (__init__ 2) 1 (1 # 2) (1 # 3)
           (reach_init 2) Hq Hnone).
Defined.

(** X19. The three measure-and-reset methods leave the qubit in [|0>].  On
    a reachable state and a valid qubit [q], [measure_z_and_reset(q)]
    returns what [measure(q)] returns, and after it, after
    [measure_x_and_reset(q)] and after [measure_y_and_reset(q)] a
    [measure(q)] returns [False] with [determined = True], whatever the
    biases and the random draws. *)
Theorem measure_and_reset_clears
    (s : ChpSimulator) (q : Z) (bias u b2 u2 : Q) :
  reachable s -> valid_qubit s q ->
  (exists r s0 s1 s2,
     measure q bias u s = (Ok r, s0) /\
     StabilizerSim.measure_z_and_reset q bias u s = (Ok r, s1) /\
     measure q b2 u2 s1 = (Ok (mkResult false true), s2)) /\
  (exists r s1 s2,
     StabilizerSim.measure_x_and_reset q bias u s = (Ok r, s1) /\
     measure q b2 u2 s1 = (Ok (mkResult false true), s2)) /\
  (exists r s1 s2,
     StabilizerSim.measure_y_and_reset q bias u s = (Ok r, s1) /\
     measure q b2 u2 s1 = (Ok (mkResult false true), s2)).
Proof.
  intros Hreach Hv.
  pose proof (reachable_inv s Hreach) as Hinv.
  pose proof (reachable_column_inv s Hreach) as Hcol.
  destruct s as [n t]. pose proof Hv as [Hq Hq']%valid_qubit_index.
  pose proof Hinv as [Hwf _ _]. simpl in Hwf.
  assert (forall t0, valid_qubit (mkSim n t0) q) as Hv' by (intros; exact Hv).
  split_and!.
  - destruct (measure_z_and_reset_inv n t q bias u b2 u2 Hv Hinv Hcol)
      as (r & t0 & s1 & s2 & Hm & Hz & Hm2).
    by eexists _, _, _, _.
  - destruct (measure_z_and_reset_inv n (map (hadamard_row n (Z.to_nat q)) t)
                q bias u b2 u2 (Hv' _))
      as (r & t0 & s1 & s2 & Hm & Hz & Hm2).
    + by apply tableau_inv_hadamard.
    + by apply column_inv_hadamard.
    + exists r, s1, s2. split; [|done].
      unfold StabilizerSim.measure_x_and_reset.
      cbn [self_hadamard ChpSimulator_core].
      by erewrite bind_Ok by (by apply hadamard_run).
  - destruct (measure_z_and_reset_inv n (map (h_yz_row n (Z.to_nat q)) t)
                q bias u b2 u2 (Hv' _))
      as (r & t0 & s1 & s2 & Hm & Hz & Hm2).
    + by apply tableau_inv_h_yz.
    + by apply column_inv_h_yz.
    + exists r, s1, s2. split; [|done].
      unfold StabilizerSim.measure_y_and_reset.
      by erewrite bind_Ok by (by apply h_yz_run).
Qed.

Lemma measure_and_reset_clears_witness :
  reachable epr_state /\ valid_qubit epr_state 1 /\
  (exists r s0 s1 s2,
     measure 1 1 (1 # 3) epr_state = (Ok r, s0) /\
     StabilizerSim.measure_z_and_reset 1 1 (1 # 3) epr_state = (Ok r, s1) /\
     measure 1 (1 # 2) (2 # 3) s1 = (Ok (mkResult false true), s2)) /\
  (exists r s1 s2,
     StabilizerSim.measure_x_and_reset 1 1 (1 # 3) epr_state = (Ok r, s1) /\
     measure 1 (1 # 2) (2 # 3) s1 = (Ok (mkResult false true), s2)) /\
  (exists r s1 s2,
     StabilizerSim.measure_y_and_reset 1 1 (1 # 3) epr_state = (Ok r, s1) /\
     measure 1 (1 # 2) (2 # 3) s1 = (Ok (mkResult false true), s2)).
Proof.
  assert (valid_qubit epr_state 1) as Hq by (unfold valid_qubit; simpl; lia).
  split; [apply reachable_epr_state|]. split; [exact Hq|].
  apply (measure_and_reset_clears epr_state 1 1 (1 # 3) (1 # 2) (2 # 3)
           reachable_epr_state Hq).
Defined.

(** ** The destabilizer rows commute *)

Lemma destabilizers_commute_init n : destabilizers_commute (__init__ n).
Proof.
  intros i j Hi Hj. simpl in *.
  unfold anticommute. rewrite <- (xsum_false n). apply xsum_ext.
  intros k Hk. rewrite !lookup_eye by lia.
  rewrite (bool_decide_eq_false_2 (j = n + k)) by lia.
  by rewrite (bool_decide_eq_false_2 (i = n + k)), andb_false_r by lia.
Qed.

Lemma destabilizers_commute_map n t (f : list bool -> list bool) :
  wf_table n t ->
  (forall r1 r2, length r1 = 2 * n + 1 -> length r2 = 2 * n + 1 ->
     anticommute n (f r1) (f r2) = anticommute n r1 r2) ->
  destabilizers_commute (mkSim n t) ->
  destabilizers_commute (mkSim n (map f t)).
Proof.
  intros Hwf Hanti Hdd i j Hi Hj. pose proof Hwf as [Hlen _]. simpl in *.
  rewrite !(lookup_total_map n) by (done || lia).
  rewrite Hanti by (apply wf_table_lookup; (done || lia)). by apply Hdd.
Qed.

Section destabilizers_random.
Context (n a p : nat) (b : bool) (t : list (list bool)).
Context (Ha : a < n) (Hp : p < n) (Hinv : tableau_inv (mkSim n t)).
Context (Hx : cell t (p + n) a = true).
Context (Hdd : destabilizers_commute (mkSim n t)).

Lemma destabilizers_commute_random :
  destabilizers_commute (mkSim n (random_table n a p b t)).
Proof.
  intros i j Hi Hj. simpl in *.
  assert (forall k, k < 2 * n + 1 -> length (t !!! k) = 2 * n + 1) as Hrow
    by (intros; by eapply inv_row).
  pose proof (fun i j => inv_ds n t Hinv i j) as Hds.
  pose proof (fun i j => inv_ss n t Hinv i j) as Hss.
  pose proof (fun i j Hi Hj => Hdd i j Hi Hj) as Hd. simpl in Hd.
  rewrite !random_table_destab by done.
  destruct (decide (i = p)) as [->|Hip], (decide (j = p)) as [->|Hjp].
  - apply anticommute_self.
  - rewrite anticommute_row_update_r by (apply Hrow; lia).
    rewrite anticommute_self, andb_false_r, xorb_false_r.
    rewrite anticommute_sym, Hds by done. by apply bool_decide_eq_false_2.
  - rewrite anticommute_row_update_l by (apply Hrow; lia).
    rewrite anticommute_self, andb_false_r, xorb_false_r.
    rewrite Hds by done. by apply bool_decide_eq_false_2.
  - rewrite anticommute_row_update_l by (apply Hrow; lia).
    rewrite !anticommute_row_update_r by (apply Hrow; lia).
    rewrite anticommute_self, Hd, !Hds by done.
    rewrite (anticommute_sym n (t !!! (n + p))), Hds by done.
    rewrite !bool_decide_eq_false_2 by done.
    by rewrite !andb_false_r.
Qed.
End destabilizers_random.

(** X20. The destabilizer rows of a reachable tableau commute with each
    other: together with the relations between stabilizers and
    destabilizers, the rows [[0, 2n)] form a symplectic basis. *)
Theorem destabilizer_rows_commute (s : ChpSimulator) (i j : nat) :
  reachable s -> i < _n s -> j < _n s ->
  anticommute (_n s) (_table s !!! i) (_table s !!! j) = false.
Proof.
  intros Hreach. revert i j. change (destabilizers_commute s).
  induction Hreach as [n|[n t] c tg s' Hreach IH Hc Ht Hne Hrun
                   |[n t] q s' Hreach IH Hq Hrun|[n t] q s' Hreach IH Hq Hrun
                   |[n t] q bias u r s' Hreach IH Hq _ _ _ _ Hrun].
  - apply destabilizers_commute_init.
  - pose proof (reachable_inv _ Hreach) as [Hwf _ _].
    assert (Z.to_nat c <> Z.to_nat tg)
      by (unfold valid_qubit in *; simpl in *; lia).
    apply valid_qubit_index in Hc as [Hc Hc'], Ht as [Ht Ht'].
    rewrite (cnot_run _ _ _ _ _ _ Hc Ht) in Hrun. injection Hrun as <-.
    apply destabilizers_commute_map; try done.
    intros. by apply anticommute_cnot.
  - pose proof (reachable_inv _ Hreach) as [Hwf _ _].
    apply valid_qubit_index in Hq as [Hq Hq'].
    rewrite (hadamard_run _ _ _ _ Hq) in Hrun. injection Hrun as <-.
    apply destabilizers_commute_map; try done.
    intros. by apply anticommute_hadamard.
  - pose proof (reachable_inv _ Hreach) as [Hwf _ _].
    apply valid_qubit_index in Hq as [Hq Hq'].
    rewrite (phase_run _ _ _ _ Hq) in Hrun. injection Hrun as <-.
    apply destabilizers_commute_map; try done.
    intros. by apply anticommute_phase.
  - pose proof (reachable_inv _ Hreach) as Hinv.
    apply valid_qubit_index in Hq as [Hq Hq'].
    destruct (measure_cases n t q _ bias u Hq Hinv)
      as [(p & Hp & Hhit & _ & Heq & Hrun')|(Hmiss & Heq & Hrun')];
      rewrite Heq, Hrun' in Hrun; injection Hrun as <- <-.
    + by apply destabilizers_commute_random.
    + intros i j Hi Hj. simpl in *. unfold determined_table.
      rewrite !list_lookup_total_insert_ne by lia. by apply IH.
Qed.

Lemma destabilizer_rows_commute_witness :
  reachable kickback_state /\ 0 < _n kickback_state /\ 2 < _n kickback_state /\
  anticommute (_n kickback_state) (_table kickback_state !!! 0)
              (_table kickback_state !!! 2) = false.
Proof.
  assert (0 < _n kickback_state) as H0 by (vm_compute; lia).
  assert (2 < _n kickback_state) as H2 by (vm_compute; lia).
  split; [apply reachable_kickback_state|].
  split; [exact H0|]. split; [exact H2|].
  apply (destabilizer_rows_commute kickback_state 0 2
           reachable_kickback_state H0 H2).
Defined.

(** ** Exceptions of the core in the derived methods *)


